(** * WebGL_2DGame: the game model and the loop driver of the controller

    A shallow embedding of [src/model.js] (classes [GameModel], [Triangle])
    and of the game loop of [src/controller.js] ([GameController.startGame],
    [gameLoop], [endGame]), followed by the properties of the simulation
    core that the specification states about them.

    Modelling choices, all taken from the source:
    - a JavaScript Number is an IEEE 754 binary64 value; it is modelled by
      [spec_float] with [prec = 53] and [emax = 1024], so [+ - * /],
      [Math.sqrt] and the comparisons round and compare as the engine does;
    - the triangles are objects, compared by reference ([===], [indexOf]) and
      mutated through the alias [this.player]; they live in a [heap] (a list
      indexed by allocation order) and [gameObjects] is a list of references;
    - [Math.random()] and [Date.now()] are inputs: the k-th call of
      [Math.random] returns [rand k], the clock value is an argument;
    - reading a property of [undefined] or [null] throws: [TypeError];
    - loops whose bound is re-read at every iteration carry fuel; the
      theorems show that the fuel given is always enough. *)

From Stdlib Require Import ZArith Lia Bool.
From Stdlib Require Import Floats.SpecFloat.
From stdpp Require Import base option list gmap strings.

Local Open Scope Z_scope.

(** ** JavaScript numbers: IEEE 754 binary64 *)

Module Num.

Definition prec : Z := 53.
Definition emax : Z := 1024.

Abbreviation num := spec_float.

Definition add : num -> num -> num := SFadd prec emax.
Definition sub : num -> num -> num := SFsub prec emax.
Definition mul : num -> num -> num := SFmul prec emax.
Definition div : num -> num -> num := SFdiv prec emax.
Definition sqrt : num -> num := SFsqrt prec emax.
Definition neg : num -> num := SFopp.

(** [<], [<=], [===] on numbers: false as soon as one side is NaN. *)
Definition ltb : num -> num -> bool := SFltb.
Definition leb : num -> num -> bool := SFleb.
Definition eqb : num -> num -> bool := SFeqb.

(** An integer literal, or an integer converted to a Number. *)
Definition of_Z (z : Z) : num := binary_normalize prec emax z 0 false.

(** The decimal literals of the source denote the nearest binary64 value,
    which is also what the correctly rounded quotient gives. *)
Definition lit_0_1 : num := div (of_Z 1) (of_Z 10).
Definition lit_0_01 : num := div (of_Z 1) (of_Z 100).

(** [Math.floor]. *)
Definition floor (a : num) : num :=
  match a with
  | S754_finite s m e =>
      if 0 <=? e then a
      else
        let z := Z.shiftr (cond_Zopp s (Zpos m)) (- e) in
        if z =? 0 then S754_zero s else of_Z z
  | _ => a
  end.

(** The array index a Number denotes as a property key, if any. *)
Definition to_index (a : num) : option nat :=
  match a with
  | S754_zero _ => Some 0%nat
  | S754_finite false m e =>
      if 0 <=? e then Some (Z.to_nat (Z.shiftl (Zpos m) e))
      else if Z.land (Zpos m) (Z.ones (- e)) =? 0
           then Some (Z.to_nat (Z.shiftr (Zpos m) (- e)))
           else None
  | _ => None
  end.

(** [arr[a]]: [None] stands for [undefined]. *)
Definition array_get {A : Type} (arr : list A) (a : num) : option A :=
  match to_index a with
  | Some i => arr !! i
  | None => None
  end.

(** Well-formed numbers: the values binary64 can hold. *)
Definition valid (a : num) : bool := valid_binary prec emax a.

End Num.

Import Num.

(** ** Results of code that may throw *)

Inductive Res (A : Type) : Type :=
| Ok (a : A)
| TypeError
| OutOfFuel.
Arguments Ok {A} a.
Arguments TypeError {A}.
Arguments OutOfFuel {A}.

Definition res_bind {A B : Type} (f : A -> Res B) (r : Res A) : Res B :=
  match r with
  | Ok a => f a
  | TypeError => TypeError
  | OutOfFuel => OutOfFuel
  end.

#[export] Instance res_ret : MRet Res := fun A a => Ok a.
#[export] Instance res_mbind : MBind Res := fun A B f r => res_bind f r.

(** Reading through a value that may be [undefined] or [null]. *)
Definition defined {A : Type} (o : option A) : Res A :=
  match o with
  | Some a => Ok a
  | None => TypeError
  end.

(** ** The entities *)

Abbreviation Color := (list num).

Module Triangle.
Record t : Type := mk { x : num; y : num; size : num; color : Color }.

Definition set_x (v : num) (o : t) : t := mk v (y o) (size o) (color o).
Definition set_y (v : num) (o : t) : t := mk (x o) v (size o) (color o).
Definition set_color (c : Color) (o : t) : t := mk (x o) (y o) (size o) c.

(** [Triangle.update] (and [GameObject.update]) has an empty body. *)
Definition update (o : t) : t := o.
End Triangle.

(** Object references and the heap of triangles. *)
Abbreviation loc := nat.
Abbreviation Heap := (list Triangle.t).

Definition deref (h : Heap) (r : loc) : Res Triangle.t := defined (h !! r).

(** [c[i] === v] for an array of numbers [c]. *)
Definition elt_is (c : Color) (i : nat) (v : num) : bool :=
  match c !! i with
  | Some a => eqb a v
  | None => false
  end.

(** The test [c[0] === 1 && c[1] === 0 && c[2] === 0] that the source
    writes three times. *)
Definition is_red (c : Color) : bool :=
  elt_is c 0 (of_Z 1) && elt_is c 1 (of_Z 0) && elt_is c 2 (of_Z 0).

Definition red : Color := [of_Z 1; of_Z 0; of_Z 0; of_Z 1].
Definition green : Color := [of_Z 0; of_Z 1; of_Z 0; of_Z 1].
Definition blue : Color := [of_Z 0; of_Z 0; of_Z 1; of_Z 1].
Definition yellow : Color := [of_Z 1; of_Z 1; of_Z 0; of_Z 1].
Definition magenta : Color := [of_Z 1; of_Z 0; of_Z 1; of_Z 1].
Definition cyan : Color := [of_Z 0; of_Z 1; of_Z 1; of_Z 1].

(** ** The world *)

Inductive GameState : Type := playing | won | lost.

#[export] Instance GameState_eq_dec : EqDecision GameState.
Proof. solve_decision. Defined.

Record GameModel : Type := mkGameModel {
  canvasWidth : num;
  canvasHeight : num;
  heap : Heap;
  gameObjects : list loc;
  gameState : GameState;
  score : num;
  colors : list Color;
  keys : gmap string bool;
  player : option loc
}.

Definition set_heap (h : Heap) (m : GameModel) : GameModel :=
  mkGameModel (canvasWidth m) (canvasHeight m) h (gameObjects m)
    (gameState m) (score m) (colors m) (keys m) (player m).
Definition set_gameObjects (l : list loc) (m : GameModel) : GameModel :=
  mkGameModel (canvasWidth m) (canvasHeight m) (heap m) l
    (gameState m) (score m) (colors m) (keys m) (player m).
Definition set_gameState (s : GameState) (m : GameModel) : GameModel :=
  mkGameModel (canvasWidth m) (canvasHeight m) (heap m) (gameObjects m)
    s (score m) (colors m) (keys m) (player m).
Definition set_score (v : num) (m : GameModel) : GameModel :=
  mkGameModel (canvasWidth m) (canvasHeight m) (heap m) (gameObjects m)
    (gameState m) v (colors m) (keys m) (player m).
Definition set_keys (k : gmap string bool) (m : GameModel) : GameModel :=
  mkGameModel (canvasWidth m) (canvasHeight m) (heap m) (gameObjects m)
    (gameState m) (score m) (colors m) k (player m).
Definition set_player (p : option loc) (m : GameModel) : GameModel :=
  mkGameModel (canvasWidth m) (canvasHeight m) (heap m) (gameObjects m)
    (gameState m) (score m) (colors m) (keys m) p.

(** The palette the constructor stores in [this.colors]. *)
Definition palette : list Color := [red; green; blue; yellow; magenta; cyan].

(** *** createGameObjects *)

(** [new Triangle(x, y, size, color)] followed by [this.gameObjects.push]. *)
Definition push_triangle (o : Triangle.t) (m : GameModel) : GameModel :=
  set_gameObjects (gameObjects m ++ [length (heap m)])
    (set_heap (heap m ++ [o]) m).

(** [Math.random() * (2 - 2 * padding) - (1 - padding)] for a draw [r]. *)
Definition random_position (r padding : num) : num :=
  sub (mul r (sub (of_Z 2) (mul (of_Z 2) padding))) (sub (of_Z 1) padding).

(** First loop: [n] more red triangles; [k] counts the calls of
    [Math.random] made so far. *)
Fixpoint red_triangles (rand : nat -> num) (size padding : num)
    (n k : nat) (m : GameModel) : GameModel * nat :=
  match n with
  | O => (m, k)
  | S n' =>
      let x := random_position (rand k) padding in
      let y := random_position (rand (S k)) padding in
      red_triangles rand size padding n' (S (S k))
        (push_triangle (Triangle.mk x y size red) m)
  end.

(** The [while] loop that draws again as long as the colour is red. The
    variable [color] may hold [undefined], on which [color[0]] throws. *)
Fixpoint redraw (rand : nat -> num) (cols : list Color) (fuel k : nat)
    (color : option Color) : Res (Color * nat) :=
  c ← defined color;
  if is_red c then
    match fuel with
    | O => OutOfFuel
    | S fuel' =>
        let len := of_Z (Z.of_nat (length cols)) in
        redraw rand cols fuel' (S k)
          (array_get cols
             (add (floor (mul (rand k) (sub len (of_Z 1)))) (of_Z 1)))
    end
  else Ok (c, k).

(** Second loop: [n] more triangles of a colour that is not red. *)
Fixpoint other_triangles (rand : nat -> num) (size padding : num)
    (fuel n k : nat) (m : GameModel) : Res (GameModel * nat) :=
  match n with
  | O => Ok (m, k)
  | S n' =>
      let x := random_position (rand k) padding in
      let y := random_position (rand (S k)) padding in
      let len := of_Z (Z.of_nat (length (colors m))) in
      let color := array_get (colors m) (floor (mul (rand (S (S k))) len)) in
      '(c, k') ← redraw rand (colors m) fuel (S (S (S k))) color;
      other_triangles rand size padding fuel n' k'
        (push_triangle (Triangle.mk x y size c) m)
  end.

Definition createGameObjects (rand : nat -> num) (fuel k : nat)
    (m : GameModel) : Res (GameModel * nat) :=
  let m := set_gameObjects [] m in
  let size := lit_0_1 in
  let padding := size in
  let '(m, k) := red_triangles rand size padding 3 k m in
  '(m, k) ← other_triangles rand size padding fuel 7 k m;
  (* this.player = this.gameObjects[0]; this.player.color = [0, 1, 0, 1] *)
  let m := set_player (gameObjects m !! 0%nat) m in
  p ← defined (player m);
  o ← deref (heap m) p;
  Ok (set_heap (<[p := Triangle.set_color green o]> (heap m)) m, k).

(** The constructor, and [initializeGame]. *)
Definition constructor (rand : nat -> num) (fuel k : nat)
    (canvasWidth canvasHeight : num) : Res (GameModel * nat) :=
  createGameObjects rand fuel k
    (mkGameModel canvasWidth canvasHeight [] [] playing (of_Z 0) palette ∅ None).

Definition initializeGame (rand : nat -> num) (fuel k : nat)
    (m : GameModel) : Res (GameModel * nat) :=
  createGameObjects rand fuel k (set_score (of_Z 0) (set_gameState playing m)).

(** *** Keys *)

(** The names [Object.prototype] defines. [this.keys] is a plain object
    and inherits them. *)
Definition object_prototype_names : list string :=
  ["constructor"; "hasOwnProperty"; "isPrototypeOf"; "propertyIsEnumerable";
   "toLocaleString"; "toString"; "valueOf"; "__proto__";
   "__defineGetter__"; "__defineSetter__"; "__lookupGetter__";
   "__lookupSetter__"].

(** [this.keys[key] = v] for a boolean [v]. The map [keys] holds the own
    properties of the object. A write to [__proto__] goes to the setter
    that [Object.prototype] defines for it, which ignores a value that is
    not an object: no own property is made. *)
Definition assign_key (key : string) (v : bool) (m : GameModel) : GameModel :=
  if decide (key = "__proto__") then m
  else set_keys (<[key := v]> (keys m)) m.

Definition handleKeyDown (key : string) (m : GameModel) : GameModel :=
  assign_key key true m.

Definition handleKeyUp (key : string) (m : GameModel) : GameModel :=
  assign_key key false m.

(** [this.keys[k]] used as a condition. An own property reads as its
    value. A name that is not an own property reads as what
    [Object.prototype] holds for it, a function or an object, which is
    truthy, and as [undefined], which is falsy, if it holds nothing. *)
Definition pressed (m : GameModel) (k : string) : bool :=
  match keys m !! k with
  | Some b => b
  | None => bool_decide (k ∈ object_prototype_names)
  end.

(** *** updatePlayer *)

(** The step of a move, the literal [0.01]. *)
Definition step : num := lit_0_01.

(** The four guarded assignments, in source order, on the player object.
    Each guard reads the coordinate as the previous assignments left it. *)
Definition move (up down left right : bool) (o : Triangle.t) : Triangle.t :=
  let size := Triangle.size o in
  let o := if up && ltb (Triangle.y o) (sub (of_Z 1) size)
           then Triangle.set_y (add (Triangle.y o) step) o else o in
  let o := if down && ltb (add (neg (of_Z 1)) size) (Triangle.y o)
           then Triangle.set_y (sub (Triangle.y o) step) o else o in
  let o := if left && ltb (add (neg (of_Z 1)) size) (Triangle.x o)
           then Triangle.set_x (sub (Triangle.x o) step) o else o in
  let o := if right && ltb (Triangle.x o) (sub (of_Z 1) size)
           then Triangle.set_x (add (Triangle.x o) step) o else o in
  o.

Definition updatePlayer (m : GameModel) : Res GameModel :=
  p ← defined (player m);
  o ← deref (heap m) p;
  let o' := move (pressed m "ArrowUp") (pressed m "ArrowDown")
                 (pressed m "ArrowLeft") (pressed m "ArrowRight") o in
  Ok (set_heap (<[p := o']> (heap m)) m).

(** *** Collisions *)

Definition isColliding (triangle1 triangle2 : Triangle.t) : bool :=
  let dx := sub (Triangle.x triangle1) (Triangle.x triangle2) in
  let dy := sub (Triangle.y triangle1) (Triangle.y triangle2) in
  let distance := sqrt (add (mul dx dx) (mul dy dy)) in
  let size := mul (div (sqrt (of_Z 3)) (of_Z 2)) (Triangle.size triangle1) in
  ltb distance size.

(** [arr.indexOf(r)]: the first position holding the reference [r];
    [None] stands for [-1]. *)
Fixpoint indexOf (r : loc) (arr : list loc) : option nat :=
  match arr with
  | [] => None
  | r' :: arr' =>
      if decide (r' = r) then Some 0%nat else S <$> indexOf r arr'
  end.

(** [triangle === this.player]. *)
Definition is_player (m : GameModel) (r : loc) : bool :=
  bool_decide (player m = Some r).

Definition handleCollision (triangle1 triangle2 : loc) (m : GameModel)
    : Res GameModel :=
  if is_player m triangle1 || is_player m triangle2 then
    let otherTriangle :=
      if is_player m triangle1 then triangle2 else triangle1 in
    o ← deref (heap m) otherTriangle;
    if is_red (Triangle.color o) then
      Ok (set_gameState lost m)
    else
      let m := set_score (add (score m) (of_Z 10)) m in
      match indexOf otherTriangle (gameObjects m) with
      | Some index => Ok (set_gameObjects (delete index (gameObjects m)) m)
      | None => Ok m
      end
  else Ok m.

(** The nested [for] loops over index pairs [i < j]. Both bounds are
    re-read from the state at every test, so the loops are written over an
    arbitrary state with a length; [checkCollisions] instantiates them on
    the model, and [checkCollisions_log] on the model paired with the log
    of the pairs handed to [isColliding]. *)
Section PairLoops.
Context {St : Type} (len : St -> nat) (body : nat -> nat -> St -> Res St).

Fixpoint inner_loop (fuel i j : nat) (s : St) : Res St :=
  if (j <? len s)%nat then
    match fuel with
    | O => OutOfFuel
    | S fuel' => s' ← body i j s; inner_loop fuel' i (S j) s'
    end
  else Ok s.

Fixpoint outer_loop (fuel i : nat) (s : St) : Res St :=
  if (i <? len s)%nat then
    match fuel with
    | O => OutOfFuel
    | S fuel' =>
        s' ← inner_loop (len s) i (S i) s; outer_loop fuel' (S i) s'
    end
  else Ok s.
End PairLoops.

(** The body of the inner loop. *)
Definition collide (i j : nat) (m : GameModel) : Res GameModel :=
  r1 ← defined (gameObjects m !! i);
  r2 ← defined (gameObjects m !! j);
  o1 ← deref (heap m) r1;
  o2 ← deref (heap m) r2;
  if isColliding o1 o2 then handleCollision r1 r2 m else Ok m.

Definition nobjects (m : GameModel) : nat := length (gameObjects m).

Definition checkCollisions (m : GameModel) : Res GameModel :=
  outer_loop nobjects collide (nobjects m) 0 m.

(** The same pass, recording every pair of references whose distance is
    computed. The log is not part of the program. *)
Definition collide_log (i j : nat) (s : GameModel * list (loc * loc))
    : Res (GameModel * list (loc * loc)) :=
  r1 ← defined (gameObjects s.1 !! i);
  r2 ← defined (gameObjects s.1 !! j);
  m' ← collide i j s.1;
  Ok (m', s.2 ++ [(r1, r2)]).

Definition checkCollisions_log (m : GameModel)
    : Res (GameModel * list (loc * loc)) :=
  outer_loop (fun s => nobjects s.1) collide_log (nobjects m) 0 (m, []).

(** *** checkGameOver *)

(** The predicate of the [filter]: the object's colour is not red. *)
Definition not_red (h : Heap) (r : loc) : Res bool :=
  o ← deref h r; Ok (negb (is_red (Triangle.color o))).

Fixpoint filter_objects (h : Heap) (arr : list loc) : Res (list loc) :=
  match arr with
  | [] => Ok []
  | r :: arr' =>
      b ← not_red h r;
      rest ← filter_objects h arr';
      Ok (if b : bool then r :: rest else rest)
  end.

Definition checkGameOver (m : GameModel) : Res GameModel :=
  nonRedTriangles ← filter_objects (heap m) (gameObjects m);
  if decide (length nonRedTriangles = 1%nat) then Ok (set_gameState won m)
  else Ok m.

(** *** update *)

(** [for (let obj of this.gameObjects) obj.update()]. *)
Fixpoint update_objects (arr : list loc) (h : Heap) : Res Heap :=
  match arr with
  | [] => Ok h
  | r :: arr' =>
      o ← deref h r;
      update_objects arr' (<[r := Triangle.update o]> h)
  end.

Definition update (m : GameModel) : Res GameModel :=
  m ← updatePlayer m;
  h ← update_objects (gameObjects m) (heap m);
  m ← checkCollisions (set_heap h m);
  checkGameOver m.

(** ** The loop driver *)

Record GameController : Type := mkGameController {
  model : GameModel;
  startTime : Z;
  gameDuration : Z
}.

(** What a tick does last: ask for the next animation frame, or call
    [endGame], which shows one of two messages. *)
Inductive Alert : Type := Congratulations | GameOver.
Inductive Next : Type := requestAnimationFrame | endGame (a : Alert).

Definition end_game (m : GameModel) : Alert :=
  if decide (gameState m = won) then Congratulations else GameOver.

(** [now] is the value of [Date.now()], a whole number of milliseconds.
    The calls to the view ([displayTimer], [render]) do not touch the
    model and are left out. *)
Definition gameLoop (now : Z) (c : GameController)
    : Res (GameController * Next) :=
  let elapsedTime := now - startTime c in
  let remainingTime := Z.max 0 (gameDuration c - elapsedTime) in
  let m := if remainingTime <=? 0 then set_gameState lost (model c)
           else model c in
  m ← update m;
  let c := mkGameController m (startTime c) (gameDuration c) in
  if decide (gameState m = playing) then Ok (c, requestAnimationFrame)
  else Ok (c, endGame (end_game m)).

(** [startGame]: [now0] is the clock when the round starts, [now1] the
    clock read by the first tick. *)
Definition startGame (rand : nat -> num) (fuel k : nat) (now0 now1 : Z)
    (c : GameController) : Res (GameController * Next) :=
  '(m, _) ← initializeGame rand fuel k (model c);
  gameLoop now1 (mkGameController m now0 (1 * 60 * 1000)).

(** The two listeners that [setupEventListeners] registers. *)
Module Controller.
Definition with_model (m : GameModel) (c : GameController) : GameController :=
  mkGameController m (startTime c) (gameDuration c).

Definition handleKeyDown (key : string) (c : GameController) : GameController :=
  with_model (handleKeyDown key (model c)) c.

Definition handleKeyUp (key : string) (c : GameController) : GameController :=
  with_model (handleKeyUp key (model c)) c.
End Controller.

(** What the host delivers to the controller during a round: key events,
    and animation frames with the clock value they read. *)
Inductive Event : Type :=
| KeyDown (key : string)
| KeyUp (key : string)
| Frame (now : Z).

Definition dispatch (e : Event) (c : GameController) : Res GameController :=
  match e with
  | KeyDown key => Ok (Controller.handleKeyDown key c)
  | KeyUp key => Ok (Controller.handleKeyUp key c)
  | Frame now => '(c', _) ← gameLoop now c; Ok c'
  end.

Fixpoint run (events : list Event) (c : GameController) : Res GameController :=
  match events with
  | [] => Ok c
  | e :: events' => c' ← dispatch e c; run events' c'
  end.

(** * Specification-side definitions *)

Definition rnd_q (m n : Z) : Z :=
  let q := m / 2 ^ n in
  match 2 * (m mod 2 ^ n) ?= 2 ^ n with
  | Lt => q
  | Eq => if Z.even q then q else q + 1
  | Gt => q + 1
  end.

(* invariant of n right shifts starting from an exact record *)
Definition shr_inv (m0 : Z) (n : nat) (rec : shr_record) : Prop :=
  exists u, 0 <= u < 2 ^ Z.of_nat n /\
    2 * m0 = 2 * shr_m rec * 2 ^ Z.of_nat n + Z.b2z (shr_r rec) * 2 ^ Z.of_nat n + u /\
    (shr_s rec = false <-> u = 0) /\ 0 <= shr_m rec /\ (n = 0%nat -> shr_r rec = false).

Definition float_of_rounded (s : bool) (q e : Z) : spec_float :=
  if q =? 0 then S754_zero s
  else if q <? 2 ^ 53 then
    (if e <=? 971 then S754_finite s (Z.to_pos q) e else S754_infinity s)
  else
    (if e + 1 <=? 971 then S754_finite s (Z.to_pos (q / 2)) (e + 1)
     else S754_infinity s).

Definition R (K A : Z) : Z :=
  let e' := Z.max (Z.log2 A + 1 - K - 53) (-1074) in
  rnd_q A (e' + K) * 2 ^ (e' + 1074).

Definition inf_mag : Z := 2 ^ 2098.

Definition mag (a : num) : Z :=
  match a with
  | S754_finite _ m e => Zpos m * 2 ^ (e + 1074)
  | S754_infinity _ => inf_mag
  | _ => 0
  end.

Definition sign_of (a : num) : bool :=
  match a with
  | S754_zero s | S754_infinity s | S754_finite s _ _ => s
  | S754_nan => false
  end.

Definition val (a : num) : Z := if sign_of a then - mag a else mag a.

Definition is_nan (a : num) : bool :=
  match a with S754_nan => true | _ => false end.

Definition is_finite (a : num) : bool :=
  match a with S754_zero _ | S754_finite _ _ _ => true | _ => false end.

Definition RV (K A : Z) : Z :=
  if A =? 0 then 0
  else if 0 <? A then Z.min (R K A) inf_mag
  else - Z.min (R K (- A)) inf_mag.

(** A finite binary64 value: neither NaN nor an infinity. *)
Definition finite (a : num) : bool := valid a && is_finite a.

(** What [Math.random] promises: a finite number in [0, 1). *)
Definition random_ok (r : num) : bool :=
  finite r && leb (of_Z 0) r && ltb r (of_Z 1).

(** [-1 + size <= v && v <= 1 - size], as the engine evaluates it. *)
Definition in_bounds (size v : num) : bool :=
  leb (add (neg (of_Z 1)) size) v && leb v (sub (of_Z 1) size).

(** The largest number below 1. *)
Definition pred_one : num := S754_finite false 9007199254740991 (-53).

(** The bounds of the movement guards, widened by one step. *)
Definition hi_bound : num := add (sub (of_Z 1) lit_0_1) step.
Definition lo_bound : num := sub (add (neg (of_Z 1)) lit_0_1) step.

(** [lo_bound <= v && v <= hi_bound] for a finite [v]. *)
Definition coord_ok (v : num) : bool :=
  finite v && leb lo_bound v && leb v hi_bound.

(** ** Well-formed worlds *)

(** Every reference of the collection points into the heap. *)
Definition refs_ok (m : GameModel) : Prop :=
  Forall (fun r => (r < length (heap m))%nat) (gameObjects m).

Definition wf (m : GameModel) : Prop :=
  refs_ok m /\ exists p, player m = Some p /\ (p < length (heap m))%nat.

(** The colour of the object a reference points to. *)
Definition color_of (h : Heap) (r : loc) : Color :=
  match h !! r with
  | Some o => Triangle.color o
  | None => []
  end.

(** The references of the collection whose object is not red: what the
    [filter] of [checkGameOver] keeps. *)
Definition non_red (m : GameModel) : list loc :=
  filter (fun r => is_red (color_of (heap m) r) = false) (gameObjects m).

(** The hazards among a list of references. *)
Definition hazards (h : Heap) (l : list loc) : list loc :=
  filter (fun r => is_red (color_of h r) = true) l.

(** Opaque green, component by component, as [is_red] tests red. *)
Definition is_green (c : Color) : bool :=
  elt_is c 0 (of_Z 0) && elt_is c 1 (of_Z 1) && elt_is c 2 (of_Z 0) &&
  elt_is c 3 (of_Z 1).

(** The references of the collection whose colour is opaque green. *)
Definition greens (m : GameModel) : list loc :=
  filter (fun r => is_green (color_of (heap m) r) = true) (gameObjects m).

(** The invariant of a round: the player is the first element of the
    collection and occurs once, it is green, of the fixed size, and its
    coordinates are finite numbers inside the widened bounds. *)
Definition round_inv (m : GameModel) : Prop :=
  exists p rest o,
    player m = Some p /\ gameObjects m = p :: rest /\ NoDup (p :: rest) /\
    refs_ok m /\ heap m !! p = Some o /\
    Triangle.color o = green /\ Triangle.size o = lit_0_1 /\
    coord_ok (Triangle.x o) = true /\ coord_ok (Triangle.y o) = true.

(** What the spawn policy promises of an entity: the fixed size and a
    finite position inside the padded bounds. *)
Definition spawned_ok (o : Triangle.t) : Prop :=
  Triangle.size o = lit_0_1 /\
  finite (Triangle.x o) = true /\ finite (Triangle.y o) = true /\
  in_bounds lit_0_1 (Triangle.x o) = true /\
  in_bounds lit_0_1 (Triangle.y o) = true.

(** Two results agree up to the log. *)
Definition erase (r : Res (GameModel * list (loc * loc))) : Res GameModel :=
  match r with
  | Ok s => Ok s.1
  | TypeError => TypeError
  | OutOfFuel => OutOfFuel
  end.

(** The entity a handled pair is resolved against: the one of the two
    that is not tested first as the player. *)
Definition other_of (m : GameModel) (r1 r2 : loc) : loc :=
  if is_player m r1 then r2 else r1.

(** What handling one colliding pair does to the world. *)
Inductive collision_effect (m : GameModel) (r1 r2 : loc) : GameModel -> Prop :=
| effect_none :
    is_player m r1 || is_player m r2 = false ->
    collision_effect m r1 r2 m
| effect_lost o :
    is_player m r1 || is_player m r2 = true ->
    heap m !! other_of m r1 r2 = Some o ->
    is_red (Triangle.color o) = true ->
    collision_effect m r1 r2 (set_gameState lost m)
| effect_collected o index :
    is_player m r1 || is_player m r2 = true ->
    heap m !! other_of m r1 r2 = Some o ->
    is_red (Triangle.color o) = false ->
    indexOf (other_of m r1 r2) (gameObjects m) = Some index ->
    collision_effect m r1 r2
      (set_gameObjects (delete index (gameObjects m))
         (set_score (add (score m) (of_Z 10)) m))
| effect_scored o :
    is_player m r1 || is_player m r2 = true ->
    heap m !! other_of m r1 r2 = Some o ->
    is_red (Triangle.color o) = false ->
    indexOf (other_of m r1 r2) (gameObjects m) = None ->
    collision_effect m r1 r2 (set_score (add (score m) (of_Z 10)) m).

(** What one iteration of the inner loop does. *)
Inductive pair_effect (m : GameModel) (i j : nat) (m' : GameModel) : Prop :=
| pair_miss r1 r2 o1 o2 :
    gameObjects m !! i = Some r1 -> gameObjects m !! j = Some r2 ->
    heap m !! r1 = Some o1 -> heap m !! r2 = Some o2 ->
    isColliding o1 o2 = false -> m' = m -> pair_effect m i j m'
| pair_hit r1 r2 o1 o2 :
    gameObjects m !! i = Some r1 -> gameObjects m !! j = Some r2 ->
    heap m !! r1 = Some o1 -> heap m !! r2 = Some o2 ->
    isColliding o1 o2 = true -> collision_effect m r1 r2 m' ->
    pair_effect m i j m'.

(** What the pass leaves alone, relative to the world it started from. *)
Definition pass_frame (m0 m : GameModel) : Prop :=
  refs_ok m /\ heap m = heap m0 /\ player m = player m0 /\
  colors m = colors m0 /\ keys m = keys m0 /\
  gameObjects m `sublist_of` gameObjects m0 /\
  (gameState m = gameState m0 \/ gameState m = lost).

(** The player heads the collection and occurs in it once. *)
Definition player_first (m : GameModel) : Prop :=
  refs_ok m /\ NoDup (gameObjects m) /\
  exists p rest, player m = Some p /\ gameObjects m = p :: rest.

(** The world after [updatePlayer]. *)
Definition moved (m : GameModel) (p : loc) (o : Triangle.t) : GameModel :=
  set_heap (<[p := move (pressed m "ArrowUp") (pressed m "ArrowDown")
                    (pressed m "ArrowLeft") (pressed m "ArrowRight") o]>
              (heap m)) m.

(** The world after [checkGameOver]. *)
Definition judged (m : GameModel) : GameModel :=
  if decide (length (non_red m) = 1%nat) then set_gameState won m else m.

(** What the creation loops leave alone, and how they extend the heap and
    the collection: [ts] are the new triangles, in order. *)
Definition extends (m m' : GameModel) (ts : list Triangle.t) : Prop :=
  heap m' = heap m ++ ts /\
  gameObjects m' = gameObjects m ++ seq (length (heap m)) (length ts) /\
  gameState m' = gameState m /\ score m' = score m /\ colors m' = colors m /\
  keys m' = keys m /\ player m' = player m /\
  canvasWidth m' = canvasWidth m /\ canvasHeight m' = canvasHeight m.

(** The contract of [Math.random], for every call. *)
Definition random_source (rand : nat -> num) : Prop :=
  forall k, random_ok (rand k) = true.

(** The world [m'] that [createGameObjects] makes of [m]: ten new
    triangles, the first recoloured green and made the player, then two red
    ones, then seven of another colour. *)
Definition spawned (m m' : GameModel) : Prop :=
  exists t0 r1 r2 cs,
    heap m' = heap m ++ Triangle.set_color green t0 :: r1 :: r2 :: cs /\
    gameObjects m' = seq (length (heap m)) 10 /\
    player m' = Some (length (heap m)) /\ length cs = 7%nat /\
    spawned_ok t0 /\
    (spawned_ok r1 /\ Triangle.color r1 = red) /\
    (spawned_ok r2 /\ Triangle.color r2 = red) /\
    Forall (fun o => spawned_ok o /\ is_red (Triangle.color o) = false) cs /\
    gameState m' = gameState m /\ score m' = score m /\
    colors m' = colors m /\ keys m' = keys m.

(** What the pass keeps once LOST is set: LOST itself, and the red
    entities of the world [m0] it started from. *)
Definition lost_kept (m0 m : GameModel) : Prop :=
  refs_ok m /\ heap m = heap m0 /\ player m = player m0 /\
  gameState m = lost /\
  forall r, r ∈ gameObjects m0 -> is_red (color_of (heap m0) r) = true ->
            r ∈ gameObjects m.

(** The same before LOST is set. *)
Definition red_kept (m0 m : GameModel) : Prop :=
  refs_ok m /\ heap m = heap m0 /\ player m = player m0 /\
  forall r, r ∈ gameObjects m0 -> is_red (color_of (heap m0) r) = true ->
            r ∈ gameObjects m.


(** ** Worlds and inputs used in the examples *)

(** An entity of the fixed size. *)
Definition entity (x y : num) (c : Color) : Triangle.t :=
  Triangle.mk x y lit_0_1 c.

(** A world in play on the 800 by 700 canvas of the page, whose collection
    lists the whole heap in order and whose player is the first object. *)
Definition world (h : Heap) : GameModel :=
  mkGameModel (of_Z 800) (of_Z 700) h (seq 0 (length h)) playing (of_Z 0)
    palette ∅ (Some 0%nat).

(** The literals [0.5], [0.0625], [0.895] and [0.25]. *)
Definition lit_0_5 : num := div (of_Z 1) (of_Z 2).
Definition lit_0_0625 : num := div (of_Z 1) (of_Z 16).
Definition lit_0_895 : num := div (of_Z 895) (of_Z 1000).
Definition lit_0_25 : num := div (of_Z 1) (of_Z 4).

(** The player on top of the last collectible, both hazards far away. *)
Definition last_collectible_world : GameModel :=
  world [entity (of_Z 0) (of_Z 0) green;
         entity lit_0_5 lit_0_5 red;
         entity (neg lit_0_5) lit_0_5 red;
         entity (of_Z 0) (of_Z 0) blue].

(** The player within reach of a hazard and of the last collectible. *)
Definition hazard_and_collectible_world : GameModel :=
  world [entity (of_Z 0) (of_Z 0) green;
         entity (of_Z 0) lit_0_0625 red;
         entity lit_0_5 lit_0_5 red;
         entity lit_0_0625 (of_Z 0) blue].

(** The player just below the upper bound, [ArrowUp] held. *)
Definition near_top_world : GameModel :=
  handleKeyDown "ArrowUp"
    (world [entity (of_Z 0) lit_0_895 green;
            entity lit_0_5 (neg lit_0_5) red;
            entity (neg lit_0_5) (neg lit_0_5) red;
            entity (of_Z 0) (of_Z 0) blue]).

(** The player on top of two collectibles that follow each other. *)
Definition two_collectibles_world : GameModel :=
  world [entity (of_Z 0) (of_Z 0) green;
         entity lit_0_5 lit_0_5 red;
         entity (neg lit_0_5) lit_0_5 red;
         entity (of_Z 0) (of_Z 0) blue;
         entity (of_Z 0) (of_Z 0) yellow].



(** Sources of random numbers that always return the same value. *)
Definition always (r : num) : nat -> num := fun _ => r.

(** The world before the constructor calls [createGameObjects]. *)
Definition blank_world : GameModel :=
  mkGameModel (of_Z 800) (of_Z 700) [] [] playing (of_Z 0) palette ∅ None.

(** ** What a round keeps, and what a pass does *)

(** The statement [this.score += 10]. *)
Definition add_ten (s : num) : num := add s (of_Z 10).

(** What every event of a round leaves alone, relative to the world [m]
    it started from: the player reference, the number of objects ever
    created, and of each object its size and colour; an object that is
    not the player keeps its position as well. *)
Definition same_entities (m m' : GameModel) : Prop :=
  player m' = player m /\ length (heap m') = length (heap m) /\
  forall r o, heap m !! r = Some o ->
    exists o', heap m' !! r = Some o' /\
      Triangle.size o' = Triangle.size o /\
      Triangle.color o' = Triangle.color o /\
      (player m <> Some r -> o' = o).

(** The collection only loses entities, and none that is red. *)
Definition hazards_kept (m m' : GameModel) : Prop :=
  gameObjects m' `sublist_of` gameObjects m /\
  forall r, r ∈ gameObjects m -> is_red (color_of (heap m) r) = true ->
            r ∈ gameObjects m'.

(** The score after a pass that started in [m0]: ten for each entity
    that left the collection. *)
Definition score_tracks (m0 m : GameModel) : Prop :=
  refs_ok m /\ (nobjects m <= nobjects m0)%nat /\
  score m = Nat.iter (nobjects m0 - nobjects m) add_ten (score m0).

(** A colliding pair of the collection one of whose members is the player
    and whose other member is red. *)
Definition player_hits_hazard (m : GameModel) : Prop :=
  exists r1 r2 o1 o2,
    r1 ∈ gameObjects m /\ r2 ∈ gameObjects m /\
    heap m !! r1 = Some o1 /\ heap m !! r2 = Some o2 /\
    isColliding o1 o2 = true /\
    is_player m r1 || is_player m r2 = true /\
    is_red (color_of (heap m) (other_of m r1 r2)) = true.

(** The state after a pass that started in [m0] is the one before it, or
    LOST because the player hit a hazard. *)
Definition state_kept_or_hit (m0 m : GameModel) : Prop :=
  refs_ok m /\ heap m = heap m0 /\ player m = player m0 /\
  gameObjects m `sublist_of` gameObjects m0 /\
  (gameState m = gameState m0 \/
   gameState m = lost /\ player_hits_hazard m0).

(** No pair of the collection that collides holds the player. *)
Definition player_untouched (m : GameModel) : Prop :=
  forall i j r1 r2 o1 o2,
    (i < j)%nat ->
    gameObjects m !! i = Some r1 -> gameObjects m !! j = Some r2 ->
    heap m !! r1 = Some o1 -> heap m !! r2 = Some o2 ->
    isColliding o1 o2 = true ->
    is_player m r1 || is_player m r2 = false.

(** The same as a test: [f] holds of every pair of elements of [l] taken
    in the order of the list. *)
Fixpoint all_pairs {A : Type} (f : A -> A -> bool) (l : list A) : bool :=
  match l with
  | [] => true
  | a :: l' => forallb (f a) l' && all_pairs f l'
  end.

Definition untouched_pair (m : GameModel) (r1 r2 : loc) : bool :=
  match heap m !! r1, heap m !! r2 with
  | Some o1, Some o2 =>
      negb (isColliding o1 o2) || negb (is_player m r1 || is_player m r2)
  | _, _ => true
  end.

(** None of the four keys that [updatePlayer] reads is held. *)
Definition no_arrow (m : GameModel) : Prop :=
  pressed m "ArrowUp" = false /\ pressed m "ArrowDown" = false /\
  pressed m "ArrowLeft" = false /\ pressed m "ArrowRight" = false.

(** The invariant of the score in a round of ten entities. *)
Definition score_inv (m : GameModel) : Prop :=
  round_inv m /\
  exists n : nat, (nobjects m + n = 10)%nat /\ score m = of_Z (10 * Z.of_nat n).

(** Two hazards on top of each other, the player and two collectibles
    apart from everything. *)
Definition overlapping_hazards_world : GameModel :=
  world [entity (of_Z 0) (of_Z 0) green;
         entity lit_0_5 lit_0_5 red;
         entity lit_0_5 lit_0_5 red;
         entity (neg lit_0_5) lit_0_5 blue;
         entity (neg lit_0_5) (neg lit_0_5) yellow].

(** * Properties of binary64 arithmetic *)

Lemma digits2_pos_bounds (m : positive) :
  2 ^ (Zpos (digits2_pos m) - 1) <= Zpos m < 2 ^ Zpos (digits2_pos m).
Proof.
  induction m as [p IH|p IH|]; cbn [digits2_pos].
  - rewrite Pos2Z.inj_succ, Z.pow_succ_r by lia.
    replace (Z.succ (Z.pos (digits2_pos p)) - 1) with (Z.succ (Z.pos (digits2_pos p) - 1)) by lia.
    rewrite Z.pow_succ_r by lia. lia.
  - rewrite Pos2Z.inj_succ, Z.pow_succ_r by lia.
    replace (Z.succ (Z.pos (digits2_pos p)) - 1) with (Z.succ (Z.pos (digits2_pos p) - 1)) by lia.
    rewrite Z.pow_succ_r by lia. lia.
  - cbn. lia.
Qed.

Lemma digits2_pos_log2 (m : positive) :
  Zpos (digits2_pos m) = Z.log2 (Zpos m) + 1.
Proof.
  pose proof (digits2_pos_bounds m) as H.
  symmetry. rewrite (Z.log2_unique (Zpos m) (Zpos (digits2_pos m) - 1)); [lia | lia |].
  replace (Z.succ (Z.pos (digits2_pos m) - 1)) with (Z.pos (digits2_pos m)) by lia. exact H.
Qed.

Lemma shr_1_nonneg (m : Z) (r s : bool) :
  0 <= m ->
  shr_1 (Build_shr_record m r s) = Build_shr_record (Z.div2 m) (Z.odd m) (r || s).
Proof.
  intros Hm. destruct m as [|[p|p|]|p]; try reflexivity. lia.
Qed.

Lemma iter_pos_nat {A : Type} (f : A -> A) (p : positive) (a : A) :
  SpecFloat.iter_pos f p a = Nat.iter (Pos.to_nat p) f a.
Proof.
  revert a. induction p as [p IH|p IH|]; intros a; cbn [SpecFloat.iter_pos].
  - rewrite !IH.
    replace (Pos.to_nat p~1) with (Pos.to_nat p + S (Pos.to_nat p))%nat by lia.
    rewrite Nat.iter_add, Nat.iter_succ_r. reflexivity.
  - rewrite !IH.
    replace (Pos.to_nat p~0) with (Pos.to_nat p + Pos.to_nat p)%nat by lia.
    rewrite Nat.iter_add. reflexivity.
  - reflexivity.
Qed.

Lemma shr_inv_step (m0 : Z) (n : nat) (rec : shr_record) :
  shr_inv m0 n rec -> shr_inv m0 (S n) (shr_1 rec).
Proof.
  intros (u & Hu & Heq & Hs & Hq & _).
  destruct rec as [q r s]. cbn [shr_m shr_r shr_s] in *.
  rewrite shr_1_nonneg by exact Hq. unfold shr_inv. cbn [shr_m shr_r shr_s].
  rewrite Nat2Z.inj_succ, Z.pow_succ_r by lia.
  set (h := 2 ^ Z.of_nat n) in *.
  assert (0 < h) by (apply Z.pow_pos_nonneg; lia).
  exists (Z.b2z r * h + u).
  pose proof (Zdiv2_odd_eqn q) as Hq2.
  assert (0 <= Z.div2 q) by (rewrite Z.div2_nonneg; lia).
  assert (Hs' : (r || s = false) <-> Z.b2z r * h + u = 0).
  { assert (Hu0 : s = false -> u = 0) by apply Hs.
    assert (Hu1 : u = 0 -> s = false) by apply Hs.
    destruct r, s; cbn [orb Z.b2z]; split; intros E; try discriminate; try reflexivity; try lia. }
  repeat split; try apply Hs'; try lia.
  all: destruct r; destruct (Z.odd q); cbn [Z.b2z] in *; try nia.
Qed.

Lemma shr_iter_spec (m0 : Z) (n : nat) :
  0 <= m0 -> shr_inv m0 n (Nat.iter n shr_1 (Build_shr_record m0 false false)).
Proof.
  intros Hm. induction n as [|n IH].
  - exists 0. cbn. repeat split; lia.
  - change (Nat.iter (S n) shr_1 ?x) with (shr_1 (Nat.iter n shr_1 x)).
    apply shr_inv_step, IH.
Qed.

Lemma shr_inv_round (m0 : Z) (n : nat) (rec : shr_record) :
  shr_inv m0 n rec ->
  round_nearest_even (shr_m rec) (loc_of_shr_record rec) = rnd_q m0 (Z.of_nat n).
Proof.
  intros (u & Hu & Heq & Hs & Hq & Hr0).
  destruct rec as [q r s]. cbn [shr_m shr_r shr_s] in *.
  unfold rnd_q. set (h := 2 ^ Z.of_nat n) in *.
  assert (Hh : 0 < h) by (apply Z.pow_pos_nonneg; lia).
  assert (Hrem : 0 <= m0 - q * h < h) by (destruct r; cbn [Z.b2z] in Heq; lia).
  assert (Hdiv : m0 / h = q) by (symmetry; apply (Z.div_unique m0 h q (m0 - q * h)); lia).
  assert (Hmod : m0 mod h = m0 - q * h) by (symmetry; apply (Z.mod_unique m0 h q (m0 - q * h)); lia).
  rewrite Hdiv, Hmod.
  assert (Hu0 : s = false -> u = 0) by apply Hs.
  assert (Hu1 : u = 0 -> s = false) by apply Hs.
  destruct r, s; cbn [Z.b2z loc_of_shr_record round_nearest_even] in *.
  - assert (u <> 0) by (intros E; specialize (Hu1 E); discriminate).
    replace (2 * (m0 - q * h) ?= h) with Gt; [reflexivity|]. symmetry. apply Z.compare_gt_iff. lia.
  - specialize (Hu0 eq_refl).
    replace (2 * (m0 - q * h) ?= h) with Eq; [reflexivity|]. symmetry. apply Z.compare_eq_iff. lia.
  - replace (2 * (m0 - q * h) ?= h) with Lt; [reflexivity|]. symmetry. apply Z.compare_lt_iff. lia.
  - replace (2 * (m0 - q * h) ?= h) with Lt; [reflexivity|]. symmetry. apply Z.compare_lt_iff. lia.
Qed.

Lemma shr_exact_spec (m0 e n : Z) :
  0 <= m0 -> 0 <= n ->
  exists rec, shr (Build_shr_record m0 false false) e n = (rec, e + n) /\
    round_nearest_even (shr_m rec) (loc_of_shr_record rec) = rnd_q m0 n /\
    shr_m rec = m0 / 2 ^ n.
Proof.
  intros Hm Hn. destruct n as [|p|p]; [| |lia].
  - exists (Build_shr_record m0 false false). cbn [shr shr_m]. rewrite Z.add_0_r.
    repeat split. + unfold rnd_q. cbn. rewrite Z.div_1_r, Z.mod_1_r. reflexivity.
    + cbn. rewrite Z.div_1_r. reflexivity.
  - cbn [shr]. rewrite iter_pos_nat.
    pose proof (shr_iter_spec m0 (Pos.to_nat p) Hm) as Hinv.
    eexists; split; [reflexivity|].
    rewrite (shr_inv_round _ _ _ Hinv). rewrite positive_nat_Z. split; [reflexivity|].
    destruct Hinv as (u & Hu & Heq & Hs & Hq & Hr0).
    rewrite positive_nat_Z in *.
    set (rec := Nat.iter _ _ _) in *. set (h := 2 ^ Z.pos p) in *.
    assert (Hh : 0 < h) by (apply Z.pow_pos_nonneg; lia).
    apply (Z.div_unique m0 h (shr_m rec) (m0 - shr_m rec * h)); destruct (shr_r rec); cbn [Z.b2z] in Heq; lia.
Qed.

Lemma fexp_unfold (e : Z) : SpecFloat.fexp prec emax e = Z.max (e - 53) (-1074).
Proof. reflexivity. Qed.

Lemma shr_nonpos (rec : shr_record) (e n : Z) : n <= 0 -> shr rec e n = (rec, e).
Proof. intros Hn. destruct n; try reflexivity. lia. Qed.

Lemma pow2_lt_inv (a b : Z) : 0 <= b -> 2 ^ a < 2 ^ b -> a < b.
Proof. intros Hb H. apply (Z.pow_lt_mono_r_iff 2); lia. Qed.

Lemma pow2_le (a b : Z) : 0 <= a <= b -> 2 ^ a <= 2 ^ b.
Proof. intros H. apply Z.pow_le_mono_r; lia. Qed.

Lemma pow2_pos (a : Z) : 0 <= a -> 0 < 2 ^ a.
Proof. intros H. apply Z.pow_pos_nonneg; lia. Qed.

Lemma rnd_q_bounds (m n : Z) :
  0 <= m -> 0 <= n -> m / 2 ^ n <= rnd_q m n <= m / 2 ^ n + 1.
Proof.
  intros Hm Hn. unfold rnd_q.
  destruct (2 * (m mod 2 ^ n) ?= 2 ^ n); [destruct (Z.even _)| |]; lia.
Qed.

Lemma div_pow2_lt (m n d : Z) :
  0 <= n -> 0 <= d -> 0 <= m < 2 ^ (n + d) -> m / 2 ^ n < 2 ^ d.
Proof.
  intros Hn Hd Hm. apply Z.div_lt_upper_bound; [apply pow2_pos; lia|].
  rewrite <- Z.pow_add_r by lia. lia.
Qed.

Lemma binary_round_aux_spec (s : bool) (m : positive) (e : Z) :
  let e' := SpecFloat.fexp prec emax (Zpos (digits2_pos m) + e) in
  e <= e' ->
  binary_round_aux prec emax s (Zpos m) e loc_Exact =
  float_of_rounded s (rnd_q (Zpos m) (e' - e)) e'.
Proof.
  intros e' He. unfold binary_round_aux, shr_fexp.
  cbn [shr_record_of_loc Zdigits2]. fold e'.
  destruct (shr_exact_spec (Zpos m) e (e' - e)) as (rec & Hshr & Hrnd & _); [lia|lia|].
  rewrite Hshr. replace (e + (e' - e)) with e' by lia. rewrite Hrnd.
  set (q' := rnd_q (Zpos m) (e' - e)).
  pose proof (digits2_pos_bounds m) as Hd.
  assert (He' : -1074 <= e' /\ Zpos (digits2_pos m) + e - 53 <= e')
    by (subst e'; rewrite fexp_unfold; lia).
  assert (Hq : 0 <= q' <= 2 ^ 53).
  { pose proof (rnd_q_bounds (Zpos m) (e' - e) ltac:(lia) ltac:(lia)) as Hb. fold q' in Hb.
    assert (Z.pos m / 2 ^ (e' - e) < 2 ^ 53).
    { apply div_pow2_lt; try lia. split; [lia|].
      eapply Z.lt_le_trans; [apply Hd|]. apply pow2_le. lia. }
    assert (0 <= Z.pos m / 2 ^ (e' - e)) by (apply Z.div_pos; [lia|apply pow2_pos; lia]).
    lia. }
  unfold float_of_rounded.
  destruct (Z.eqb_spec q' 0) as [Hq0|Hq0].
  - rewrite Hq0. cbn [Zdigits2]. rewrite shr_nonpos by (rewrite fexp_unfold; lia).
    reflexivity.
  - destruct (Z.ltb_spec q' (2 ^ 53)) as [Hlt|Hge].
    + destruct q' as [|p|p] eqn:Eq'; [lia| |lia]. cbn [Zdigits2].
      pose proof (digits2_pos_bounds p) as Hdp.
      assert (Zpos (digits2_pos p) - 1 < 53) by (apply pow2_lt_inv; lia).
      rewrite shr_nonpos by (rewrite fexp_unfold; lia).
      cbn [shr_m]. reflexivity.
    + assert (Hq53 : q' = 2 ^ 53) by lia. rewrite Hq53.
      change (Zdigits2 (2 ^ 53)) with 54.
      replace (SpecFloat.fexp prec emax (54 + e') - e') with 1 by (rewrite fexp_unfold; lia).
      destruct (shr_exact_spec (2 ^ 53) e' 1) as (rec2 & Hshr2 & _ & Hm2); [lia|lia|].
      rewrite Hshr2, Hm2. reflexivity.
Qed.

Lemma rnd_q_scale (m n a : Z) :
  0 <= n -> 0 <= a -> rnd_q (m * 2 ^ a) (n + a) = rnd_q m n.
Proof.
  intros Hn Ha. unfold rnd_q.
  assert (0 < 2 ^ a) by (apply pow2_pos; lia).
  assert (0 < 2 ^ n) by (apply pow2_pos; lia).
  rewrite Z.pow_add_r by lia.
  rewrite Z.div_mul_cancel_r by lia.
  rewrite Z.mul_mod_distr_r by lia.
  rewrite Z.mul_assoc, <- Zmult_compare_compat_r by lia. reflexivity.
Qed.

Lemma rnd_q_mono (A1 A2 g : Z) :
  0 <= g -> 0 <= A1 <= A2 -> rnd_q A1 g <= rnd_q A2 g.
Proof.
  intros Hg HA.
  assert (HG : 0 < 2 ^ g) by (apply pow2_pos; lia).
  pose proof (Z.div_le_mono A1 A2 (2 ^ g) HG ltac:(lia)) as Hq.
  pose proof (rnd_q_bounds A1 g ltac:(lia) Hg) as H1.
  pose proof (rnd_q_bounds A2 g ltac:(lia) Hg) as H2.
  destruct (Z.eq_dec (A1 / 2 ^ g) (A2 / 2 ^ g)) as [E|NE]; [|lia].
  pose proof (Z.div_mod A1 (2 ^ g) ltac:(lia)) as D1.
  pose proof (Z.div_mod A2 (2 ^ g) ltac:(lia)) as D2.
  assert (Hr : A1 mod 2 ^ g <= A2 mod 2 ^ g) by (rewrite E in D1; lia).
  unfold rnd_q. rewrite E.
  destruct (Z.compare_spec (2 * (A1 mod 2 ^ g)) (2 ^ g));
    destruct (Z.compare_spec (2 * (A2 mod 2 ^ g)) (2 ^ g));
    destruct (Z.even (A2 / 2 ^ g)); lia.
Qed.

Lemma log2_pow2_le (A : Z) : 0 < A -> 2 ^ Z.log2 A <= A < 2 ^ (Z.log2 A + 1).
Proof. intros H. pose proof (Z.log2_spec A H). unfold Z.succ in *. lia. Qed.

Lemma rnd_q_R_upper (K A : Z) :
  1074 <= K -> 0 < A ->
  let e' := Z.max (Z.log2 A + 1 - K - 53) (-1074) in
  0 <= rnd_q A (e' + K) <= 2 ^ 53.
Proof.
  intros HK HA e'.
  pose proof (log2_pow2_le A HA) as HL. pose proof (Z.log2_nonneg A).
  pose proof (rnd_q_bounds A (e' + K) ltac:(lia) ltac:(lia)) as Hb.
  assert (A / 2 ^ (e' + K) < 2 ^ 53).
  { apply div_pow2_lt; try lia. split; [lia|].
    eapply Z.lt_le_trans; [apply HL|]. apply pow2_le. lia. }
  assert (0 <= A / 2 ^ (e' + K)) by (apply Z.div_pos; [lia|apply pow2_pos; lia]).
  lia.
Qed.

Lemma rnd_q_R_lower (K A : Z) :
  1074 <= K -> 0 < A ->
  let e' := Z.max (Z.log2 A + 1 - K - 53) (-1074) in
  -1074 < e' -> 2 ^ 52 <= rnd_q A (e' + K).
Proof.
  intros HK HA e' He.
  pose proof (log2_pow2_le A HA) as HL. pose proof (Z.log2_nonneg A).
  pose proof (rnd_q_bounds A (e' + K) ltac:(lia) ltac:(lia)) as Hb.
  assert (2 ^ 52 <= A / 2 ^ (e' + K)); [|lia].
  apply Z.div_le_lower_bound; [apply pow2_pos; lia|].
  rewrite <- Z.pow_add_r by lia.
  eapply Z.le_trans; [|apply HL]. apply pow2_le. lia.
Qed.

Lemma R_nonneg (K A : Z) : 1074 <= K -> 0 < A -> 0 <= R K A.
Proof.
  intros HK HA. unfold R.
  pose proof (rnd_q_R_upper K A HK HA) as Hq. cbn zeta in Hq.
  apply Z.mul_nonneg_nonneg; [lia|]. apply Z.lt_le_incl, pow2_pos. lia.
Qed.

Lemma R_mono (K A1 A2 : Z) :
  1074 <= K -> 0 < A1 <= A2 -> R K A1 <= R K A2.
Proof.
  intros HK HA. unfold R.
  pose proof (Z.log2_le_mono A1 A2 ltac:(lia)) as HL.
  set (e1 := Z.max (Z.log2 A1 + 1 - K - 53) (-1074)).
  set (e2 := Z.max (Z.log2 A2 + 1 - K - 53) (-1074)).
  assert (He : e1 <= e2) by lia.
  destruct (Z.eq_dec e1 e2) as [E|NE].
  - rewrite E. apply Z.mul_le_mono_nonneg_r; [apply Z.lt_le_incl, pow2_pos; lia|].
    apply rnd_q_mono; lia.
  - pose proof (rnd_q_R_upper K A1 HK ltac:(lia)) as Hu. cbn zeta in Hu. fold e1 in Hu.
    pose proof (rnd_q_R_lower K A2 HK ltac:(lia)) as Hl. cbn zeta in Hl. fold e2 in Hl.
    specialize (Hl ltac:(lia)).
    assert (H1 : rnd_q A1 (e1 + K) * 2 ^ (e1 + 1074) <= 2 ^ 53 * 2 ^ (e1 + 1074)).
    { apply Z.mul_le_mono_nonneg_r; [apply Z.lt_le_incl, pow2_pos; lia|lia]. }
    assert (H2 : 2 ^ 52 * 2 ^ (e2 + 1074) <= rnd_q A2 (e2 + K) * 2 ^ (e2 + 1074)).
    { apply Z.mul_le_mono_nonneg_r; [apply Z.lt_le_incl, pow2_pos; lia|lia]. }
    rewrite <- Z.pow_add_r in H1, H2 by lia.
    assert (2 ^ (53 + (e1 + 1074)) <= 2 ^ (52 + (e2 + 1074))) by (apply pow2_le; lia).
    lia.
Qed.

Lemma digits2_pos_unique (p : positive) (d : Z) :
  2 ^ (d - 1) <= Zpos p < 2 ^ d -> Zpos (digits2_pos p) = d.
Proof.
  intros H. pose proof (digits2_pos_bounds p) as Hp.
  assert (0 < d).
  { destruct (Z.ltb_spec 0 d); [lia|]. exfalso.
    destruct (Z.eq_dec d 0) as [->|]; [cbn in H; lia|].
    rewrite (Z.pow_neg_r 2 d) in H by lia. lia. }
  assert (d - 1 < Zpos (digits2_pos p)) by (apply pow2_lt_inv; lia).
  assert (Zpos (digits2_pos p) - 1 < d) by (apply pow2_lt_inv; lia).
  lia.
Qed.

Lemma pow2_split (a b : Z) : 0 <= a -> 0 <= b -> 2 ^ (a + b) = 2 ^ a * 2 ^ b.
Proof. intros. apply Z.pow_add_r; lia. Qed.

Lemma float_of_rounded_props (s : bool) (q e' : Z) :
  0 <= q <= 2 ^ 53 -> -1074 <= e' -> (-1074 < e' -> 2 ^ 52 <= q) ->
  let a := float_of_rounded s q e' in
  mag a = Z.min (q * 2 ^ (e' + 1074)) inf_mag /\
  valid a = true /\ sign_of a = s /\ is_nan a = false.
Proof.
  intros Hq He Hn a. subst a. unfold float_of_rounded, inf_mag.
  assert (HP : 0 < 2 ^ (e' + 1074)) by (apply pow2_pos; lia).
  destruct (Z.eqb_spec q 0) as [Hq0|Hq0].
  { subst q. cbn [mag valid valid_binary sign_of is_nan].
    rewrite Z.mul_0_l. rewrite Z.min_l by (apply Z.lt_le_incl, pow2_pos; lia).
    repeat split; try reflexivity; try (intros Hc; contradiction). }
  destruct (Z.ltb_spec q (2 ^ 53)) as [Hlt|Hge].
  - destruct (Z.leb_spec e' 971) as [Hle|Hgt].
    + cbn [mag valid valid_binary sign_of is_nan]. rewrite Z2Pos.id by lia.
      assert (Hb : q * 2 ^ (e' + 1074) < 2 ^ 2098).
      { eapply Z.lt_le_trans; [apply Z.mul_lt_mono_pos_r; [exact HP|exact Hlt]|].
        rewrite <- Z.pow_add_r by lia. apply pow2_le. lia. }
      rewrite Z.min_l by lia. repeat split; try reflexivity.
      unfold bounded, canonical_mantissa. apply andb_true_intro. split; [|apply Z.leb_le; unfold emax, prec; lia].
      apply Z.eqb_eq. rewrite fexp_unfold.
      destruct (Z.eq_dec e' (-1074)) as [->|Hne].
      * pose proof (digits2_pos_bounds (Z.to_pos q)) as Hd. rewrite Z2Pos.id in Hd by lia.
        assert (Zpos (digits2_pos (Z.to_pos q)) - 1 < 53) by (apply pow2_lt_inv; lia). lia.
      * rewrite (digits2_pos_unique (Z.to_pos q) 53); [lia|]. rewrite Z2Pos.id by lia.
        split; [apply Hn; lia|exact Hlt].
    + cbn [mag valid valid_binary sign_of is_nan]. unfold inf_mag.
      assert (Hb : 2 ^ 2098 <= q * 2 ^ (e' + 1074)).
      { eapply Z.le_trans; [|apply Z.mul_le_mono_nonneg_r; [lia|apply Hn; lia]].
        rewrite <- Z.pow_add_r by lia. apply pow2_le. lia. }
      rewrite Z.min_r by lia. repeat split; reflexivity.
  - assert (Hq53 : q = 2 ^ 53) by lia. subst q.
    change (2 ^ 53 / 2) with (2 ^ 52). change (Z.to_pos (2 ^ 52)) with 4503599627370496%positive.
    rewrite <- Z.pow_add_r by lia.
    destruct (Z.leb_spec (e' + 1) 971) as [Hle|Hgt].
    + cbn [mag valid valid_binary sign_of is_nan].
      change (Z.pos 4503599627370496) with (2 ^ 52). rewrite <- Z.pow_add_r by lia.
      replace (52 + (e' + 1 + 1074)) with (53 + (e' + 1074)) by lia.
      assert (Hb : 2 ^ (53 + (e' + 1074)) < 2 ^ 2098) by (apply Z.pow_lt_mono_r; lia).
      rewrite Z.min_l by lia. repeat split; try reflexivity.
      unfold bounded, canonical_mantissa. apply andb_true_intro. split; [|apply Z.leb_le; unfold emax, prec; lia].
      apply Z.eqb_eq. rewrite fexp_unfold.
      change (Z.pos (digits2_pos 4503599627370496)) with 53. lia.
    + cbn [mag valid valid_binary sign_of is_nan]. unfold inf_mag.
      assert (Hb : 2 ^ 2098 <= 2 ^ (53 + (e' + 1074))) by (apply pow2_le; lia).
      rewrite Z.min_r by lia. repeat split; reflexivity.
Qed.

Lemma log2_mul_pow2 (m a : Z) : 0 < m -> 0 <= a -> Z.log2 (m * 2 ^ a) = Z.log2 m + a.
Proof. intros Hm Ha. rewrite Z.log2_mul_pow2 by lia. lia. Qed.

Lemma binary_round_aux_R (K : Z) (s : bool) (m : positive) (e : Z) :
  1074 <= K -> - K <= e ->
  e <= SpecFloat.fexp prec emax (Zpos (digits2_pos m) + e) ->
  let a := binary_round_aux prec emax s (Zpos m) e loc_Exact in
  mag a = Z.min (R K (Zpos m * 2 ^ (e + K))) inf_mag /\
  valid a = true /\ sign_of a = s /\ is_nan a = false.
Proof.
  intros HK He Hpre a. subst a.
  rewrite binary_round_aux_spec by exact Hpre.
  rewrite fexp_unfold in *. rewrite digits2_pos_log2 in *.
  set (e' := Z.max (Z.log2 (Z.pos m) + 1 + e - 53) (-1074)) in *.
  assert (HA : 0 < Zpos m * 2 ^ (e + K)) by (apply Z.mul_pos_pos; [lia|apply pow2_pos; lia]).
  assert (He' : Z.max (Z.log2 (Zpos m * 2 ^ (e + K)) + 1 - K - 53) (-1074) = e').
  { rewrite log2_mul_pow2 by lia. subst e'. lia. }
  assert (Hq : rnd_q (Zpos m * 2 ^ (e + K)) (e' + K) = rnd_q (Zpos m) (e' - e)).
  { replace (e' + K) with ((e' - e) + (e + K)) by lia. apply rnd_q_scale; lia. }
  pose proof (rnd_q_R_upper K _ HK HA) as Hu. cbn zeta in Hu. rewrite He', Hq in Hu.
  pose proof (rnd_q_R_lower K _ HK HA) as Hl. cbn zeta in Hl. rewrite He', Hq in Hl.
  destruct (float_of_rounded_props s (rnd_q (Zpos m) (e' - e)) e' Hu ltac:(lia) Hl)
    as (Hmag & Hval & Hsign & Hnan).
  repeat split; try assumption.
  rewrite Hmag. unfold R. rewrite He', Hq. reflexivity.
Qed.

Lemma pos_iter_xO (m d : positive) : Zpos (Pos.iter xO m d) = Zpos m * 2 ^ Zpos d.
Proof.
  revert m. induction d as [|d IH] using Pos.peano_ind; intros m.
  - cbn. lia.
  - rewrite Pos.iter_succ. rewrite Pos2Z.inj_succ, Z.pow_succ_r by lia.
    rewrite Pos2Z.inj_xO, IH. lia.
Qed.

Lemma binary_round_R (K : Z) (s : bool) (m : positive) (e : Z) :
  1074 <= K -> - K <= e ->
  let a := binary_round prec emax s m e in
  mag a = Z.min (R K (Zpos m * 2 ^ (e + K))) inf_mag /\
  valid a = true /\ sign_of a = s /\ is_nan a = false.
Proof.
  intros HK He a. subst a. unfold binary_round, shl_align.
  set (e' := SpecFloat.fexp prec emax (Z.pos (digits2_pos m) + e)).
  assert (He' : e' = Z.max (Z.pos (digits2_pos m) + e - 53) (-1074)) by (subst e'; apply fexp_unfold).
  destruct (e' - e) as [|d|d] eqn:Ed.
  - apply binary_round_aux_R; try assumption. fold e'. lia.
  - apply binary_round_aux_R; try assumption. fold e'. lia.
  - assert (Hd : Zpos d = e - e') by lia.
    assert (Hm : Zpos (Pos.iter xO m d) * 2 ^ (e' + K) = Zpos m * 2 ^ (e + K)).
    { rewrite pos_iter_xO, Hd, <- Z.mul_assoc, <- Z.pow_add_r by lia. f_equal. f_equal. lia. }
    rewrite <- Hm. apply binary_round_aux_R; try lia.
    rewrite fexp_unfold, !digits2_pos_log2, pos_iter_xO.
    rewrite log2_mul_pow2 by lia. rewrite digits2_pos_log2 in He'. lia.
Qed.

Lemma RV_pos (K A : Z) : 0 < A -> RV K A = Z.min (R K A) inf_mag.
Proof.
  intros H. unfold RV. destruct (Z.eqb_spec A 0); [lia|].
  destruct (Z.ltb_spec 0 A); [reflexivity|lia].
Qed.

Lemma RV_neg (K A : Z) : A < 0 -> RV K A = - Z.min (R K (- A)) inf_mag.
Proof.
  intros H. unfold RV. destruct (Z.eqb_spec A 0); [lia|].
  destruct (Z.ltb_spec 0 A); [lia|reflexivity].
Qed.

Lemma binary_normalize_RV (K S e : Z) :
  1074 <= K -> - K <= e ->
  let a := binary_normalize prec emax S e false in
  val a = RV K (S * 2 ^ (e + K)) /\ valid a = true /\ is_nan a = false.
Proof.
  intros HK He a. subst a.
  assert (HP : 0 < 2 ^ (e + K)) by (apply pow2_pos; lia).
  destruct S as [|m|m]; cbn [binary_normalize].
  - cbn. repeat split; reflexivity.
  - destruct (binary_round_R K false m e HK He) as (Hmag & Hval & Hs & Hn).
    repeat split; try assumption.
    unfold val. rewrite Hs, Hmag. rewrite RV_pos by lia. reflexivity.
  - destruct (binary_round_R K true m e HK He) as (Hmag & Hval & Hs & Hn).
    repeat split; try assumption.
    unfold val. rewrite Hs, Hmag. rewrite RV_neg by lia.
    replace (- (Z.neg m * 2 ^ (e + K))) with (Zpos m * 2 ^ (e + K)) by lia. reflexivity.
Qed.

Lemma RV_0 (K : Z) : RV K 0 = 0.
Proof. reflexivity. Qed.

Lemma inf_mag_pos : 0 < inf_mag.
Proof. unfold inf_mag. apply pow2_pos. lia. Qed.

Lemma RV_mono (K A1 A2 : Z) : 1074 <= K -> A1 <= A2 -> RV K A1 <= RV K A2.
Proof.
  intros HK HA. pose proof inf_mag_pos as HI.
  destruct (Z.lt_trichotomy A1 0) as [H1|[H1|H1]];
  destruct (Z.lt_trichotomy A2 0) as [H2|[H2|H2]]; try lia.
  - rewrite !RV_neg by lia.
    pose proof (R_mono K (- A2) (- A1) HK ltac:(lia)). lia.
  - rewrite RV_neg by lia. subst A2. rewrite RV_0.
    pose proof (R_nonneg K (- A1) HK ltac:(lia)). lia.
  - rewrite RV_neg, RV_pos by lia.
    pose proof (R_nonneg K (- A1) HK ltac:(lia)).
    pose proof (R_nonneg K A2 HK ltac:(lia)). lia.
  - subst. lia.
  - subst A1. rewrite RV_0. rewrite RV_pos by lia.
    pose proof (R_nonneg K A2 HK ltac:(lia)). lia.
  - rewrite !RV_pos by lia.
    pose proof (R_mono K A1 A2 HK ltac:(lia)). lia.
Qed.

Lemma bounded_inv (m : positive) (e : Z) :
  bounded prec emax m e = true ->
  -1074 <= e <= 971 /\ Zpos m < 2 ^ 53 /\ (-1074 < e -> 2 ^ 52 <= Zpos m) /\
  Z.max (Z.log2 (Zpos m) + 1 + e - 53) (-1074) = e.
Proof.
  unfold bounded, canonical_mantissa. intros H.
  apply andb_prop in H. destruct H as [Hc He].
  apply Z.eqb_eq in Hc. apply Z.leb_le in He. unfold emax, prec in He.
  rewrite fexp_unfold in Hc. pose proof (digits2_pos_bounds m) as Hd.
  rewrite digits2_pos_log2 in *. pose proof (Z.log2_nonneg (Zpos m)).
  repeat split; try lia.
  - eapply Z.lt_le_trans; [apply Hd|]. apply pow2_le. lia.
  - intros Hlt. eapply Z.le_trans; [|apply Hd]. apply pow2_le. lia.
Qed.

Lemma mag_finite_lt (s : bool) (m : positive) (e : Z) :
  bounded prec emax m e = true -> 0 < mag (S754_finite s m e) < inf_mag.
Proof.
  intros H. apply bounded_inv in H. destruct H as (He & Hm & _ & _).
  cbn [mag]. unfold inf_mag.
  assert (HP : 0 < 2 ^ (e + 1074)) by (apply pow2_pos; lia).
  split; [apply Z.mul_pos_pos; lia|].
  eapply Z.lt_le_trans; [apply Z.mul_lt_mono_pos_r; [exact HP|exact Hm]|].
  rewrite <- Z.pow_add_r by lia. apply pow2_le. lia.
Qed.

Lemma mag_compare (m1 m2 : positive) (e1 e2 : Z) :
  bounded prec emax m1 e1 = true -> bounded prec emax m2 e2 = true ->
  match e1 ?= e2 with
  | Lt => Lt
  | Gt => Gt
  | Eq => Pos.compare_cont Eq m1 m2
  end = (Zpos m1 * 2 ^ (e1 + 1074) ?= Zpos m2 * 2 ^ (e2 + 1074)).
Proof.
  intros H1 H2. apply bounded_inv in H1, H2.
  destruct H1 as (He1 & Hm1 & Hn1 & _). destruct H2 as (He2 & Hm2 & Hn2 & _).
  assert (HP1 : 0 < 2 ^ (e1 + 1074)) by (apply pow2_pos; lia).
  assert (HP2 : 0 < 2 ^ (e2 + 1074)) by (apply pow2_pos; lia).
  destruct (Z.compare_spec e1 e2) as [E|L|G].
  - subst e2. change (Pos.compare_cont Eq m1 m2) with (Zpos m1 ?= Zpos m2).
    apply Zmult_compare_compat_r. lia.
  - symmetry. apply Z.compare_lt_iff.
    assert (Zpos m1 * 2 ^ (e1 + 1074) < 2 ^ 53 * 2 ^ (e1 + 1074))
      by (apply Z.mul_lt_mono_pos_r; lia).
    assert (2 ^ 52 * 2 ^ (e2 + 1074) <= Zpos m2 * 2 ^ (e2 + 1074))
      by (apply Z.mul_le_mono_nonneg_r; lia).
    assert (2 ^ (53 + (e1 + 1074)) <= 2 ^ (52 + (e2 + 1074))) by (apply pow2_le; lia).
    rewrite (Z.pow_add_r 2 53), (Z.pow_add_r 2 52) in * by lia. lia.
  - symmetry. apply Z.compare_gt_iff.
    assert (Zpos m2 * 2 ^ (e2 + 1074) < 2 ^ 53 * 2 ^ (e2 + 1074))
      by (apply Z.mul_lt_mono_pos_r; lia).
    assert (2 ^ 52 * 2 ^ (e1 + 1074) <= Zpos m1 * 2 ^ (e1 + 1074))
      by (apply Z.mul_le_mono_nonneg_r; lia).
    assert (2 ^ (53 + (e2 + 1074)) <= 2 ^ (52 + (e1 + 1074))) by (apply pow2_le; lia).
    rewrite (Z.pow_add_r 2 53), (Z.pow_add_r 2 52) in * by lia. lia.
Qed.

Lemma compare_val (a b : num) :
  valid a = true -> valid b = true -> is_nan a = false -> is_nan b = false ->
  SFcompare a b = Some (val a ?= val b).
Proof.
  intros Ha Hb Na Nb. pose proof inf_mag_pos as HI.
  destruct a as [sa|sa| |sa ma ea]; try discriminate;
  destruct b as [sb|sb| |sb mb eb]; try discriminate;
  unfold valid in *; cbn [valid_binary] in *;
  try (pose proof (mag_finite_lt sa ma ea Ha) as Hma; cbn [mag] in Hma);
  try (pose proof (mag_finite_lt sb mb eb Hb) as Hmb; cbn [mag] in Hmb);
  unfold val; cbn [SFcompare sign_of mag].
  all: try (destruct sa, sb; f_equal; symmetry;
            first [apply Z.compare_eq_iff; lia | apply Z.compare_lt_iff; lia
                  | apply Z.compare_gt_iff; lia]).
  all: try (destruct sa; f_equal; symmetry;
            first [apply Z.compare_eq_iff; lia | apply Z.compare_lt_iff; lia
                  | apply Z.compare_gt_iff; lia]).
  all: try (destruct sb; f_equal; symmetry;
            first [apply Z.compare_eq_iff; lia | apply Z.compare_lt_iff; lia
                  | apply Z.compare_gt_iff; lia]).
  pose proof (mag_compare ma mb ea eb Ha Hb) as Hc.
  destruct sa, sb; f_equal.
  - rewrite Z.compare_opp.
    rewrite (Z.compare_antisym (Z.pos ma * 2 ^ (ea + 1074))), <- Hc.
    destruct (ea ?= eb); reflexivity.
  - symmetry. apply Z.compare_lt_iff. lia.
  - symmetry. apply Z.compare_gt_iff. lia.
  - exact Hc.
Qed.

Lemma rnd_q_exact (m : Z) : rnd_q m 0 = m.
Proof. unfold rnd_q. cbn. rewrite Z.div_1_r, Z.mod_1_r. reflexivity. Qed.

Lemma R_float (K : Z) (m : positive) (e : Z) :
  1074 <= K -> bounded prec emax m e = true ->
  R K (Zpos m * 2 ^ (e + K)) = Zpos m * 2 ^ (e + 1074).
Proof.
  intros HK Hb. apply bounded_inv in Hb. destruct Hb as (He & _ & _ & Hc).
  unfold R. rewrite log2_mul_pow2 by lia.
  replace (Z.max (Z.log2 (Z.pos m) + (e + K) + 1 - K - 53) (-1074)) with e by lia.
  replace (e + K) with (0 + (e + K)) at 2 by lia.
  rewrite rnd_q_scale by lia. rewrite rnd_q_exact. reflexivity.
Qed.

(** Rounding leaves the binary64 values where they are. *)
Lemma RV_float (K : Z) (a : num) :
  1074 <= K -> valid a = true -> is_finite a = true ->
  RV K (val a * 2 ^ (K - 1074)) = val a.
Proof.
  intros HK Hv Hf. destruct a as [s|s| |s m e]; try discriminate.
  - unfold val; cbn [mag sign_of]. destruct s; reflexivity.
  - unfold valid in Hv. cbn [valid_binary] in Hv.
    pose proof (mag_finite_lt s m e Hv) as Hm. cbn [mag] in Hm.
    pose proof (R_float K m e HK Hv) as HR.
    pose proof (bounded_inv m e Hv) as (He & _).
    assert (HP : 0 < 2 ^ (K - 1074)) by (apply pow2_pos; lia).
    assert (Hs : Zpos m * 2 ^ (e + 1074) * 2 ^ (K - 1074) = Zpos m * 2 ^ (e + K)).
    { rewrite <- Z.mul_assoc, <- Z.pow_add_r by lia. do 2 f_equal. lia. }
    unfold val; cbn [mag sign_of]. destruct s.
    + rewrite RV_neg by nia.
      replace (- (- (Z.pos m * 2 ^ (e + 1074)) * 2 ^ (K - 1074)))
        with (Zpos m * 2 ^ (e + 1074) * 2 ^ (K - 1074)) by lia.
      rewrite Hs, HR. lia.
    + rewrite RV_pos by nia. rewrite Hs, HR. lia.
Qed.

Lemma shl_align_fst (m : positive) (e ez : Z) :
  ez <= e -> -1074 <= ez ->
  Zpos (fst (shl_align m e ez)) * 2 ^ (ez + 1074) = Zpos m * 2 ^ (e + 1074).
Proof.
  intros Hle Hz. unfold shl_align. destruct (ez - e) as [|d|d] eqn:Ed; cbn [fst].
  - replace ez with e by lia. reflexivity.
  - lia.
  - rewrite pos_iter_xO, <- Z.mul_assoc, <- Z.pow_add_r by lia. do 2 f_equal. lia.
Qed.

Lemma cond_Zopp_mul (s : bool) (a b : Z) : cond_Zopp s a * b = cond_Zopp s (a * b).
Proof. destruct s; cbn; lia. Qed.

Lemma val_finite (s : bool) (m : positive) (e : Z) :
  val (S754_finite s m e) = cond_Zopp s (Zpos m * 2 ^ (e + 1074)).
Proof. unfold val. cbn [sign_of mag]. destruct s; reflexivity. Qed.

(** [a + b] is the exact sum, rounded. *)
Lemma add_val (a b : num) :
  valid a = true -> valid b = true -> is_finite a = true -> is_finite b = true ->
  val (add a b) = RV 1074 (val a + val b) /\
  valid (add a b) = true /\ is_nan (add a b) = false.
Proof.
  intros Va Vb Fa Fb.
  destruct a as [sa|sa| |sa ma ea]; try discriminate;
  destruct b as [sb|sb| |sb mb eb]; try discriminate.
  - destruct sa, sb; repeat split; reflexivity.
  - pose proof (RV_float 1074 _ ltac:(lia) Vb Fb) as H. rewrite Z.sub_diag, Z.mul_1_r in H.
    unfold add; cbn [SFadd]. rewrite <- H at 1.
    replace (val (S754_zero sa)) with 0 by (destruct sa; reflexivity).
    repeat split; try assumption; reflexivity.
  - pose proof (RV_float 1074 _ ltac:(lia) Va Fa) as H. rewrite Z.sub_diag, Z.mul_1_r in H.
    unfold add; cbn [SFadd]. rewrite <- H at 1.
    replace (val (S754_zero sb)) with 0 by (destruct sb; reflexivity).
    rewrite Z.add_0_r. repeat split; try assumption; reflexivity.
  - unfold valid in Va, Vb. cbn [valid_binary] in Va, Vb.
    pose proof (bounded_inv ma ea Va) as (Hea & _).
    pose proof (bounded_inv mb eb Vb) as (Heb & _).
    unfold add; cbn [SFadd].
    set (ez := Z.min ea eb).
    destruct (binary_normalize_RV 1074
                (cond_Zopp sa (Zpos (fst (shl_align ma ea ez))) +
                 cond_Zopp sb (Zpos (fst (shl_align mb eb ez)))) ez ltac:(lia) ltac:(lia))
      as (Hval & Hvalid & Hnan).
    repeat split; try assumption.
    rewrite Hval. f_equal. rewrite !val_finite.
    rewrite Z.mul_add_distr_r, !cond_Zopp_mul.
    rewrite !shl_align_fst by lia. reflexivity.
Qed.

Lemma valid_neg (a : num) : valid (neg a) = valid a.
Proof. destruct a; reflexivity. Qed.

Lemma val_neg (a : num) : val (neg a) = - val a.
Proof. destruct a as [[]|[]| |[] m e]; unfold val; cbn [neg SFopp sign_of negb mag]; lia. Qed.

Lemma is_finite_neg (a : num) : is_finite (neg a) = is_finite a.
Proof. destruct a; reflexivity. Qed.

Lemma sub_add_neg (a b : num) : sub a b = add a (neg b).
Proof.
  destruct a as [[]|[]| |[] ma ea], b as [[]|[]| |[] mb eb]; try reflexivity;
    unfold sub, add, neg; cbn [SFsub SFadd SFopp negb];
    f_equal; cbn [cond_Zopp]; lia.
Qed.

(** [a - b] is the exact difference, rounded. *)
Lemma sub_val (a b : num) :
  valid a = true -> valid b = true -> is_finite a = true -> is_finite b = true ->
  val (sub a b) = RV 1074 (val a - val b) /\
  valid (sub a b) = true /\ is_nan (sub a b) = false.
Proof.
  intros Va Vb Fa Fb. rewrite sub_add_neg.
  replace (val a - val b) with (val a + val (neg b)) by (rewrite val_neg; lia).
  apply add_val; try assumption.
  - rewrite valid_neg. exact Vb.
  - rewrite is_finite_neg. exact Fb.
Qed.

Lemma log2_ge_52 (a : Z) : 2 ^ 52 <= a -> 52 <= Z.log2 a.
Proof.
  intros H. change 52 with (Z.log2 (2 ^ 52)) at 1. apply Z.log2_le_mono. exact H.
Qed.

(** [a * b] is the exact product, rounded. *)
Lemma mul_val (a b : num) :
  valid a = true -> valid b = true -> is_finite a = true -> is_finite b = true ->
  val (mul a b) = RV 2148 (val a * val b) /\
  valid (mul a b) = true /\ is_nan (mul a b) = false.
Proof.
  intros Va Vb Fa Fb.
  destruct a as [sa|sa| |sa ma ea]; try discriminate;
  destruct b as [sb|sb| |sb mb eb]; try discriminate.
  - destruct sa, sb; repeat split; reflexivity.
  - unfold mul; cbn [SFmul]. replace (val (S754_zero sa)) with 0 by (destruct sa; reflexivity).
    rewrite Z.mul_0_l, RV_0. destruct sa, sb; repeat split; reflexivity.
  - unfold mul; cbn [SFmul]. replace (val (S754_zero sb)) with 0 by (destruct sb; reflexivity).
    rewrite Z.mul_0_r, RV_0. destruct sa, sb; repeat split; reflexivity.
  - unfold valid in Va, Vb. cbn [valid_binary] in Va, Vb.
    pose proof (bounded_inv ma ea Va) as (Hea & _ & Hna & _).
    pose proof (bounded_inv mb eb Vb) as (Heb & _ & Hnb & _).
    unfold mul; cbn [SFmul].
    destruct (binary_round_aux_R 2148 (xorb sa sb) (ma * mb) (ea + eb) ltac:(lia) ltac:(lia))
      as (Hmag & Hvalid & Hsign & Hnan).
    { rewrite fexp_unfold, digits2_pos_log2.
      destruct (Z.le_gt_cases (ea + eb) (-1074)) as [Hs|Hs]; [lia|].
      assert (52 <= Z.log2 (Zpos (ma * mb))); [|lia].
      rewrite Pos2Z.inj_mul. apply log2_ge_52.
      destruct (Z.le_gt_cases ea (-1074)).
      - specialize (Hnb ltac:(lia)).
        replace (2 ^ 52) with (1 * 2 ^ 52) by lia.
        apply Z.mul_le_mono_nonneg; lia.
      - specialize (Hna ltac:(lia)).
        replace (2 ^ 52) with (2 ^ 52 * 1) by lia.
        apply Z.mul_le_mono_nonneg; lia. }
    repeat split; try assumption.
    assert (HP : 0 < 2 ^ (ea + eb + 2148)) by (apply pow2_pos; lia).
    assert (Hprod : Zpos ma * 2 ^ (ea + 1074) * (Zpos mb * 2 ^ (eb + 1074))
                    = Zpos (ma * mb) * 2 ^ (ea + eb + 2148)).
    { rewrite Pos2Z.inj_mul.
      replace (ea + eb + 2148) with ((ea + 1074) + (eb + 1074)) by lia.
      rewrite (Z.pow_add_r 2 (ea + 1074) (eb + 1074)) by lia. ring. }
    unfold val at 1. rewrite Hsign, Hmag. rewrite !val_finite.
    destruct sa, sb; cbn [xorb cond_Zopp].
    + rewrite Z.mul_opp_opp, Hprod. rewrite RV_pos by lia. reflexivity.
    + rewrite Z.mul_opp_l, Hprod. rewrite RV_neg by lia. rewrite Z.opp_involutive. reflexivity.
    + rewrite Z.mul_opp_r, Hprod. rewrite RV_neg by lia. rewrite Z.opp_involutive. reflexivity.
    + rewrite Hprod. rewrite RV_pos by lia. reflexivity.
Qed.

(** What the comparisons of the source decide, on well-formed numbers. *)
Lemma leb_val (a b : num) :
  valid a = true -> valid b = true -> is_nan a = false -> is_nan b = false ->
  leb a b = true <-> val a <= val b.
Proof.
  intros Va Vb Na Nb. unfold leb, SFleb. rewrite (compare_val a b Va Vb Na Nb).
  destruct (Z.compare_spec (val a) (val b)); split; intros; try lia; try reflexivity; discriminate.
Qed.

Lemma ltb_val (a b : num) :
  valid a = true -> valid b = true -> is_nan a = false -> is_nan b = false ->
  ltb a b = true <-> val a < val b.
Proof.
  intros Va Vb Na Nb. unfold ltb, SFltb. rewrite (compare_val a b Va Vb Na Nb).
  destruct (Z.compare_spec (val a) (val b)); split; intros; try lia; try reflexivity; discriminate.
Qed.

Lemma finite_inv (a : num) :
  finite a = true -> valid a = true /\ is_finite a = true /\ is_nan a = false.
Proof.
  unfold finite. intros H. apply andb_prop in H. destruct H as [H1 H2].
  repeat split; try assumption. destruct a; try reflexivity; discriminate.
Qed.

Lemma finite_val_lt (a : num) : finite a = true -> - inf_mag < val a < inf_mag.
Proof.
  intros H. apply finite_inv in H. destruct H as (Hv & Hf & _).
  pose proof inf_mag_pos.
  destruct a as [s|s| |s m e]; try discriminate.
  - unfold val; cbn [sign_of mag]; destruct s; lia.
  - pose proof (mag_finite_lt s m e Hv). unfold val; cbn [sign_of]; destruct s; lia.
Qed.

Lemma finite_of_val (a : num) :
  valid a = true -> is_nan a = false -> - inf_mag < val a < inf_mag -> finite a = true.
Proof.
  intros Hv Hn Hb. unfold finite. rewrite Hv. cbn [andb].
  destruct a as [s|s| |s m e]; try reflexivity; try discriminate.
  unfold val in Hb; cbn [sign_of mag] in Hb. destruct s; lia.
Qed.

Lemma RV_between (K A : Z) (lo hi : num) :
  1074 <= K -> finite lo = true -> finite hi = true ->
  val lo * 2 ^ (K - 1074) <= A <= val hi * 2 ^ (K - 1074) ->
  val lo <= RV K A <= val hi.
Proof.
  intros HK Hlo Hhi HA.
  apply finite_inv in Hlo, Hhi. destruct Hlo as (V1 & F1 & _), Hhi as (V2 & F2 & _).
  split.
  - rewrite <- (RV_float K lo HK V1 F1). apply RV_mono; lia.
  - rewrite <- (RV_float K hi HK V2 F2). apply RV_mono; lia.
Qed.

(** Bounds on the operands carry over to the rounded results. *)
Lemma add_between (a b lo hi : num) :
  finite a = true -> finite b = true -> finite lo = true -> finite hi = true ->
  val lo <= val a + val b <= val hi ->
  finite (add a b) = true /\ val lo <= val (add a b) <= val hi.
Proof.
  intros Fa Fb Flo Fhi H.
  pose proof (finite_val_lt lo Flo). pose proof (finite_val_lt hi Fhi).
  apply finite_inv in Fa, Fb. destruct Fa as (Va & Fa & _), Fb as (Vb & Fb & _).
  destruct (add_val a b Va Vb Fa Fb) as (Hval & Hvalid & Hnan).
  assert (Hb : val lo <= val (add a b) <= val hi).
  { rewrite Hval. apply RV_between; try assumption; lia. }
  split; [|exact Hb]. apply finite_of_val; try assumption. lia.
Qed.

Lemma sub_between (a b lo hi : num) :
  finite a = true -> finite b = true -> finite lo = true -> finite hi = true ->
  val lo <= val a - val b <= val hi ->
  finite (sub a b) = true /\ val lo <= val (sub a b) <= val hi.
Proof.
  intros Fa Fb Flo Fhi H.
  pose proof (finite_val_lt lo Flo). pose proof (finite_val_lt hi Fhi).
  apply finite_inv in Fa, Fb. destruct Fa as (Va & Fa & _), Fb as (Vb & Fb & _).
  destruct (sub_val a b Va Vb Fa Fb) as (Hval & Hvalid & Hnan).
  assert (Hb : val lo <= val (sub a b) <= val hi).
  { rewrite Hval. apply RV_between; try assumption; lia. }
  split; [|exact Hb]. apply finite_of_val; try assumption. lia.
Qed.

Lemma add_mono (a b a' b' : num) :
  finite a = true -> finite b = true -> finite a' = true -> finite b' = true ->
  val a + val b <= val a' + val b' -> val (add a b) <= val (add a' b').
Proof.
  intros Fa Fb Fa' Fb' H.
  apply finite_inv in Fa, Fb, Fa', Fb'.
  destruct Fa as (Va & Fa & _), Fb as (Vb & Fb & _), Fa' as (Va' & Fa' & _), Fb' as (Vb' & Fb' & _).
  destruct (add_val a b Va Vb Fa Fb) as (-> & _).
  destruct (add_val a' b' Va' Vb' Fa' Fb') as (-> & _).
  apply RV_mono; lia.
Qed.

Lemma sub_mono (a b a' b' : num) :
  finite a = true -> finite b = true -> finite a' = true -> finite b' = true ->
  val a - val b <= val a' - val b' -> val (sub a b) <= val (sub a' b').
Proof.
  intros Fa Fb Fa' Fb' H.
  apply finite_inv in Fa, Fb, Fa', Fb'.
  destruct Fa as (Va & Fa & _), Fb as (Vb & Fb & _), Fa' as (Va' & Fa' & _), Fb' as (Vb' & Fb' & _).
  destruct (sub_val a b Va Vb Fa Fb) as (-> & _).
  destruct (sub_val a' b' Va' Vb' Fa' Fb') as (-> & _).
  apply RV_mono; lia.
Qed.

Lemma mul_mono (a b a' b' : num) :
  finite a = true -> finite b = true -> finite a' = true -> finite b' = true ->
  val a * val b <= val a' * val b' -> val (mul a b) <= val (mul a' b').
Proof.
  intros Fa Fb Fa' Fb' H.
  apply finite_inv in Fa, Fb, Fa', Fb'.
  destruct Fa as (Va & Fa & _), Fb as (Vb & Fb & _), Fa' as (Va' & Fa' & _), Fb' as (Vb' & Fb' & _).
  destruct (mul_val a b Va Vb Fa Fb) as (-> & _).
  destruct (mul_val a' b' Va' Vb' Fa' Fb') as (-> & _).
  apply RV_mono; lia.
Qed.

Lemma mul_finite_of_bounds (a b : num) (lo hi : num) :
  finite a = true -> finite b = true -> finite lo = true -> finite hi = true ->
  val lo <= val (mul a b) <= val hi -> finite (mul a b) = true.
Proof.
  intros Fa Fb Flo Fhi H.
  pose proof (finite_val_lt lo Flo). pose proof (finite_val_lt hi Fhi).
  apply finite_inv in Fa, Fb. destruct Fa as (Va & Fa & _), Fb as (Vb & Fb & _).
  destruct (mul_val a b Va Vb Fa Fb) as (_ & Hvalid & Hnan).
  apply finite_of_val; try assumption. lia.
Qed.

Lemma leb_finite (a b : num) :
  finite a = true -> finite b = true -> leb a b = true <-> val a <= val b.
Proof.
  intros Fa Fb. apply finite_inv in Fa, Fb.
  destruct Fa as (Va & _ & Na), Fb as (Vb & _ & Nb). apply leb_val; assumption.
Qed.

Lemma ltb_finite (a b : num) :
  finite a = true -> finite b = true -> ltb a b = true <-> val a < val b.
Proof.
  intros Fa Fb. apply finite_inv in Fa, Fb.
  destruct Fa as (Va & _ & Na), Fb as (Vb & _ & Nb). apply ltb_val; assumption.
Qed.

Lemma random_ok_inv (r : num) :
  random_ok r = true -> finite r = true /\ 0 <= val r /\ val r < val (of_Z 1).
Proof.
  unfold random_ok. intros H. apply andb_prop in H. destruct H as [H H3].
  apply andb_prop in H. destruct H as [H1 H2].
  split; [exact H1|]. split.
  - apply (leb_finite (of_Z 0) r) in H2; [exact H2|reflexivity|exact H1].
  - apply (ltb_finite r (of_Z 1)) in H3; [exact H3|exact H1|reflexivity].
Qed.

Lemma finite_sandwich (a lo hi : num) :
  valid a = true -> is_nan a = false -> finite lo = true -> finite hi = true ->
  val lo <= val a <= val hi -> finite a = true.
Proof.
  intros Va Na Flo Fhi H.
  pose proof (finite_val_lt lo Flo). pose proof (finite_val_lt hi Fhi).
  apply finite_of_val; try assumption. lia.
Qed.

Lemma mul_sandwich (a b a1 b1 a2 b2 : num) :
  finite a = true -> finite b = true ->
  finite a1 = true -> finite b1 = true -> finite a2 = true -> finite b2 = true ->
  finite (mul a1 b1) = true -> finite (mul a2 b2) = true ->
  val a1 * val b1 <= val a * val b <= val a2 * val b2 ->
  finite (mul a b) = true /\ val (mul a1 b1) <= val (mul a b) <= val (mul a2 b2).
Proof.
  intros Fa Fb Fa1 Fb1 Fa2 Fb2 F1 F2 H.
  assert (Hb : val (mul a1 b1) <= val (mul a b) <= val (mul a2 b2))
    by (split; apply mul_mono; try assumption; lia).
  split; [|exact Hb].
  apply finite_inv in Fa, Fb. destruct Fa as (Va & Fa & _), Fb as (Vb & Fb & _).
  destruct (mul_val a b Va Vb Fa Fb) as (_ & Hvalid & Hnan).
  apply (finite_sandwich _ (mul a1 b1) (mul a2 b2)); assumption.
Qed.

Lemma sub_sandwich (a b a1 b1 a2 b2 : num) :
  finite a = true -> finite b = true ->
  finite a1 = true -> finite b1 = true -> finite a2 = true -> finite b2 = true ->
  finite (sub a1 b1) = true -> finite (sub a2 b2) = true ->
  val a1 - val b1 <= val a - val b <= val a2 - val b2 ->
  finite (sub a b) = true /\ val (sub a1 b1) <= val (sub a b) <= val (sub a2 b2).
Proof.
  intros Fa Fb Fa1 Fb1 Fa2 Fb2 F1 F2 H.
  assert (Hb : val (sub a1 b1) <= val (sub a b) <= val (sub a2 b2))
    by (split; apply sub_mono; try assumption; lia).
  split; [|exact Hb].
  apply finite_inv in Fa, Fb. destruct Fa as (Va & Fa & _), Fb as (Vb & Fb & _).
  destruct (sub_val a b Va Vb Fa Fb) as (_ & Hvalid & Hnan).
  apply (finite_sandwich _ (sub a1 b1) (sub a2 b2)); assumption.
Qed.

Lemma add_sandwich (a b a1 b1 a2 b2 : num) :
  finite a = true -> finite b = true ->
  finite a1 = true -> finite b1 = true -> finite a2 = true -> finite b2 = true ->
  finite (add a1 b1) = true -> finite (add a2 b2) = true ->
  val a1 + val b1 <= val a + val b <= val a2 + val b2 ->
  finite (add a b) = true /\ val (add a1 b1) <= val (add a b) <= val (add a2 b2).
Proof.
  intros Fa Fb Fa1 Fb1 Fa2 Fb2 F1 F2 H.
  assert (Hb : val (add a1 b1) <= val (add a b) <= val (add a2 b2))
    by (split; apply add_mono; try assumption; lia).
  split; [|exact Hb].
  apply finite_inv in Fa, Fb. destruct Fa as (Va & Fa & _), Fb as (Vb & Fb & _).
  destruct (add_val a b Va Vb Fa Fb) as (_ & Hvalid & Hnan).
  apply (finite_sandwich _ (add a1 b1) (add a2 b2)); assumption.
Qed.

Lemma val_zero : val (of_Z 0) = 0.
Proof. reflexivity. Qed.

(** A random position is a finite number within the padded bounds. *)
Lemma random_position_bounds (r : num) :
  random_ok r = true ->
  finite (random_position r lit_0_1) = true /\
  in_bounds lit_0_1 (random_position r lit_0_1) = true.
Proof.
  intros Hr. apply random_ok_inv in Hr. destruct Hr as (Fr & Hr0 & Hr1).
  unfold random_position, in_bounds.
  set (c1 := sub (of_Z 2) (mul (of_Z 2) lit_0_1)).
  set (c2 := sub (of_Z 1) lit_0_1).
  assert (Fc1 : finite c1 = true) by (vm_compute; reflexivity).
  assert (Fc2 : finite c2 = true) by (vm_compute; reflexivity).
  assert (Hc1 : 0 <= val c1).
  { rewrite <- val_zero. apply leb_finite; reflexivity. }
  destruct (mul_sandwich r c1 (of_Z 0) c1 (of_Z 1) c1) as (Ft & Ht);
    try assumption; try reflexivity.
  { rewrite val_zero. split; [nia|]. apply Z.mul_le_mono_nonneg_r; lia. }
  destruct (sub_sandwich (mul r c1) c2 (mul (of_Z 0) c1) c2 (mul (of_Z 1) c1) c2)
    as (Fp & Hp); try assumption; try reflexivity.
  { lia. }
  split; [exact Fp|]. apply andb_true_intro. split.
  - apply leb_finite; [reflexivity|exact Fp|].
    replace (add (neg (of_Z 1)) lit_0_1) with (sub (mul (of_Z 0) c1) c2)
      by (vm_compute; trivial).
    apply Hp.
  - apply leb_finite; [exact Fp|exact Fc2|].
    replace c2 with (sub (mul (of_Z 1) c1) c2) at 2 by (vm_compute; trivial).
    apply Hp.
Qed.

Lemma lt_one_le_pred (r : num) :
  finite r = true -> val r < val (of_Z 1) -> val r <= val pred_one.
Proof.
  intros Fr Hlt. apply finite_inv in Fr. destruct Fr as (Vr & Fr & _).
  change (val (of_Z 1)) with (2 ^ 52 * 2 ^ 1022) in Hlt.
  change (val pred_one) with (9007199254740991 * 2 ^ 1021).
  assert (HP : 0 < 2 ^ 1021) by (apply pow2_pos; lia).
  destruct r as [s|s| |s m e]; try discriminate.
  - replace (val (S754_zero s)) with 0 by (destruct s; reflexivity). lia.
  - unfold valid in Vr. cbn [valid_binary] in Vr.
    pose proof (bounded_inv m e Vr) as (He & Hm & Hn & _).
    assert (HPe : 0 < 2 ^ (e + 1074)) by (apply pow2_pos; lia).
    rewrite val_finite in *. destruct s; cbn [cond_Zopp] in *; [nia|].
    assert (Hle : e <= -53).
    { destruct (Z.le_gt_cases e (-53)) as [|Hgt]; [assumption|exfalso].
      specialize (Hn ltac:(lia)).
      assert (2 ^ 1022 <= 2 ^ (e + 1074)) by (apply pow2_le; lia).
      assert (2 ^ 52 * 2 ^ 1022 <= Zpos m * 2 ^ (e + 1074))
        by (apply Z.mul_le_mono_nonneg; lia).
      lia. }
    assert (2 ^ (e + 1074) <= 2 ^ 1021) by (apply pow2_le; lia).
    apply Z.mul_le_mono_nonneg; lia.
Qed.

Lemma floor_small (t : num) (n : Z) :
  finite t = true -> 0 <= val t < n * 2 ^ 1074 -> n <= 2 ^ 52 ->
  (exists s, floor t = S754_zero s) \/ (exists z, 1 <= z < n /\ floor t = of_Z z).
Proof.
  intros Ft Hb Hn. apply finite_inv in Ft. destruct Ft as (Vt & Ft & _).
  destruct t as [s|s| |s m e]; try discriminate.
  - left. exists s. reflexivity.
  - unfold valid in Vt. cbn [valid_binary] in Vt.
    pose proof (bounded_inv m e Vt) as (He & Hm & Hnm & _).
    assert (HPe : 0 < 2 ^ (e + 1074)) by (apply pow2_pos; lia).
    rewrite val_finite in Hb. destruct s; cbn [cond_Zopp] in Hb; [nia|].
    assert (Hneg : e < 0).
    { destruct (Z.lt_ge_cases e 0) as [|Hge]; [assumption|exfalso].
      specialize (Hnm ltac:(lia)).
      assert (2 ^ 1074 <= 2 ^ (e + 1074)) by (apply pow2_le; lia).
      assert (0 < 2 ^ 1074) by (apply pow2_pos; lia).
      assert (2 ^ 52 * 2 ^ 1074 <= Zpos m * 2 ^ (e + 1074))
        by (apply Z.mul_le_mono_nonneg; lia).
      assert (n * 2 ^ 1074 <= 2 ^ 52 * 2 ^ 1074)
        by (apply Z.mul_le_mono_nonneg_r; lia).
      lia. }
    cbn [floor]. destruct (Z.leb_spec 0 e) as [|_]; [lia|].
    cbn [cond_Zopp]. rewrite Z.shiftr_div_pow2 by lia.
    assert (HP : 0 < 2 ^ (- e)) by (apply pow2_pos; lia).
    assert (Hz : 0 <= Zpos m / 2 ^ (- e) < n).
    { split; [apply Z.div_pos; lia|].
      apply Z.div_lt_upper_bound; [lia|].
      apply (Z.mul_lt_mono_pos_r (2 ^ (e + 1074))); [lia|].
      replace (2 ^ (- e) * n * 2 ^ (e + 1074)) with (n * 2 ^ 1074); [lia|].
      replace 1074 with (- e + (e + 1074)) at 1 by lia.
      rewrite Z.pow_add_r by lia. ring. }
    destruct (Z.eqb_spec (Zpos m / 2 ^ (- e)) 0) as [E|NE].
    + left. exists false. reflexivity.
    + right. exists (Zpos m / 2 ^ (- e)). split; [lia|reflexivity].
Qed.

Lemma mul_random_floor (r : num) (k : Z) :
  random_ok r = true -> 1 <= k <= 2 ^ 52 ->
  finite (of_Z k) = true -> finite (mul pred_one (of_Z k)) = true ->
  val (of_Z k) = k * 2 ^ 1074 ->
  ltb (mul pred_one (of_Z k)) (of_Z k) = true ->
  (exists s, floor (mul r (of_Z k)) = S754_zero s) \/
  (exists z, 1 <= z < k /\ floor (mul r (of_Z k)) = of_Z z).
Proof.
  intros Hr Hk Fk Fpk Hvk Hlt.
  apply random_ok_inv in Hr. destruct Hr as (Fr & Hr0 & Hr1).
  pose proof (lt_one_le_pred r Fr Hr1) as Hp.
  assert (HP : 0 < 2 ^ 1074) by (apply pow2_pos; lia).
  destruct (mul_sandwich r (of_Z k) (of_Z 0) (of_Z k) pred_one (of_Z k)) as (Ft & Ht);
    try assumption; try reflexivity.
  { destruct (of_Z k) as [[]|[]| |[] m e]; try discriminate; reflexivity. }
  { rewrite val_zero, Hvk. split; [nia|]. apply Z.mul_le_mono_nonneg_r; nia. }
  apply (ltb_finite _ _ Fpk Fk) in Hlt. rewrite Hvk in Hlt.
  apply floor_small; try assumption; [|lia].
  replace (val (mul (of_Z 0) (of_Z k))) with 0 in Ht; [lia|].
  destruct (of_Z k) as [[]|[]| |[] m e]; try discriminate; reflexivity.
Qed.

(** The first draw of a colour always falls on an entry of the palette. *)
Lemma first_color (r : num) :
  random_ok r = true ->
  exists c, array_get palette (floor (mul r (of_Z 6))) = Some c /\ c ∈ palette.
Proof.
  intros Hr.
  destruct (mul_random_floor r 6 Hr) as [(s & ->)|(z & Hz & Hfl)];
    try reflexivity; try lia; try rewrite Hfl.
  - eexists. split; [reflexivity|]. unfold palette. rewrite !elem_of_cons. tauto.
  - assert (Hc : z = 1 \/ z = 2 \/ z = 3 \/ z = 4 \/ z = 5) by lia.
    destruct Hc as [E|[E|[E|[E|E]]]]; rewrite E;
      (eexists; split; [reflexivity|unfold palette; rewrite !elem_of_cons; tauto]).
Qed.

(** A second draw never falls on red. *)
Lemma second_color (r : num) :
  random_ok r = true ->
  exists c, array_get palette
              (add (floor (mul r (sub (of_Z 6) (of_Z 1)))) (of_Z 1)) = Some c /\
            is_red c = false.
Proof.
  intros Hr. change (sub (of_Z 6) (of_Z 1)) with (of_Z 5).
  destruct (mul_random_floor r 5 Hr) as [(s & ->)|(z & Hz & Hfl)];
    try reflexivity; try lia; try rewrite Hfl.
  - destruct s; eexists; split; reflexivity.
  - assert (Hc : z = 1 \/ z = 2 \/ z = 3 \/ z = 4) by lia.
    destruct Hc as [E|[E|[E|E]]]; rewrite E; eexists; split; reflexivity.
Qed.

Lemma RV_ge_float (K A : Z) (lo : num) :
  1074 <= K -> finite lo = true -> val lo * 2 ^ (K - 1074) <= A -> val lo <= RV K A.
Proof.
  intros HK Hlo HA. apply finite_inv in Hlo. destruct Hlo as (V1 & F1 & _).
  rewrite <- (RV_float K lo HK V1 F1). apply RV_mono; lia.
Qed.

Lemma RV_le_float (K A : Z) (hi : num) :
  1074 <= K -> finite hi = true -> A <= val hi * 2 ^ (K - 1074) -> RV K A <= val hi.
Proof.
  intros HK Hhi HA. apply finite_inv in Hhi. destruct Hhi as (V1 & F1 & _).
  rewrite <- (RV_float K hi HK V1 F1). apply RV_mono; lia.
Qed.

Lemma add_ge (a b lo : num) :
  finite a = true -> finite b = true -> finite lo = true ->
  val lo <= val a + val b -> val lo <= val (add a b).
Proof.
  intros Fa Fb Flo H. apply finite_inv in Fa, Fb.
  destruct Fa as (Va & Fa & _), Fb as (Vb & Fb & _).
  destruct (add_val a b Va Vb Fa Fb) as (-> & _).
  apply RV_ge_float; try assumption; lia.
Qed.

Lemma sub_le (a b hi : num) :
  finite a = true -> finite b = true -> finite hi = true ->
  val a - val b <= val hi -> val (sub a b) <= val hi.
Proof.
  intros Fa Fb Fhi H. apply finite_inv in Fa, Fb.
  destruct Fa as (Va & Fa & _), Fb as (Vb & Fb & _).
  destruct (sub_val a b Va Vb Fa Fb) as (-> & _).
  apply RV_le_float; try assumption; lia.
Qed.

Lemma coord_ok_inv (v : num) :
  coord_ok v = true ->
  finite v = true /\ val lo_bound <= val v <= val hi_bound.
Proof.
  unfold coord_ok. intros H. apply andb_prop in H. destruct H as [H H3].
  apply andb_prop in H. destruct H as [H1 H2]. split; [exact H1|]. split.
  - apply (leb_finite lo_bound v); [reflexivity|exact H1|exact H2].
  - apply (leb_finite v hi_bound); [exact H1|reflexivity|exact H3].
Qed.

Lemma coord_ok_intro (v : num) :
  finite v = true -> val lo_bound <= val v <= val hi_bound -> coord_ok v = true.
Proof.
  intros F H. unfold coord_ok. rewrite F. cbn [andb].
  apply andb_true_intro. split; apply leb_finite; try assumption; try reflexivity; lia.
Qed.

Lemma step_nonneg : 0 <= val step.
Proof. rewrite <- val_zero. apply leb_finite; reflexivity. Qed.

(** A step towards the upper bound, taken while the coordinate is below
    [1 - size], ends at most one step above it. *)
Lemma coord_ok_add (v : num) :
  coord_ok v = true -> ltb v (sub (of_Z 1) lit_0_1) = true ->
  coord_ok (add v step) = true.
Proof.
  intros Hv Hlt. apply coord_ok_inv in Hv. destruct Hv as (Fv & Hlo & Hhi).
  apply (ltb_finite v _ Fv) in Hlt; [|reflexivity].
  pose proof step_nonneg as Hs.
  assert (Fs : finite step = true) by reflexivity.
  assert (Hb : val lo_bound <= val (add v step) <= val hi_bound).
  { split.
    - apply add_ge; try assumption; try reflexivity. lia.
    - unfold hi_bound. apply add_mono; try assumption; try reflexivity. lia. }
  apply coord_ok_intro; [|exact Hb].
  apply finite_inv in Fv, Fs. destruct Fv as (Vv & Fv & _), Fs as (Vs & Fs & _).
  destruct (add_val v step Vv Vs Fv Fs) as (_ & Hvalid & Hnan).
  apply (finite_sandwich _ lo_bound hi_bound); try assumption; reflexivity.
Qed.

(** A step towards the lower bound, taken while the coordinate is above
    [-1 + size], ends at most one step below it. *)
Lemma coord_ok_sub (v : num) :
  coord_ok v = true -> ltb (add (neg (of_Z 1)) lit_0_1) v = true ->
  coord_ok (sub v step) = true.
Proof.
  intros Hv Hlt. apply coord_ok_inv in Hv. destruct Hv as (Fv & Hlo & Hhi).
  apply (ltb_finite _ v) in Hlt; [|reflexivity|exact Fv].
  pose proof step_nonneg as Hs.
  assert (Fs : finite step = true) by reflexivity.
  assert (Hb : val lo_bound <= val (sub v step) <= val hi_bound).
  { split.
    - unfold lo_bound. apply sub_mono; try assumption; try reflexivity. lia.
    - apply sub_le; try assumption; try reflexivity. lia. }
  apply coord_ok_intro; [|exact Hb].
  apply finite_inv in Fv, Fs. destruct Fv as (Vv & Fv & _), Fs as (Vs & Fs & _).
  destruct (sub_val v step Vv Vs Fv Fs) as (_ & Hvalid & Hnan).
  apply (finite_sandwich _ lo_bound hi_bound); try assumption; reflexivity.
Qed.

(** Inside the padded bounds is inside the widened ones. *)
Lemma in_bounds_coord_ok (v : num) :
  finite v = true -> in_bounds lit_0_1 v = true -> coord_ok v = true.
Proof.
  intros Fv H. unfold in_bounds in H. apply andb_prop in H. destruct H as [H1 H2].
  apply (leb_finite _ v) in H1; [|reflexivity|exact Fv].
  apply (leb_finite v _ Fv) in H2; [|reflexivity].
  apply coord_ok_intro; [exact Fv|].
  assert (L : val lo_bound <= val (add (neg (of_Z 1)) lit_0_1))
    by (apply leb_finite; reflexivity).
  assert (U : val (sub (of_Z 1) lit_0_1) <= val hi_bound)
    by (apply leb_finite; reflexivity).
  lia.
Qed.

(** Swapping the operands of a difference changes at most its sign, which
    the square forgets. *)
Lemma binary_round_aux_neg (m e : Z) (l : location) :
  binary_round_aux prec emax true m e l = neg (binary_round_aux prec emax false m e l).
Proof.
  unfold binary_round_aux.
  destruct (shr_fexp prec emax m e l) as [mrs' e'].
  destruct (shr_fexp prec emax _ e' loc_Exact) as [mrs'' e''].
  destruct (shr_m mrs''); try reflexivity.
  destruct (e'' <=? emax - prec); reflexivity.
Qed.

Lemma binary_round_neg (m : positive) (e : Z) :
  binary_round prec emax true m e = neg (binary_round prec emax false m e).
Proof.
  unfold binary_round. destruct (shl_align _ _ _) as [mz ez].
  apply binary_round_aux_neg.
Qed.

Lemma neg_involutive (a : num) : neg (neg a) = a.
Proof. destruct a as [[]|[]| |[] ? ?]; reflexivity. Qed.

Lemma binary_normalize_opp (m e : Z) :
  binary_normalize prec emax (- m) e false = neg (binary_normalize prec emax m e false)
  \/ (m = 0).
Proof.
  destruct m as [|p|p]; [right; reflexivity| |]; left.
  - change (- Z.pos p) with (Z.neg p). unfold binary_normalize. apply binary_round_neg.
  - change (- Z.neg p) with (Z.pos p). unfold binary_normalize.
    rewrite binary_round_neg, neg_involutive. reflexivity.
Qed.

Lemma mul_neg_neg (a : num) : mul (neg a) (neg a) = mul a a.
Proof.
  destruct a as [s|s| |s m e]; try reflexivity; unfold mul, neg; cbn [SFopp SFmul];
    destruct s; reflexivity.
Qed.

Lemma sub_swap (a b : num) :
  sub b a = neg (sub a b) \/ (sub b a = sub a b).
Proof.
  destruct a as [sa|sa| |sa ma ea], b as [sb|sb| |sb mb eb].
  all: try solve [ repeat match goal with s : bool |- _ => destruct s end;
                   ((left; reflexivity) || (right; reflexivity)) ].
  unfold sub. cbn [SFsub]. rewrite (Z.min_comm eb ea).
  set (X := cond_Zopp sa (Z.pos (fst (shl_align ma ea (Z.min ea eb))))).
  set (Y := cond_Zopp sb (Z.pos (fst (shl_align mb eb (Z.min ea eb))))).
  replace (Y - X) with (- (X - Y)) by lia.
  destruct (binary_normalize_opp (X - Y) (Z.min ea eb)) as [H|H].
  - left. exact H.
  - right. rewrite H. reflexivity.
Qed.

Lemma sub_swap_square (a b : num) :
  mul (sub a b) (sub a b) = mul (sub b a) (sub b a).
Proof.
  destruct (sub_swap a b) as [H|H]; rewrite H.
  - rewrite mul_neg_neg. reflexivity.
  - reflexivity.
Qed.

(** * Properties of the world *)

(** ** Results *)

Lemma bind_Ok {A B : Type} (f : A -> Res B) (r : Res A) (b : B) :
  r ≫= f = Ok b -> exists a, r = Ok a /\ f a = Ok b.
Proof. destruct r as [a| |]; intros H; try discriminate. exists a. split; [reflexivity|exact H]. Qed.

Lemma defined_Ok {A : Type} (o : option A) (a : A) : defined o = Ok a <-> o = Some a.
Proof. destruct o; cbn; split; intros H; congruence. Qed.

Lemma deref_Ok (h : Heap) (r : loc) (o : Triangle.t) : deref h r = Ok o <-> h !! r = Some o.
Proof. apply defined_Ok. Qed.

Lemma deref_lt (h : Heap) (r : loc) :
  (r < length h)%nat -> exists o, deref h r = Ok o /\ h !! r = Some o.
Proof.
  intros Hr. destruct (lookup_lt_is_Some_2 h r Hr) as [o Ho].
  exists o. split; [apply deref_Ok|]; exact Ho.
Qed.

(** Inversion of a successful run, bind by bind. *)
Ltac res_inv H :=
  repeat match type of H with
  | _ ≫= _ = Ok _ =>
      let a := fresh "a" in let Ha := fresh "Ha" in
      apply bind_Ok in H; destruct H as (a & Ha & H)
  end.

(** ** indexOf and splice *)

Lemma indexOf_Some (r : loc) (arr : list loc) (i : nat) :
  indexOf r arr = Some i -> arr !! i = Some r.
Proof.
  revert i. induction arr as [|r' arr IH]; intros i H; [discriminate|].
  cbn in H. destruct (decide (r' = r)) as [->|Hne].
  - injection H as <-. reflexivity.
  - destruct (indexOf r arr) as [i'|]; [|discriminate].
    injection H as <-. cbn. apply IH. reflexivity.
Qed.

Lemma indexOf_elem (r : loc) (arr : list loc) :
  r ∈ arr -> exists i, indexOf r arr = Some i.
Proof.
  induction arr as [|r' arr IH]; intros H; [inversion H|].
  cbn. destruct (decide (r' = r)) as [->|Hne]; [eexists; reflexivity|].
  apply elem_of_cons in H. destruct H as [->|H]; [contradiction|].
  destruct (IH H) as [i ->]. eexists; reflexivity.
Qed.

Lemma delete_NoDup {A : Type} (i : nat) (l : list A) :
  NoDup l -> NoDup (delete i l).
Proof.
  intros H. eapply sublist_NoDup; [exact H|apply sublist_delete].
Qed.

Lemma delete_length_le {A : Type} (i : nat) (l : list A) :
  (length (delete i l) <= length l)%nat.
Proof. apply sublist_length, sublist_delete. Qed.

Lemma elem_of_delete_ne {A : Type} (i : nat) (l : list A) (a b : A) :
  l !! i = Some b -> a <> b -> a ∈ l -> a ∈ delete i l.
Proof.
  revert i. induction l as [|c l IH]; intros i Hi Hne Ha; [inversion Ha|].
  destruct i as [|i]; cbn in *.
  - injection Hi as ->. apply elem_of_cons in Ha. destruct Ha; [contradiction|assumption].
  - apply elem_of_cons in Ha. destruct Ha as [->|Ha]; [left|right; eauto].
Qed.

(** ** handleCollision and the body of the collision loops *)

Lemma handleCollision_effect (m : GameModel) (r1 r2 : loc) :
  (r1 < length (heap m))%nat -> (r2 < length (heap m))%nat ->
  exists m', handleCollision r1 r2 m = Ok m' /\ collision_effect m r1 r2 m'.
Proof.
  intros H1 H2. unfold handleCollision.
  destruct (is_player m r1 || is_player m r2) eqn:Hp.
  - fold (other_of m r1 r2).
    assert (Ho : (other_of m r1 r2 < length (heap m))%nat)
      by (unfold other_of; destruct (is_player m r1); assumption).
    destruct (deref_lt _ _ Ho) as (o & Hd & Hl). rewrite Hd. cbn.
    destruct (is_red (Triangle.color o)) eqn:Hred.
    + eexists. split; [reflexivity|]. eapply effect_lost; eassumption.
    + destruct (indexOf (other_of m r1 r2) (gameObjects m)) as [index|] eqn:Hi.
      * eexists. split; [reflexivity|]. eapply effect_collected; eassumption.
      * eexists. split; [reflexivity|]. eapply effect_scored; eassumption.
  - eexists. split; [reflexivity|]. apply effect_none. exact Hp.
Qed.

Lemma refs_ok_lookup (m : GameModel) (i : nat) (r : loc) :
  refs_ok m -> gameObjects m !! i = Some r -> (r < length (heap m))%nat.
Proof.
  intros H Hi. unfold refs_ok in H. rewrite Forall_lookup in H. exact (H i r Hi).
Qed.

Lemma collide_effect (m : GameModel) (i j : nat) :
  refs_ok m -> (i < nobjects m)%nat -> (j < nobjects m)%nat ->
  exists m', collide i j m = Ok m' /\ pair_effect m i j m'.
Proof.
  intros Hr Hi Hj. unfold collide, nobjects in *.
  destruct (lookup_lt_is_Some_2 _ _ Hi) as [r1 Hr1].
  destruct (lookup_lt_is_Some_2 _ _ Hj) as [r2 Hr2].
  rewrite Hr1, Hr2. cbn.
  pose proof (refs_ok_lookup m i r1 Hr Hr1) as L1.
  pose proof (refs_ok_lookup m j r2 Hr Hr2) as L2.
  destruct (deref_lt _ _ L1) as (o1 & Hd1 & Hl1).
  destruct (deref_lt _ _ L2) as (o2 & Hd2 & Hl2).
  rewrite Hd1, Hd2. cbn.
  destruct (isColliding o1 o2) eqn:Hc.
  - destruct (handleCollision_effect m r1 r2 L1 L2) as (m' & Hh & He).
    exists m'. split; [exact Hh|]. eapply pair_hit; eassumption.
  - exists m. split; [reflexivity|]. eapply pair_miss; try eassumption. reflexivity.
Qed.

(** A handled pair leaves the heap, the player, the palette and the keys
    alone, never lengthens the collection and keeps its references. *)
Lemma collision_effect_frame (m m' : GameModel) (r1 r2 : loc) :
  collision_effect m r1 r2 m' ->
  heap m' = heap m /\ player m' = player m /\ colors m' = colors m /\
  keys m' = keys m /\
  (gameState m' = gameState m \/ gameState m' = lost) /\
  gameObjects m' `sublist_of` gameObjects m.
Proof.
  intros H. destruct H; cbn; repeat split; auto; try apply sublist_delete.
Qed.

Lemma pair_effect_frame (m m' : GameModel) (i j : nat) :
  pair_effect m i j m' ->
  heap m' = heap m /\ player m' = player m /\ colors m' = colors m /\
  keys m' = keys m /\
  (gameState m' = gameState m \/ gameState m' = lost) /\
  gameObjects m' `sublist_of` gameObjects m.
Proof.
  intros [r1 r2 o1 o2 _ _ _ _ _ ->|r1 r2 o1 o2 _ _ _ _ _ H].
  - repeat split; auto.
  - eapply collision_effect_frame. exact H.
Qed.

Lemma refs_ok_sublist (m m' : GameModel) :
  heap m' = heap m -> gameObjects m' `sublist_of` gameObjects m ->
  refs_ok m -> refs_ok m'.
Proof.
  unfold refs_ok. intros -> Hs H. rewrite Forall_forall in *.
  intros r Hr. apply H. eapply elem_of_sublist; eassumption.
Qed.

(** ** The nested loops *)

Section PairLoopsFacts.
Context {St : Type} (len : St -> nat) (body : nat -> nat -> St -> Res St).
Context (P : St -> Prop).
Hypothesis body_total : forall i j s,
  P s -> (i < j)%nat -> (j < len s)%nat ->
  exists s', body i j s = Ok s' /\ P s' /\ (len s' <= len s)%nat.

Lemma inner_loop_eq (fuel i j : nat) (s : St) :
  inner_loop len body fuel i j s =
  if (j <? len s)%nat then
    match fuel with
    | O => OutOfFuel
    | S fuel' => s' ← body i j s; inner_loop len body fuel' i (S j) s'
    end
  else Ok s.
Proof. destruct fuel; reflexivity. Qed.

Lemma outer_loop_eq (fuel i : nat) (s : St) :
  outer_loop len body fuel i s =
  if (i <? len s)%nat then
    match fuel with
    | O => OutOfFuel
    | S fuel' =>
        s' ← inner_loop len body (len s) i (S i) s;
        outer_loop len body fuel' (S i) s'
    end
  else Ok s.
Proof. destruct fuel; reflexivity. Qed.

(** With fuel for the iterations that are left, the inner loop ends by
    its own test, and keeps what its body keeps. *)
Lemma inner_loop_total (fuel i j : nat) (s : St) :
  P s -> (i < j)%nat -> (len s <= fuel + j)%nat ->
  exists s', inner_loop len body fuel i j s = Ok s' /\ P s' /\
             (len s' <= len s)%nat.
Proof.
  revert j s. induction fuel as [|fuel IH]; intros j s HP Hij Hf;
    rewrite inner_loop_eq.
  - destruct (Nat.ltb_spec j (len s)) as [Hlt|Hge]; [lia|].
    exists s. repeat split; auto.
  - destruct (Nat.ltb_spec j (len s)) as [Hlt|Hge].
    + destruct (body_total i j s HP Hij Hlt) as (s1 & Hb & HP1 & Hl1).
      rewrite Hb. cbn.
      destruct (IH (S j) s1 HP1 ltac:(lia) ltac:(lia)) as (s' & Hs' & HP' & Hl').
      exists s'. repeat split; auto. lia.
    + exists s. repeat split; auto.
Qed.

Lemma outer_loop_total (fuel i : nat) (s : St) :
  P s -> (len s <= fuel + i)%nat ->
  exists s', outer_loop len body fuel i s = Ok s' /\ P s' /\
             (len s' <= len s)%nat.
Proof.
  revert i s. induction fuel as [|fuel IH]; intros i s HP Hf;
    rewrite outer_loop_eq.
  - destruct (Nat.ltb_spec i (len s)) as [Hlt|Hge]; [lia|].
    exists s. repeat split; auto.
  - destruct (Nat.ltb_spec i (len s)) as [Hlt|Hge].
    + destruct (inner_loop_total (len s) i (S i) s HP ltac:(lia) ltac:(lia))
        as (s1 & Hb & HP1 & Hl1).
      rewrite Hb. cbn.
      destruct (IH (S i) s1 HP1 ltac:(lia)) as (s' & Hs' & HP' & Hl').
      exists s'. repeat split; auto. lia.
    + exists s. repeat split; auto.
Qed.
End PairLoopsFacts.

Lemma pair_effect_length (m m' : GameModel) (i j : nat) :
  pair_effect m i j m' -> (nobjects m' <= nobjects m)%nat.
Proof.
  intros H. apply pair_effect_frame in H. destruct H as (_ & _ & _ & _ & _ & Hs).
  apply sublist_length. exact Hs.
Qed.

(** The collision pass always returns, and keeps every property that
    implies well-formed references and that one handled pair keeps. *)
Lemma checkCollisions_inv (P : GameModel -> Prop) :
  (forall m, P m -> refs_ok m) ->
  (forall m i j m', P m -> (i < j)%nat -> (j < nobjects m)%nat ->
                    pair_effect m i j m' -> P m') ->
  forall m, P m -> exists m', checkCollisions m = Ok m' /\ P m'.
Proof.
  intros Hrefs Hstep m HP. unfold checkCollisions.
  assert (Hbody : forall i j s, P s -> (i < j)%nat -> (j < nobjects s)%nat ->
            exists s', collide i j s = Ok s' /\ P s' /\ (nobjects s' <= nobjects s)%nat).
  { intros i j s HPs Hij Hj.
    assert (Hi : (i < nobjects s)%nat) by lia.
    destruct (collide_effect s i j (Hrefs s HPs) Hi Hj) as (s' & Hc & He).
    exists s'. split; [exact Hc|]. split; [exact (Hstep s i j s' HPs Hij Hj He)|].
    eapply pair_effect_length; eassumption. }
  assert (Hfuel : (nobjects m <= nobjects m + 0)%nat) by lia.
  destruct (outer_loop_total nobjects collide P Hbody (nobjects m) 0%nat m HP Hfuel)
    as (m' & Hm' & HP' & _).
  exists m'. split; assumption.
Qed.

Lemma checkCollisions_frame (m : GameModel) :
  refs_ok m -> exists m', checkCollisions m = Ok m' /\ pass_frame m m'.
Proof.
  intros Hr. apply (checkCollisions_inv (pass_frame m)).
  - intros s Hs. apply Hs.
  - intros s i j s' (Hrs & Hh & Hp & Hc & Hk & Hsub & Hst) Hij Hj He.
    apply pair_effect_frame in He. destruct He as (Hh' & Hp' & Hc' & Hk' & Hst' & Hsub').
    repeat split; try congruence.
    + eapply refs_ok_sublist; eassumption.
    + etransitivity; eassumption.
    + destruct Hst' as [->| ->]; auto.
  - repeat split; auto.
Qed.

Lemma is_player_true (m : GameModel) (r : loc) :
  is_player m r = true <-> player m = Some r.
Proof. unfold is_player. apply bool_decide_eq_true. Qed.

(** In a collection without duplicates, the entity a pair is resolved
    against is never the player. *)
Lemma other_of_not_player (m : GameModel) (i j : nat) (r1 r2 : loc) :
  NoDup (gameObjects m) -> (i < j)%nat ->
  gameObjects m !! i = Some r1 -> gameObjects m !! j = Some r2 ->
  is_player m r1 || is_player m r2 = true ->
  player m <> Some (other_of m r1 r2).
Proof.
  intros Hnd Hij H1 H2 Hp. unfold other_of.
  assert (Hne : r1 <> r2).
  { intros ->. pose proof (NoDup_lookup _ _ _ _ Hnd H1 H2). lia. }
  destruct (is_player m r1) eqn:E1.
  - apply is_player_true in E1. rewrite E1. congruence.
  - cbn in Hp. apply is_player_true in Hp. rewrite Hp. congruence.
Qed.

Lemma delete_head_ne (p : loc) (rest : list loc) (index : nat) (r : loc) :
  (p :: rest) !! index = Some r -> r <> p ->
  exists rest', delete index (p :: rest) = p :: rest'.
Proof.
  intros Hi Hne. destruct index as [|index]; cbn in *.
  - congruence.
  - eexists. reflexivity.
Qed.

Lemma pair_effect_player_first (m m' : GameModel) (i j : nat) :
  player_first m -> (i < j)%nat -> pair_effect m i j m' -> player_first m'.
Proof.
  intros (Hr & Hnd & p & rest & Hp & Hobj) Hij He.
  pose proof (pair_effect_frame _ _ _ _ He) as (Hh & Hpl & _ & _ & _ & Hsub).
  split; [eapply refs_ok_sublist; eassumption|].
  split; [eapply sublist_NoDup; [exact Hnd|exact Hsub]|].
  exists p. rewrite Hpl.
  destruct He as [r1 r2 o1 o2 _ _ _ _ _ ->|r1 r2 o1 o2 H1 H2 _ _ _ Hc].
  - exists rest. auto.
  - destruct Hc as [Hn|o Hn Ho Hred|o index Hn Ho Hred Hidx|o Hn Ho Hred Hidx]; cbn.
    + exists rest. auto.
    + exists rest. auto.
    + pose proof (other_of_not_player m i j r1 r2 Hnd Hij H1 H2 Hn) as Hne.
      apply indexOf_Some in Hidx. rewrite Hobj in Hidx |- *.
      destruct (delete_head_ne p rest index _ Hidx) as (rest' & ->); [congruence|].
      exists rest'. auto.
    + exists rest. auto.
Qed.

Lemma checkCollisions_player_first (m : GameModel) :
  player_first m ->
  exists m', checkCollisions m = Ok m' /\ player_first m' /\ pass_frame m m'.
Proof.
  intros Hpf.
  destruct (checkCollisions_inv (fun s => player_first s /\ pass_frame m s)) with (m := m)
    as (m' & Hm' & HP' & Hf').
  - intros s [_ Hs]. apply Hs.
  - intros s i j s' [Hpf' (Hrs & Hh & Hp & Hc & Hk & Hsub & Hst)] Hij Hj He. split.
    + exact (pair_effect_player_first s s' i j Hpf' Hij He).
    + apply pair_effect_frame in He.
      destruct He as (Hh' & Hp' & Hc' & Hk' & Hst' & Hsub').
      repeat split; try congruence.
      * eapply refs_ok_sublist; eassumption.
      * etransitivity; eassumption.
      * destruct Hst' as [->| ->]; auto.
  - split; [exact Hpf|]. destruct Hpf as (Hr & _). repeat split; auto.
  - exists m'. auto.
Qed.

(** ** updatePlayer, the objects' update, checkGameOver *)

Lemma filter_objects_spec (h : Heap) (arr : list loc) :
  Forall (fun r => (r < length h)%nat) arr ->
  filter_objects h arr =
  Ok (filter (fun r => is_red (color_of h r) = false) arr).
Proof.
  induction 1 as [|r arr Hr Harr IH]; [reflexivity|].
  rewrite filter_cons. cbn [filter_objects]. unfold not_red.
  destruct (deref_lt h r Hr) as (o & Hd & Hl). rewrite Hd, IH.
  assert (Hc : color_of h r = Triangle.color o)
    by (unfold color_of; rewrite Hl; reflexivity).
  cbn [mbind res_mbind res_bind].
  destruct (decide _) as [E|E]; cbn beta in E; rewrite Hc in E;
    destruct (is_red (Triangle.color o)) eqn:Hred; try discriminate; try reflexivity.
  exfalso. apply E. reflexivity.
Qed.

Lemma checkGameOver_spec (m : GameModel) :
  refs_ok m ->
  checkGameOver m =
  Ok (if decide (length (non_red m) = 1%nat) then set_gameState won m else m).
Proof.
  intros Hr. unfold checkGameOver. rewrite (filter_objects_spec _ _ Hr). cbn.
  fold (non_red m). destruct (decide _); reflexivity.
Qed.

Lemma update_objects_spec (arr : list loc) (h : Heap) :
  Forall (fun r => (r < length h)%nat) arr -> update_objects arr h = Ok h.
Proof.
  induction 1 as [|r arr Hr Harr IH]; [reflexivity|].
  cbn [update_objects]. destruct (deref_lt h r Hr) as (o & Hd & Hl).
  rewrite Hd. cbn [mbind res_mbind res_bind]. unfold Triangle.update.
  rewrite list_insert_id by exact Hl. exact IH.
Qed.

Lemma updatePlayer_spec (m : GameModel) (p : loc) (o : Triangle.t) :
  player m = Some p -> heap m !! p = Some o ->
  updatePlayer m =
  Ok (set_heap (<[p := move (pressed m "ArrowUp") (pressed m "ArrowDown")
                        (pressed m "ArrowLeft") (pressed m "ArrowRight") o]>
                  (heap m)) m).
Proof.
  intros Hp Ho. unfold updatePlayer. rewrite Hp. cbn. unfold deref. rewrite Ho. reflexivity.
Qed.

Lemma guarded_add_ok (b : bool) (v : num) :
  coord_ok v = true ->
  coord_ok (if b && ltb v (sub (of_Z 1) lit_0_1) then add v step else v) = true.
Proof.
  intros Hv. destruct b; cbn [andb]; [|exact Hv].
  destruct (ltb v _) eqn:E; [apply coord_ok_add; assumption|exact Hv].
Qed.

Lemma guarded_sub_ok (b : bool) (v : num) :
  coord_ok v = true ->
  coord_ok (if b && ltb (add (neg (of_Z 1)) lit_0_1) v then sub v step else v) = true.
Proof.
  intros Hv. destruct b; cbn [andb]; [|exact Hv].
  destruct (ltb _ v) eqn:E; [apply coord_ok_sub; assumption|exact Hv].
Qed.

(** The coordinates after the four guarded assignments. *)
Lemma move_y (up down left right : bool) (o : Triangle.t) :
  Triangle.y (move up down left right o) =
  let y1 := if up && ltb (Triangle.y o) (sub (of_Z 1) (Triangle.size o))
            then add (Triangle.y o) step else Triangle.y o in
  if down && ltb (add (neg (of_Z 1)) (Triangle.size o)) y1
  then sub y1 step else y1.
Proof.
  destruct o as [x y size color]. unfold move.
  cbn [Triangle.x Triangle.y Triangle.size Triangle.set_x Triangle.set_y].
  destruct (up && ltb y (sub (of_Z 1) size));
    cbn [Triangle.x Triangle.y Triangle.size Triangle.set_x Triangle.set_y];
    destruct (down && _);
    cbn [Triangle.x Triangle.y Triangle.size Triangle.set_x Triangle.set_y];
    destruct (left && _);
    cbn [Triangle.x Triangle.y Triangle.size Triangle.set_x Triangle.set_y];
    destruct (right && _); reflexivity.
Qed.

Lemma move_x (up down left right : bool) (o : Triangle.t) :
  Triangle.x (move up down left right o) =
  let x1 := if left && ltb (add (neg (of_Z 1)) (Triangle.size o)) (Triangle.x o)
            then sub (Triangle.x o) step else Triangle.x o in
  if right && ltb x1 (sub (of_Z 1) (Triangle.size o))
  then add x1 step else x1.
Proof.
  destruct o as [x y size color]. unfold move.
  cbn [Triangle.x Triangle.y Triangle.size Triangle.set_x Triangle.set_y].
  destruct (up && ltb y (sub (of_Z 1) size));
    cbn [Triangle.x Triangle.y Triangle.size Triangle.set_x Triangle.set_y];
    destruct (down && _);
    cbn [Triangle.x Triangle.y Triangle.size Triangle.set_x Triangle.set_y];
    destruct (left && _);
    cbn [Triangle.x Triangle.y Triangle.size Triangle.set_x Triangle.set_y];
    destruct (right && _); reflexivity.
Qed.

Lemma move_frame (up down left right : bool) (o : Triangle.t) :
  Triangle.size (move up down left right o) = Triangle.size o /\
  Triangle.color (move up down left right o) = Triangle.color o.
Proof.
  unfold move.
  repeat match goal with
  | |- context [if ?g then _ else _] => destruct g
  end; split; reflexivity.
Qed.

(** The four guarded assignments keep the size and the colour, and keep
    both coordinates inside the widened bounds. *)
Lemma move_ok (up down left right : bool) (o : Triangle.t) :
  Triangle.size o = lit_0_1 ->
  coord_ok (Triangle.x o) = true -> coord_ok (Triangle.y o) = true ->
  Triangle.size (move up down left right o) = lit_0_1 /\
  Triangle.color (move up down left right o) = Triangle.color o /\
  coord_ok (Triangle.x (move up down left right o)) = true /\
  coord_ok (Triangle.y (move up down left right o)) = true.
Proof.
  intros Hs Hx Hy.
  destruct (move_frame up down left right o) as [Fs Fc].
  rewrite Fs, Fc, move_x, move_y, Hs. cbn zeta.
  repeat split; try assumption.
  - apply guarded_add_ok, guarded_sub_ok, Hx.
  - apply guarded_sub_ok, guarded_add_ok, Hy.
Qed.

Lemma set_heap_id (m : GameModel) : set_heap (heap m) m = m.
Proof. destruct m; reflexivity. Qed.

(** ** One update, stage by stage *)

Lemma moved_refs_ok (m : GameModel) (p : loc) (o : Triangle.t) :
  refs_ok m -> refs_ok (moved m p o).
Proof. unfold refs_ok, moved. cbn. rewrite length_insert. auto. Qed.

Lemma update_stages (m : GameModel) :
  wf m ->
  exists p o m2,
    player m = Some p /\ heap m !! p = Some o /\
    checkCollisions (moved m p o) = Ok m2 /\ pass_frame (moved m p o) m2 /\
    (player_first m -> player_first m2) /\
    update m = Ok (judged m2).
Proof.
  intros (Hr & p & Hp & Hlt).
  destruct (lookup_lt_is_Some_2 _ _ Hlt) as [o Ho].
  pose proof (moved_refs_ok m p o Hr) as Hr1.
  destruct (checkCollisions_frame _ Hr1) as (m2 & Hcc & Hfr).
  exists p, o, m2.
  split; [exact Hp|]. split; [exact Ho|]. split; [exact Hcc|]. split; [exact Hfr|].
  split.
  - intros (_ & Hnd & Hshape).
    destruct (checkCollisions_player_first (moved m p o)) as (m2' & Hcc' & Hpf & _).
    { split; [exact Hr1|]. split; [exact Hnd|exact Hshape]. }
    rewrite Hcc in Hcc'. injection Hcc' as <-. exact Hpf.
  - unfold update. rewrite (updatePlayer_spec m p o Hp Ho). fold (moved m p o).
    cbn [mbind res_mbind res_bind].
    rewrite (update_objects_spec _ _ Hr1). cbn [mbind res_mbind res_bind].
    rewrite set_heap_id, Hcc. cbn [mbind res_mbind res_bind].
    apply checkGameOver_spec. apply Hfr.
Qed.

Lemma round_inv_wf (m : GameModel) : round_inv m -> wf m.
Proof.
  intros (p & rest & o & Hp & Hobj & Hnd & Hr & Ho & _).
  split; [exact Hr|]. exists p. split; [exact Hp|].
  eapply lookup_lt_Some. exact Ho.
Qed.

Lemma round_inv_player_first (m : GameModel) : round_inv m -> player_first m.
Proof.
  intros (p & rest & o & Hp & Hobj & Hnd & Hr & _).
  split; [exact Hr|]. split; [rewrite Hobj; exact Hnd|]. exists p, rest. auto.
Qed.

Lemma judged_frame (m : GameModel) :
  heap (judged m) = heap m /\ gameObjects (judged m) = gameObjects m /\
  player (judged m) = player m /\ colors (judged m) = colors m /\
  keys (judged m) = keys m /\ score (judged m) = score m /\
  (gameState (judged m) = gameState m \/ gameState (judged m) = won).
Proof. unfold judged. destruct (decide _); cbn; repeat split; auto. Qed.

Lemma judged_won (m : GameModel) :
  length (non_red m) = 1%nat -> gameState (judged m) = won.
Proof. intros H. unfold judged. rewrite decide_True by exact H. reflexivity. Qed.

Lemma non_red_judged (m : GameModel) : non_red (judged m) = non_red m.
Proof. unfold judged. destruct (decide _); reflexivity. Qed.

(** An update of a well-formed world returns a well-formed world, and its
    terminal state is the one it started with, LOST or WON. *)
Lemma update_wf (m : GameModel) :
  wf m ->
  exists m', update m = Ok m' /\ wf m' /\
    colors m' = colors m /\ keys m' = keys m /\
    (gameState m' = gameState m \/ gameState m' = lost \/ gameState m' = won) /\
    (length (non_red m') = 1%nat -> gameState m' = won).
Proof.
  intros Hwf. destruct (update_stages m Hwf) as (p & o & m2 & Hp & Ho & Hcc & Hfr & _ & Hu).
  destruct Hfr as (Hr2 & Hh2 & Hp2 & Hc2 & Hk2 & Hsub & Hst).
  destruct (judged_frame m2) as (Jh & Jo & Jp & Jc & Jk & _ & Js).
  exists (judged m2). split; [exact Hu|]. split; [|split; [|split; [|split]]].
  - split.
    + unfold refs_ok. rewrite Jh, Jo. exact Hr2.
    + exists p. rewrite Jp, Hp2, Jh, Hh2. split; [exact Hp|].
      unfold moved. cbn. rewrite length_insert. eapply lookup_lt_Some. exact Ho.
  - rewrite Jc, Hc2. reflexivity.
  - rewrite Jk, Hk2. reflexivity.
  - cbn in Hst. destruct Js as [E1|E1], Hst as [E2|E2]; rewrite E1, ?E2; auto.
  - rewrite non_red_judged. apply judged_won.
Qed.

(** An update keeps the invariant of a round. *)
Lemma update_round_inv (m : GameModel) :
  round_inv m -> exists m', update m = Ok m' /\ round_inv m'.
Proof.
  intros Hinv. pose proof (round_inv_wf m Hinv) as Hwf.
  pose proof (round_inv_player_first m Hinv) as Hpf.
  destruct (update_stages m Hwf) as (p & o & m2 & Hp & Ho & Hcc & Hfr & Hpf2 & Hu).
  specialize (Hpf2 Hpf).
  destruct Hfr as (Hr2 & Hh2 & Hp2 & Hc2 & Hk2 & Hsub & Hst).
  destruct (judged_frame m2) as (Jh & Jo & Jp & Jc & Jk & _ & Js).
  destruct Hinv as (p' & rest & o' & Hp' & Hobj & Hnd & Hr & Ho' & Hgreen & Hsize & Hx & Hy).
  assert (p' = p) by congruence. subst p'.
  assert (o' = o) by congruence. subst o'.
  destruct Hpf2 as (_ & Hnd2 & q & rest2 & Hq & Hobj2).
  assert (q = p) by (cbn in Hp2; congruence). subst q.
  exists (judged m2). split; [exact Hu|].
  pose proof (move_ok (pressed m "ArrowUp") (pressed m "ArrowDown")
                (pressed m "ArrowLeft") (pressed m "ArrowRight") o Hsize Hx Hy)
    as (Ms & Mc & Mx & My).
  exists p, rest2, (move (pressed m "ArrowUp") (pressed m "ArrowDown")
                      (pressed m "ArrowLeft") (pressed m "ArrowRight") o).
  rewrite Jp, Jo, Jh, Hh2. unfold refs_ok. rewrite Jh, Jo.
  split; [exact Hq|]. split; [exact Hobj2|]. split; [rewrite <- Hobj2; exact Hnd2|].
  split; [exact Hr2|]. split.
  - unfold moved. cbn. apply list_lookup_insert_eq. eapply lookup_lt_Some. exact Ho.
  - rewrite Mc. auto.
Qed.

(** ** The loop driver *)

Lemma gameLoop_spec (now : Z) (c : GameController) (m' : GameModel) :
  update (if Z.max 0 (gameDuration c - (now - startTime c)) <=? 0
          then set_gameState lost (model c) else model c) = Ok m' ->
  gameLoop now c =
  Ok (Controller.with_model m' c,
      if decide (gameState m' = playing) then requestAnimationFrame
      else endGame (end_game m')).
Proof.
  intros H. unfold gameLoop. cbn zeta. rewrite H. cbn [mbind res_mbind res_bind].
  destruct (decide _); reflexivity.
Qed.

Lemma set_gameState_wf (s : GameState) (m : GameModel) : wf m -> wf (set_gameState s m).
Proof. intros H. exact H. Qed.

Lemma set_gameState_round_inv (s : GameState) (m : GameModel) :
  round_inv m -> round_inv (set_gameState s m).
Proof. intros H. exact H. Qed.

Lemma set_keys_round_inv (k : gmap string bool) (m : GameModel) :
  round_inv m -> round_inv (set_keys k m).
Proof. intros H. exact H. Qed.

Lemma set_keys_wf (k : gmap string bool) (m : GameModel) : wf m -> wf (set_keys k m).
Proof. intros H. exact H. Qed.

(** A key event keeps whatever a change of the held keys keeps. *)
Lemma assign_key_inv (I : GameModel -> Prop) (key : string) (v : bool)
    (m : GameModel) :
  (forall k, I (set_keys k m)) -> I m -> I (assign_key key v m).
Proof. intros Hk Hm. unfold assign_key. destruct (decide _); [exact Hm|apply Hk]. Qed.

Lemma assign_key_round_inv (key : string) (v : bool) (m : GameModel) :
  round_inv m -> round_inv (assign_key key v m).
Proof.
  intros H. apply (assign_key_inv round_inv); [|exact H].
  intros k. apply set_keys_round_inv, H.
Qed.

Lemma assign_key_wf (key : string) (v : bool) (m : GameModel) :
  wf m -> wf (assign_key key v m).
Proof.
  intros H. apply (assign_key_inv wf); [|exact H].
  intros k. apply set_keys_wf, H.
Qed.


(** Every event keeps the invariant of a round. *)
Lemma dispatch_round_inv (e : Event) (c : GameController) :
  round_inv (model c) ->
  exists c', dispatch e c = Ok c' /\ round_inv (model c').
Proof.
  intros Hinv. destruct e as [key|key|now]; cbn [dispatch].
  - eexists. split; [reflexivity|]. apply assign_key_round_inv, Hinv.
  - eexists. split; [reflexivity|]. apply assign_key_round_inv, Hinv.
  - set (m0 := if Z.max 0 (gameDuration c - (now - startTime c)) <=? 0
               then set_gameState lost (model c) else model c).
    assert (H0 : round_inv m0)
      by (subst m0; destruct (_ <=? 0); [apply set_gameState_round_inv|]; exact Hinv).
    destruct (update_round_inv m0 H0) as (m' & Hu & Hinv').
    rewrite (gameLoop_spec now c m' Hu). cbn [mbind res_mbind res_bind].
    eexists. split; [reflexivity|]. exact Hinv'.
Qed.

Lemma run_round_inv (events : list Event) (c : GameController) :
  round_inv (model c) ->
  exists c', run events c = Ok c' /\ round_inv (model c').
Proof.
  revert c. induction events as [|e events IH]; intros c Hinv.
  - exists c. split; [reflexivity|exact Hinv].
  - cbn [run]. destruct (dispatch_round_inv e c Hinv) as (c1 & Hd & H1).
    rewrite Hd. cbn [mbind res_mbind res_bind]. apply IH, H1.
Qed.


(** ** createGameObjects *)

Lemma extends_refl (m : GameModel) : extends m m [].
Proof.
  unfold extends. rewrite !app_nil_r. repeat split; reflexivity.
Qed.

Lemma extends_push (m m' : GameModel) (ts : list Triangle.t) (o : Triangle.t) :
  extends (push_triangle o m) m' ts -> extends m m' (o :: ts).
Proof.
  unfold extends, push_triangle. cbn.
  intros (Hh & Ho & Hs & Hsc & Hc & Hk & Hp & Hw & Hht).
  rewrite length_app in Ho. cbn in Ho.
  repeat split; try assumption.
  - rewrite Hh, <- app_assoc. reflexivity.
  - rewrite Ho, <- app_assoc. cbn. do 3 f_equal. lia.
Qed.

Lemma red_triangles_spec (rand : nat -> num) (n k : nat) (m : GameModel) :
  random_source rand ->
  exists ts, extends m (red_triangles rand lit_0_1 lit_0_1 n k m).1 ts /\
    length ts = n /\
    Forall (fun o => spawned_ok o /\ Triangle.color o = red) ts.
Proof.
  intros Hrand. revert k m. induction n as [|n IH]; intros k m.
  - exists []. split; [apply extends_refl|]. split; [reflexivity|constructor].
  - cbn [red_triangles].
    set (o := Triangle.mk (random_position (rand k) lit_0_1)
                (random_position (rand (S k)) lit_0_1) lit_0_1 red).
    destruct (IH (S (S k)) (push_triangle o m)) as (ts & He & Hl & Hf).
    exists (o :: ts). split; [apply extends_push, He|].
    split; [cbn; lia|]. constructor; [|exact Hf].
    destruct (random_position_bounds (rand k) (Hrand k)) as [Fx Bx].
    destruct (random_position_bounds (rand (S k)) (Hrand (S k))) as [Fy By].
    split; [|reflexivity]. subst o. repeat split; assumption.
Qed.

Lemma redraw_spec (rand : nat -> num) (fuel k : nat) (c : Color) :
  random_source rand -> (1 <= fuel)%nat ->
  exists c' k', redraw rand palette fuel k (Some c) = Ok (c', k') /\
                is_red c' = false.
Proof.
  intros Hrand Hfuel. destruct fuel as [|fuel]; [lia|].
  cbn [redraw defined mbind res_mbind res_bind].
  destruct (is_red c) eqn:Hc.
  - change (of_Z (Z.of_nat (length palette))) with (of_Z 6).
    destruct (second_color (rand k) (Hrand k)) as (c' & Hget & Hred).
    rewrite Hget. exists c', (S k). split; [|exact Hred].
    destruct fuel; cbn [redraw defined mbind res_mbind res_bind]; rewrite Hred; reflexivity.
  - exists c, k. split; [reflexivity|exact Hc].
Qed.

Lemma other_triangles_spec (rand : nat -> num) (fuel n k : nat) (m : GameModel) :
  random_source rand -> (1 <= fuel)%nat -> colors m = palette ->
  exists m' k' ts,
    other_triangles rand lit_0_1 lit_0_1 fuel n k m = Ok (m', k') /\
    extends m m' ts /\ length ts = n /\
    Forall (fun o => spawned_ok o /\ is_red (Triangle.color o) = false) ts.
Proof.
  intros Hrand Hfuel. revert k m. induction n as [|n IH]; intros k m Hcol.
  - exists m, k, []. split; [reflexivity|]. split; [apply extends_refl|].
    split; [reflexivity|constructor].
  - cbn [other_triangles]. rewrite Hcol.
    change (of_Z (Z.of_nat (length palette))) with (of_Z 6).
    destruct (first_color (rand (S (S k))) (Hrand _)) as (c0 & Hget & _).
    rewrite Hget.
    destruct (redraw_spec rand fuel (S (S (S k))) c0 Hrand Hfuel) as (c & k1 & Hre & Hred).
    rewrite Hre. cbn [mbind res_mbind res_bind].
    set (o := Triangle.mk (random_position (rand k) lit_0_1)
                (random_position (rand (S k)) lit_0_1) lit_0_1 c).
    destruct (IH k1 (push_triangle o m)) as (m' & k' & ts & Ho & He & Hl & Hf);
      [exact Hcol|].
    exists m', k', (o :: ts). split; [exact Ho|].
    split; [apply extends_push, He|]. split; [cbn; lia|].
    constructor; [|exact Hf].
    destruct (random_position_bounds (rand k) (Hrand k)) as [Fx Bx].
    destruct (random_position_bounds (rand (S k)) (Hrand (S k))) as [Fy By].
    split; [|exact Hred]. subst o. repeat split; assumption.
Qed.

Lemma length_3_inv {A : Type} (l : list A) :
  length l = 3%nat -> exists a b c, l = [a; b; c].
Proof.
  destruct l as [|a [|b [|c [|d l]]]]; cbn; intros H; try lia. eauto.
Qed.

(** With a palette as the constructor stores it and one unit of fuel for
    the second draw, [createGameObjects] returns the world described by
    [spawned]. *)
Lemma createGameObjects_spec (rand : nat -> num) (fuel k : nat) (m : GameModel) :
  random_source rand -> (1 <= fuel)%nat -> colors m = palette ->
  exists m' k', createGameObjects rand fuel k m = Ok (m', k') /\ spawned m m'.
Proof.
  intros Hrand Hfuel Hcol. unfold createGameObjects.
  destruct (red_triangles_spec rand 3 k (set_gameObjects [] m) Hrand)
    as (reds & Hre & Hrl & Hrf).
  destruct (red_triangles rand lit_0_1 lit_0_1 3 k (set_gameObjects [] m))
    as [m1 k1] eqn:E1. cbn [fst] in Hre.
  destruct Hre as (Hh1 & Ho1 & Hs1 & Hsc1 & Hc1 & Hk1 & Hp1 & _).
  cbn in Hh1, Ho1, Hs1, Hsc1, Hc1, Hk1, Hp1.
  destruct (other_triangles_spec rand fuel 7 k1 m1 Hrand Hfuel)
    as (m2 & k2 & cs & Hot & Hoe & Hol & Hof); [congruence|].
  rewrite Hot. cbn [mbind res_mbind res_bind].
  destruct Hoe as (Hh2 & Ho2 & Hs2 & Hsc2 & Hc2 & Hk2 & Hp2 & _).
  destruct (length_3_inv reds Hrl) as (t0 & r1 & r2 & ->).
  rewrite Hh1, length_app in Ho2. rewrite Ho1, Hrl, Hol in Ho2. cbn [length] in Ho2.
  assert (Hobj : gameObjects m2 = seq (length (heap m)) 10).
  { rewrite Ho2. replace 10%nat with (3 + 7)%nat by reflexivity.
    rewrite seq_app. reflexivity. }
  assert (Hheap : heap m2 = heap m ++ t0 :: r1 :: r2 :: cs).
  { rewrite Hh2, Hh1, <- app_assoc. reflexivity. }
  rewrite Hobj. cbn [seq lookup list_lookup set_player player defined heap
                     mbind res_mbind res_bind].
  assert (Hl0 : heap m2 !! length (heap m) = Some t0).
  { rewrite Hheap. rewrite lookup_app_r by lia. rewrite Nat.sub_diag. reflexivity. }
  unfold deref. rewrite Hl0. cbn [defined mbind res_mbind res_bind].
  eexists _, _. split; [reflexivity|].
  apply Forall_cons in Hrf. destruct Hrf as [[Hok0 _] Hrf].
  apply Forall_cons in Hrf. destruct Hrf as [H1 Hrf].
  apply Forall_cons in Hrf. destruct Hrf as [H2 _].
  exists t0, r1, r2, cs. cbn.
  split.
  { rewrite Hheap. rewrite insert_app_r_alt by lia. rewrite Nat.sub_diag. reflexivity. }
  repeat split; try assumption; try congruence;
    try apply H1; try apply H2; apply Hok0.
Qed.

Lemma spawned_ok_set_color (c : Color) (o : Triangle.t) :
  spawned_ok o -> spawned_ok (Triangle.set_color c o).
Proof. intros H. exact H. Qed.

Lemma lookup_new (pre new : Heap) (i : nat) :
  (pre ++ new) !! (length pre + i)%nat = new !! i.
Proof. rewrite lookup_app_r by lia. f_equal. lia. Qed.

Lemma elem_of_seq_inv (r L n : nat) :
  r ∈ seq L n -> exists i, (i < n)%nat /\ r = (L + i)%nat.
Proof. rewrite elem_of_seq. intros H. exists (r - L)%nat. lia. Qed.

(** Every spawned entity has the fixed size and a position inside the
    padded bounds. *)
Lemma spawned_objects (m m' : GameModel) :
  spawned m m' ->
  length (gameObjects m') = 10%nat /\
  forall r, r ∈ gameObjects m' ->
            exists o, heap m' !! r = Some o /\ spawned_ok o.
Proof.
  intros (t0 & r1 & r2 & cs & Hh & Ho & Hp & Hl & H0 & [H1 _] & [H2 _] & Hcs & _).
  split; [rewrite Ho; apply length_seq|].
  intros r Hr. rewrite Ho in Hr. apply elem_of_seq_inv in Hr.
  destruct Hr as (i & Hi & ->). rewrite Hh, lookup_new.
  assert (Hall : Forall spawned_ok (Triangle.set_color green t0 :: r1 :: r2 :: cs)).
  { apply Forall_cons. split; [exact H0|].
    apply Forall_cons. split; [exact H1|].
    apply Forall_cons. split; [exact H2|].
    eapply Forall_impl; [exact Hcs|]. intros o [Hok _]. exact Hok. }
  rewrite Forall_lookup in Hall.
  destruct (lookup_lt_is_Some_2 (Triangle.set_color green t0 :: r1 :: r2 :: cs) i)
    as [o Hoi]; [cbn; lia|].
  exists o. split; [exact Hoi|]. exact (Hall i o Hoi).
Qed.

Lemma color_of_new (pre new : Heap) (o : Triangle.t) :
  color_of (pre ++ o :: new) (length pre) = Triangle.color o.
Proof.
  unfold color_of. rewrite lookup_app_r by lia. rewrite Nat.sub_diag. reflexivity.
Qed.

Lemma hazards_new (pre new : Heap) :
  length (hazards (pre ++ new) (seq (length pre) (length new))) =
  length (filter (fun o => is_red (Triangle.color o) = true) new).
Proof.
  revert pre. induction new as [|o new IH]; intros pre; [reflexivity|].
  cbn [length seq]. unfold hazards. rewrite !filter_cons.
  rewrite color_of_new.
  specialize (IH (pre ++ [o])). rewrite <- app_assoc, length_app in IH. cbn in IH.
  replace (length pre + 1)%nat with (S (length pre)) in IH by lia.
  unfold hazards in IH.
  destruct (decide (is_red (Triangle.color o) = true)); cbn [length]; rewrite IH; reflexivity.
Qed.

Lemma filter_none {A : Type} (P : A -> Prop) `{forall a, Decision (P a)} (l : list A) :
  Forall (fun a => ~ P a) l -> filter P l = [].
Proof.
  induction 1 as [|a l Ha Hl IH]; [reflexivity|].
  rewrite filter_cons, decide_False by exact Ha. exact IH.
Qed.

(** Of the nine entities after the player, exactly two are hazards. *)
Lemma spawned_hazards (m m' : GameModel) :
  spawned m m' ->
  exists p rest, gameObjects m' = p :: rest /\ player m' = Some p /\
                 length rest = 9%nat /\
                 length (hazards (heap m') rest) = 2%nat.
Proof.
  intros (t0 & r1 & r2 & cs & Hh & Ho & Hp & Hl & H0 & [_ C1] & [_ C2] & Hcs & _).
  exists (length (heap m)), (seq (S (length (heap m))) 9).
  split; [rewrite Ho; reflexivity|]. split; [exact Hp|].
  split; [apply length_seq|].
  rewrite Hh.
  replace (heap m ++ Triangle.set_color green t0 :: r1 :: r2 :: cs)
    with ((heap m ++ [Triangle.set_color green t0]) ++ r1 :: r2 :: cs)
    by (rewrite <- app_assoc; reflexivity).
  replace (S (length (heap m))) with (length (heap m ++ [Triangle.set_color green t0]))
    by (rewrite length_app; cbn; lia).
  replace 9%nat with (length (r1 :: r2 :: cs)) by (cbn; lia).
  rewrite hazards_new, !filter_cons, C1, C2.
  rewrite !decide_True by reflexivity. cbn [length].
  rewrite filter_none; [reflexivity|].
  eapply Forall_impl; [exact Hcs|]. intros o [_ Hred]. cbn. congruence.
Qed.

(** The spawned world satisfies the invariant of a round. *)
Lemma spawned_round_inv (m m' : GameModel) : spawned m m' -> round_inv m'.
Proof.
  intros Hsp. pose proof (spawned_objects m m' Hsp) as [_ Hobjs].
  destruct Hsp as (t0 & r1 & r2 & cs & Hh & Ho & Hp & Hl & H0 & _).
  exists (length (heap m)), (seq (S (length (heap m))) 9), (Triangle.set_color green t0).
  split; [exact Hp|]. split; [rewrite Ho; reflexivity|].
  split; [change (NoDup (seq (length (heap m)) 10)); apply NoDup_seq|].
  split.
  { unfold refs_ok. rewrite Forall_forall. intros r Hr.
    destruct (Hobjs r Hr) as (o & Hlo & _). eapply lookup_lt_Some. exact Hlo. }
  split.
  { rewrite Hh. rewrite <- (Nat.add_0_r (length (heap m))) at 1.
    rewrite lookup_new. reflexivity. }
  destruct H0 as (Hs & Fx & Fy & Bx & By).
  split; [reflexivity|]. split; [exact Hs|].
  split; apply in_bounds_coord_ok; assumption.
Qed.

(** ** Hazards in the collision pass *)

(** The body of the collision loops, as a total step on well-formed
    worlds that keeps [P]. *)
Lemma collide_step (P : GameModel -> Prop) :
  (forall m, P m -> refs_ok m) ->
  (forall m i j m', P m -> (i < j)%nat -> (j < nobjects m)%nat ->
                    pair_effect m i j m' -> P m') ->
  forall i j s, P s -> (i < j)%nat -> (j < nobjects s)%nat ->
    exists s', collide i j s = Ok s' /\ P s' /\ (nobjects s' <= nobjects s)%nat.
Proof.
  intros Hrefs Hstep i j s HPs Hij Hj.
  assert (Hi : (i < nobjects s)%nat) by lia.
  destruct (collide_effect s i j (Hrefs s HPs) Hi Hj) as (s' & Hc & He).
  exists s'. split; [exact Hc|]. split; [exact (Hstep s i j s' HPs Hij Hj He)|].
  eapply pair_effect_length; eassumption.
Qed.

(** Red entities are never removed by a handled pair. *)
Lemma pair_effect_keeps_red (m m' : GameModel) (i j : nat) (r : loc) :
  pair_effect m i j m' ->
  r ∈ gameObjects m -> is_red (color_of (heap m) r) = true ->
  r ∈ gameObjects m'.
Proof.
  intros He Hr Hred.
  destruct He as [r1 r2 o1 o2 _ _ _ _ _ ->|r1 r2 o1 o2 H1 H2 _ _ _ Hc]; [exact Hr|].
  destruct Hc as [Hn|o Hn Ho Hro|o index Hn Ho Hro Hidx|o Hn Ho Hro Hidx]; cbn;
    try exact Hr.
  apply indexOf_Some in Hidx.
  eapply elem_of_delete_ne; [exact Hidx| |exact Hr].
  intros ->. unfold color_of in Hred. rewrite Ho in Hred. congruence.
Qed.

Lemma lost_kept_step (m0 m m' : GameModel) (i j : nat) :
  lost_kept m0 m -> pair_effect m i j m' -> lost_kept m0 m'.
Proof.
  intros (Hr & Hh & Hp & Hs & Hk) He.
  pose proof (pair_effect_frame _ _ _ _ He) as (Hh' & Hp' & _ & _ & Hst & Hsub).
  split; [eapply refs_ok_sublist; eassumption|].
  split; [congruence|]. split; [congruence|].
  split; [destruct Hst; congruence|].
  intros r Hr0 Hred. eapply pair_effect_keeps_red; [exact He|auto|].
  rewrite Hh. exact Hred.
Qed.

Lemma red_kept_step (m0 m m' : GameModel) (i j : nat) :
  red_kept m0 m -> pair_effect m i j m' -> red_kept m0 m'.
Proof.
  intros (Hr & Hh & Hp & Hk) He.
  pose proof (pair_effect_frame _ _ _ _ He) as (Hh' & Hp' & _ & _ & Hst & Hsub).
  split; [eapply refs_ok_sublist; eassumption|].
  split; [congruence|]. split; [congruence|].
  intros r Hr0 Hred. eapply pair_effect_keeps_red; [exact He|auto|].
  rewrite Hh. exact Hred.
Qed.

Lemma red_kept_pass (m : GameModel) :
  refs_ok m -> exists m', checkCollisions m = Ok m' /\ red_kept m m'.
Proof.
  intros Hr. apply (checkCollisions_inv (red_kept m)).
  - intros s Hs. apply Hs.
  - intros s i j s' Hs _ _ He. eapply red_kept_step; eassumption.
  - repeat split; auto.
Qed.

(** The pair of the player, at the head, and a red entity. *)
Lemma collide_player_hazard (m : GameModel) (j p h : loc)
    (op oh : Triangle.t) :
  player m = Some p -> gameObjects m !! 0%nat = Some p ->
  gameObjects m !! j = Some h ->
  heap m !! p = Some op -> heap m !! h = Some oh ->
  is_red (Triangle.color oh) = true ->
  collide 0 j m = Ok (if isColliding op oh then set_gameState lost m else m).
Proof.
  intros Hp H0 Hj Hop Hoh Hred. unfold collide, deref.
  rewrite H0, Hj. cbn [defined mbind res_mbind res_bind].
  rewrite Hop, Hoh. cbn [defined mbind res_mbind res_bind].
  destruct (isColliding op oh); [|reflexivity].
  unfold handleCollision, deref.
  assert (Hip : is_player m p = true) by (apply is_player_true; exact Hp).
  rewrite Hip. cbn [orb]. rewrite Hoh. cbn [defined mbind res_mbind res_bind].
  rewrite Hred. reflexivity.
Qed.

Lemma lookup_after_front (p : loc) (front rest : list loc) (r : loc) :
  (p :: front ++ r :: rest) !! S (length front) = Some r.
Proof.
  change ((front ++ r :: rest) !! length front = Some r).
  apply list_lookup_middle. reflexivity.
Qed.

(** The first inner loop, from a position [j] in the run of hazards that
    follows the player: if the player collides with the hazard [h] that
    ends the run, the loop ends with LOST and every red entity. *)
Lemma inner_loop_hazard (m0 : GameModel) (p h : loc) (op oh : Triangle.t)
    (pre post : list loc) :
  heap m0 !! p = Some op -> heap m0 !! h = Some oh ->
  is_red (Triangle.color oh) = true -> isColliding op oh = true ->
  Forall (fun r => is_red (color_of (heap m0) r) = true) pre ->
  forall (front : list loc) (fuel : nat) (m : GameModel),
    red_kept m0 m -> player m = Some p ->
    gameObjects m = p :: front ++ pre ++ h :: post ->
    (nobjects m <= fuel + S (length front))%nat ->
    exists m', inner_loop nobjects collide fuel 0 (S (length front)) m = Ok m' /\
               lost_kept m0 m' /\ (nobjects m' <= nobjects m)%nat.
Proof.
  intros Hop Hoh Hred Hcol Hpre.
  assert (Hrest : forall fuel j m, lost_kept m0 m -> (0 < j)%nat ->
            (nobjects m <= fuel + j)%nat ->
            exists m', inner_loop nobjects collide fuel 0 j m = Ok m' /\
                       lost_kept m0 m' /\ (nobjects m' <= nobjects m)%nat).
  { intros fuel j m Hk Hj Hf.
    apply (inner_loop_total nobjects collide (lost_kept m0)); try assumption.
    apply collide_step.
    - intros s Hs. apply Hs.
    - intros s i j' s' Hs _ _ He. eapply lost_kept_step; eassumption. }
  induction Hpre as [|r pre Hr Hpre IH]; intros front fuel m Hk Hp Hobj Hf.
  - (* the colliding hazard is next *)
    rewrite inner_loop_eq.
    assert (Hlen : (S (length front) < nobjects m)%nat).
    { unfold nobjects. rewrite Hobj. cbn. rewrite length_app. cbn. lia. }
    destruct (Nat.ltb_spec (S (length front)) (nobjects m)) as [_|]; [|lia].
    destruct fuel as [|fuel]; [lia|].
    destruct Hk as (Hrefs & Hh & Hpl & Hkeep).
    rewrite (collide_player_hazard m (S (length front)) p h op oh); try assumption;
      try (rewrite Hh; assumption).
    2: { rewrite Hobj. reflexivity. }
    2: { rewrite Hobj. apply lookup_after_front. }
    rewrite Hcol. cbn [mbind res_mbind res_bind].
    assert (Hk1 : lost_kept m0 (set_gameState lost m)) by (repeat split; auto).
    assert (Hf1 : (nobjects (set_gameState lost m) <= fuel + S (S (length front)))%nat)
      by (change (nobjects (set_gameState lost m)) with (nobjects m); lia).
    destruct (Hrest fuel (S (S (length front))) (set_gameState lost m) Hk1
                ltac:(lia) Hf1) as (m' & Hm' & Hk' & Hl').
    exists m'. split; [exact Hm'|]. split; [exact Hk'|exact Hl'].
  - (* another hazard first *)
    rewrite inner_loop_eq.
    assert (Hlen : (S (length front) < nobjects m)%nat).
    { unfold nobjects. rewrite Hobj. cbn. rewrite length_app. cbn. lia. }
    destruct (Nat.ltb_spec (S (length front)) (nobjects m)) as [_|]; [|lia].
    destruct fuel as [|fuel]; [lia|].
    pose proof Hk as (Hrefs & Hh & Hpl & Hkeep).
    assert (Hrm : is_red (color_of (heap m) r) = true) by (rewrite Hh; exact Hr).
    unfold color_of in Hrm. destruct (heap m !! r) as [or|] eqn:Hor; [|discriminate].
    rewrite (collide_player_hazard m (S (length front)) p r op or); try assumption;
      try (rewrite Hh; assumption).
    2: { rewrite Hobj. reflexivity. }
    2: { rewrite Hobj. apply lookup_after_front. }
    destruct (isColliding op or); cbn [mbind res_mbind res_bind].
    + assert (Hk1 : lost_kept m0 (set_gameState lost m)) by (repeat split; auto).
      assert (Hf1 : (nobjects (set_gameState lost m) <= fuel + S (S (length front)))%nat)
        by (change (nobjects (set_gameState lost m)) with (nobjects m); lia).
      destruct (Hrest fuel (S (S (length front))) (set_gameState lost m) Hk1
                  ltac:(lia) Hf1) as (m' & Hm' & Hk' & Hl').
      exists m'. split; [exact Hm'|]. split; [exact Hk'|exact Hl'].
    + assert (Hobj' : gameObjects m = p :: (front ++ [r]) ++ pre ++ h :: post)
        by (rewrite Hobj, <- app_assoc; reflexivity).
      assert (Hf' : (nobjects m <= fuel + S (length (front ++ [r])))%nat)
        by (rewrite length_app; cbn; lia).
      destruct (IH (front ++ [r]) fuel m Hk Hp Hobj' Hf') as (m' & Hm' & Hk' & Hl').
      rewrite length_app in Hm'. cbn in Hm'.
      replace (length front + 1)%nat with (S (length front)) in Hm' by lia.
      exists m'. split; [exact Hm'|]. split; [exact Hk'|exact Hl'].
Qed.

(** ** The log of compared pairs does not change the pass *)

Lemma collide_log_erase (i j : nat) (s : GameModel * list (loc * loc)) :
  erase (collide_log i j s) = collide i j s.1.
Proof.
  unfold collide_log, collide.
  destruct (gameObjects s.1 !! i) as [r1|]; [|reflexivity].
  destruct (gameObjects s.1 !! j) as [r2|]; [|reflexivity].
  cbn [defined mbind res_mbind res_bind].
  destruct (deref (heap s.1) r1) as [o1| |]; try reflexivity.
  destruct (deref (heap s.1) r2) as [o2| |]; try reflexivity.
  cbn [mbind res_mbind res_bind].
  destruct (isColliding o1 o2); [|reflexivity].
  destruct (handleCollision r1 r2 s.1); reflexivity.
Qed.

Lemma erase_Ok_inv (r : Res (GameModel * list (loc * loc))) (m : GameModel) :
  erase r = Ok m -> exists l, r = Ok (m, l).
Proof.
  destruct r as [[m' l]| |]; cbn; intros H; try discriminate.
  injection H as <-. exists l. reflexivity.
Qed.

Lemma inner_loop_erase (fuel i j : nat) (s : GameModel * list (loc * loc)) :
  erase (inner_loop (fun s => nobjects s.1) collide_log fuel i j s) =
  inner_loop nobjects collide fuel i j s.1.
Proof.
  revert j s. induction fuel as [|fuel IH]; intros j s; rewrite !inner_loop_eq.
  - destruct (j <? nobjects s.1)%nat; reflexivity.
  - destruct (j <? nobjects s.1)%nat; [|reflexivity].
    rewrite <- collide_log_erase.
    destruct (collide_log i j s) as [s'| |]; try reflexivity.
    cbn [erase mbind res_mbind res_bind]. apply IH.
Qed.

Lemma outer_loop_erase (fuel i : nat) (s : GameModel * list (loc * loc)) :
  erase (outer_loop (fun s => nobjects s.1) collide_log fuel i s) =
  outer_loop nobjects collide fuel i s.1.
Proof.
  revert i s. induction fuel as [|fuel IH]; intros i s; rewrite !outer_loop_eq.
  - destruct (i <? nobjects s.1)%nat; reflexivity.
  - destruct (i <? nobjects s.1)%nat; [|reflexivity].
    rewrite <- inner_loop_erase.
    destruct (inner_loop _ collide_log _ i (S i) s) as [s'| |]; try reflexivity.
    cbn [erase mbind res_mbind res_bind]. apply IH.
Qed.

(** The pass with the log is the pass. *)
Lemma checkCollisions_log_erase (m : GameModel) :
  erase (checkCollisions_log m) = checkCollisions m.
Proof. apply (outer_loop_erase (nobjects m) 0 (m, [])). Qed.

(** ** The collision predicate *)

Lemma isColliding_swap (a b : Triangle.t) :
  Triangle.size a = Triangle.size b -> isColliding a b = isColliding b a.
Proof.
  intros Hs. unfold isColliding. cbn zeta.
  rewrite (sub_swap_square (Triangle.x a) (Triangle.x b)).
  rewrite (sub_swap_square (Triangle.y a) (Triangle.y b)).
  rewrite Hs. reflexivity.
Qed.

(** ** The win check *)

(** In a round, the entity that is left when exactly one entity is not
    red is the player. *)
Lemma round_inv_last_non_red (m : GameModel) (p : loc) :
  round_inv m -> player m = Some p -> length (non_red m) = 1%nat ->
  non_red m = [p].
Proof.
  intros (p' & rest & o & Hp & Hobj & Hnd & Hr & Ho & Hgreen & _) Hp' Hlen.
  assert (p' = p) by congruence. subst p'.
  unfold non_red in *. rewrite Hobj in *. rewrite filter_cons in *.
  assert (Hc : is_red (color_of (heap m) p) = false).
  { unfold color_of. rewrite Ho, Hgreen. reflexivity. }
  destruct (decide (is_red (color_of (heap m) p) = false)) as [_|Hn]; [|contradiction].
  cbn in Hlen. f_equal. apply nil_length_inv. lia.
Qed.

(** ** The state WON in a round *)









(** * The properties of the specification *)


Lemma world_wf (o : Triangle.t) (h : Heap) : wf (world (o :: h)).
Proof.
  split.
  - unfold refs_ok, world. cbn [gameObjects heap]. rewrite Forall_forall.
    intros r Hr. apply elem_of_seq in Hr. lia.
  - exists 0%nat. split; [reflexivity|]. cbn. lia.
Qed.

Lemma always_random_source (r : num) : random_ok r = true -> random_source (always r).
Proof. intros H k. exact H. Qed.

Lemma blank_world_spawn (rand : nat -> num) (fuel k : nat) (m : GameModel) :
  random_source rand -> (1 <= fuel)%nat -> colors m = palette ->
  exists m0 k', initializeGame rand fuel k m = Ok (m0, k') /\ round_inv m0 /\
                gameState m0 = playing.
Proof.
  intros Hrand Hfuel Hcol. unfold initializeGame.
  destruct (createGameObjects_spec rand fuel k
              (set_score (of_Z 0) (set_gameState playing m)) Hrand Hfuel Hcol)
    as (m0 & k' & Hc & Hsp).
  exists m0, k'. split; [exact Hc|]. split; [eapply spawned_round_inv; exact Hsp|].
  destruct Hsp as (t0 & r1 & r2 & cs & _ & _ & _ & _ & _ & _ & _ & _ & Hs & _).
  exact Hs.
Qed.

(** ** C1: the terminal state within a round *)




(** ** C2: a collision with a hazard *)

(** C2, as stated, fails: the player touches a hazard and the last
    collectible in the same tick; after LOST is set for the hazard the pass
    goes on, removes the collectible, adds 10 to the score, and the tick
    ends WON. *)
Lemma C2_hazard_does_not_end_the_pass :
  (exists p h, heap hazard_and_collectible_world !! 0%nat = Some p /\
               heap hazard_and_collectible_world !! 1%nat = Some h /\
               is_red (Triangle.color h) = true /\ isColliding p h = true) /\
  score hazard_and_collectible_world = of_Z 0 /\
  gameObjects hazard_and_collectible_world = [0; 1; 2; 3]%nat /\
  exists m', update hazard_and_collectible_world = Ok m' /\
             gameState m' = won /\ gameObjects m' = [0; 1; 2]%nat /\
             score m' = of_Z 10.
Proof.
  split; [do 2 eexists; repeat split; reflexivity|].
  split; [reflexivity|]. split; [reflexivity|].
  eexists. split; [vm_compute; reflexivity|]. repeat split; reflexivity.
Qed.

(** C2, amended: when the player, at the head of the collection with only
    hazards between it and the hazard [h], collides with [h], the call of
    [handleCollision] for that pair sets LOST and changes nothing else (no
    entity removed, no score added for the pair), and the collision pass
    ends with LOST and with every red entity still in the collection. (The
    later pairs of the pass are still handled, and the win check that
    follows may replace LOST by WON.) *)
Theorem C2_hazard_collision_sets_lost (m : GameModel) (p h : loc)
    (pre post : list loc) (op oh : Triangle.t) :
  refs_ok m -> player m = Some p ->
  gameObjects m = p :: pre ++ h :: post ->
  Forall (fun r => is_red (color_of (heap m) r) = true) pre ->
  heap m !! p = Some op -> heap m !! h = Some oh ->
  is_red (Triangle.color oh) = true -> isColliding op oh = true ->
  handleCollision p h m = Ok (set_gameState lost m) /\
  exists m', checkCollisions m = Ok m' /\ gameState m' = lost /\
             forall r, r ∈ gameObjects m ->
                       is_red (color_of (heap m) r) = true ->
                       r ∈ gameObjects m'.
Proof.
  intros Hr Hp Hobj Hpre Hop Hoh Hred Hcol. split.
  - unfold handleCollision, deref.
    assert (Hip : is_player m p = true) by (apply is_player_true; exact Hp).
    rewrite Hip. cbn [orb]. rewrite Hoh. cbn [defined mbind res_mbind res_bind].
    rewrite Hred. reflexivity.
  - unfold checkCollisions. rewrite outer_loop_eq.
    assert (Hn : nobjects m = S (length (pre ++ h :: post)))
      by (unfold nobjects; rewrite Hobj; reflexivity).
    rewrite Hn. cbn [Nat.ltb Nat.leb]. rewrite <- Hn.
    assert (Hk0 : red_kept m m) by (repeat split; auto).
    assert (Hobj0 : gameObjects m = p :: [] ++ pre ++ h :: post) by exact Hobj.
    assert (Hf0 : (nobjects m <= nobjects m + S (length (@nil loc)))%nat) by lia.
    destruct (inner_loop_hazard m p h op oh pre post Hop Hoh Hred Hcol Hpre
                [] (nobjects m) m Hk0 Hp Hobj0 Hf0) as (m1 & Hm1 & Hk1 & Hl1).
    cbn [length] in Hm1. rewrite Hm1. cbn [mbind res_mbind res_bind].
    assert (Hbody : forall i j s, lost_kept m s -> (i < j)%nat -> (j < nobjects s)%nat ->
              exists s', collide i j s = Ok s' /\ lost_kept m s' /\
                         (nobjects s' <= nobjects s)%nat).
    { apply collide_step.
      - intros s Hs. apply Hs.
      - intros s i j s' Hs _ _ He. eapply lost_kept_step; eassumption. }
    assert (Hf1 : (nobjects m1 <= length (pre ++ h :: post) + 1)%nat) by lia.
    destruct (outer_loop_total nobjects collide (lost_kept m) Hbody
                (length (pre ++ h :: post)) 1%nat m1 Hk1 Hf1) as (m' & Hm' & Hk' & _).
    exists m'. split; [exact Hm'|].
    destruct Hk' as (_ & _ & _ & Hs' & Hkeep). split; [exact Hs'|exact Hkeep].
Qed.

Lemma C2_hazard_collision_sets_lost_witness :
  handleCollision 0%nat 1%nat hazard_and_collectible_world
  = Ok (set_gameState lost hazard_and_collectible_world) /\
  exists m', checkCollisions hazard_and_collectible_world = Ok m' /\
             gameState m' = lost /\
             forall r, r ∈ gameObjects hazard_and_collectible_world ->
                       is_red (color_of (heap hazard_and_collectible_world) r) = true ->
                       r ∈ gameObjects m'.
Proof.
  apply (C2_hazard_collision_sets_lost hazard_and_collectible_world 0%nat 1%nat
           [] [2; 3]%nat (entity (of_Z 0) (of_Z 0) green)
           (entity (of_Z 0) lit_0_0625 red)).
  - apply world_wf.
  - reflexivity.
  - reflexivity.
  - constructor.
  - reflexivity.
  - reflexivity.
  - reflexivity.
  - vm_compute. reflexivity.
Defined.

(** ** C3: the hazards among the remaining nine *)

(** C3: the source announces "at least 3 red triangles", and the claim
    asks for at least 3 hazards among the 9 entities after the player. The
    code creates exactly three red triangles and recolours the first of
    them green: for every run of the spawn policy exactly 2 of the
    remaining 9 entities are hazards. *)
Theorem C3_spawn_leaves_two_hazards (rand : nat -> num) (fuel k : nat)
    (m : GameModel) :
  random_source rand -> (1 <= fuel)%nat -> colors m = palette ->
  exists m' k' p rest,
    createGameObjects rand fuel k m = Ok (m', k') /\
    player m' = Some p /\ gameObjects m' = p :: rest /\
    length rest = 9%nat /\ length (hazards (heap m') rest) = 2%nat.
Proof.
  intros Hrand Hfuel Hcol.
  destruct (createGameObjects_spec rand fuel k m Hrand Hfuel Hcol) as (m' & k' & Hc & Hsp).
  destruct (spawned_hazards m m' Hsp) as (p & rest & Hobj & Hp & Hlen & Hhaz).
  exists m', k', p, rest. repeat split; assumption.
Qed.

Lemma C3_spawn_leaves_two_hazards_witness :
  random_source (always lit_0_5) /\ (1 <= 1)%nat /\ colors blank_world = palette /\
  exists m' k' p rest,
    createGameObjects (always lit_0_5) 1 0 blank_world = Ok (m', k') /\
    player m' = Some p /\ gameObjects m' = p :: rest /\
    length rest = 9%nat /\ length (hazards (heap m') rest) = 2%nat.
Proof.
  assert (H1 : random_source (always lit_0_5))
    by (apply always_random_source; reflexivity).
  assert (H2 : (1 <= 1)%nat) by lia.
  assert (H3 : colors blank_world = palette) by reflexivity.
  split; [exact H1|]. split; [exact H2|]. split; [exact H3|].
  exact (C3_spawn_leaves_two_hazards (always lit_0_5) 1 0 blank_world H1 H2 H3).
Defined.

(** ** C4: the bounds of the player *)

(** C4, as stated, fails: the guard tests the coordinate before the step,
    not after it. With [y = 0.895], inside the bounds, and ArrowUp held, the
    step is taken and leaves [y] above [1 - size]. *)
Lemma C4_step_leaves_bounds :
  (exists o, heap near_top_world !! 0%nat = Some o /\
             player near_top_world = Some 0%nat /\ Triangle.size o = lit_0_1 /\
             in_bounds lit_0_1 (Triangle.x o) = true /\
             in_bounds lit_0_1 (Triangle.y o) = true) /\
  exists m' o', update near_top_world = Ok m' /\
                player m' = Some 0%nat /\ heap m' !! 0%nat = Some o' /\
                leb (Triangle.y o') (sub (of_Z 1) (Triangle.size o')) = false /\
                in_bounds lit_0_1 (Triangle.y o') = false.
Proof.
  split.
  - eexists. repeat split; reflexivity.
  - eexists _, _. split; [vm_compute; reflexivity|].
    split; [reflexivity|]. split; [reflexivity|]. split; reflexivity.
Qed.

(** C4, amended: after initialization and every sequence of key events and
    ticks, the player's x and y are finite numbers within
    [(-1 + size) - 0.01, (1 - size) + 0.01] (the bounds as binary64
    computes them): a step is taken when the coordinate before the step is
    strictly inside [-1 + size, 1 - size] on that side, so it can pass that
    bound by one step at most. *)
Theorem C4_player_within_one_step (rand : nat -> num) (fuel k : nat)
    (m : GameModel) (start duration : Z) (events : list Event) :
  random_source rand -> (1 <= fuel)%nat -> colors m = palette ->
  exists m0 k' c' p o,
    initializeGame rand fuel k m = Ok (m0, k') /\
    run events (mkGameController m0 start duration) = Ok c' /\
    player (model c') = Some p /\ heap (model c') !! p = Some o /\
    coord_ok (Triangle.x o) = true /\ coord_ok (Triangle.y o) = true.
Proof.
  intros Hrand Hfuel Hcol.
  destruct (blank_world_spawn rand fuel k m Hrand Hfuel Hcol) as (m0 & k' & Hi & Hinv & _).
  destruct (run_round_inv events (mkGameController m0 start duration) Hinv)
    as (c' & Hrun & Hinv').
  destruct Hinv' as (p & rest & o & Hp & _ & _ & _ & Ho & _ & _ & Hx & Hy).
  exists m0, k', c', p, o. repeat split; assumption.
Qed.

Lemma C4_player_within_one_step_witness :
  random_source (always lit_0_5) /\ (1 <= 1)%nat /\ colors blank_world = palette /\
  exists m0 k' c' p o,
    initializeGame (always lit_0_5) 1 0 blank_world = Ok (m0, k') /\
    run [KeyDown "ArrowUp"; Frame 16; Frame 33; KeyDown "ArrowLeft"; Frame 50]
      (mkGameController m0 0 60000) = Ok c' /\
    player (model c') = Some p /\ heap (model c') !! p = Some o /\
    coord_ok (Triangle.x o) = true /\ coord_ok (Triangle.y o) = true.
Proof.
  assert (H1 : random_source (always lit_0_5))
    by (apply always_random_source; reflexivity).
  assert (H2 : (1 <= 1)%nat) by lia.
  assert (H3 : colors blank_world = palette) by reflexivity.
  split; [exact H1|]. split; [exact H2|]. split; [exact H3|].
  exact (C4_player_within_one_step (always lit_0_5) 1 0 blank_world 0 60000
           [KeyDown "ArrowUp"; Frame 16; Frame 33; KeyDown "ArrowLeft"; Frame 50]
           H1 H2 H3).
Defined.

(** ** C5: the pairs of a collision pass *)

(** C5: the loops are written to visit every pair [i < j], but the splice
    inside them shifts the collection under the running index. Here the
    player lies on two collectibles that follow each other: the first is
    removed, the second moves into its slot, and the pair of the player and
    the second collectible is never compared in this pass although both are
    live before and after it. *)
Theorem C5_pass_skips_a_live_pair :
  gameObjects two_collectibles_world = [0; 1; 2; 3; 4]%nat /\
  exists m' log,
    checkCollisions_log two_collectibles_world = Ok (m', log) /\
    checkCollisions two_collectibles_world = Ok m' /\
    gameObjects m' = [0; 1; 2; 4]%nat /\
    log = [(0, 1); (0, 2); (0, 3); (1, 2); (1, 4); (2, 4)]%nat /\
    ((0%nat, 4%nat) ∉ log) /\ ((4%nat, 0%nat) ∉ log).
Proof.
  split; [reflexivity|]. eexists _, _.
  split; [vm_compute; reflexivity|].
  split; [vm_compute; reflexivity|].
  split; [reflexivity|]. split; [reflexivity|].
  split; intros H; repeat (apply elem_of_cons in H; destruct H as [H|H]; [discriminate|]);
    inversion H.
Qed.

(** ** C6: the timeout *)




(** ** C7: the player and the colour green *)

(** C7, as stated, fails: the palette of the collectibles contains green.
    When every draw of [Math.random] is 0.25 the seven collectibles are
    green as well, and the collection holds 8 green entities. *)
Lemma C7_collectibles_may_be_green :
  random_source (always lit_0_25) /\
  exists m k, constructor (always lit_0_25) 1 0 (of_Z 800) (of_Z 700) = Ok (m, k) /\
              gameState m = playing /\ length (gameObjects m) = 10%nat /\
              length (greens m) = 8%nat.
Proof.
  split; [apply always_random_source; reflexivity|].
  eexists _, _. split; [vm_compute; reflexivity|]. repeat split; reflexivity.
Qed.

(** C7, amended: after initialization and every sequence of key events and
    ticks, exactly one entity of the collection is the player (the object
    [this.player] refers to): it is the first element, it occurs once, and
    its colour is opaque green [0, 1, 0, 1]. Other entities may be green
    too. *)
Theorem C7_one_player_always_green (rand : nat -> num) (fuel k : nat)
    (m : GameModel) (start duration : Z) (events : list Event) :
  random_source rand -> (1 <= fuel)%nat -> colors m = palette ->
  exists m0 k' c' p rest o,
    initializeGame rand fuel k m = Ok (m0, k') /\
    run events (mkGameController m0 start duration) = Ok c' /\
    player (model c') = Some p /\ gameObjects (model c') = p :: rest /\
    (p ∉ rest) /\ heap (model c') !! p = Some o /\ Triangle.color o = green.
Proof.
  intros Hrand Hfuel Hcol.
  destruct (blank_world_spawn rand fuel k m Hrand Hfuel Hcol) as (m0 & k' & Hi & Hinv & _).
  destruct (run_round_inv events (mkGameController m0 start duration) Hinv)
    as (c' & Hrun & Hinv').
  destruct Hinv' as (p & rest & o & Hp & Hobj & Hnd & _ & Ho & Hg & _).
  exists m0, k', c', p, rest, o. repeat split; try assumption.
  apply NoDup_cons in Hnd. apply Hnd.
Qed.

Lemma C7_one_player_always_green_witness :
  random_source (always lit_0_25) /\ (1 <= 1)%nat /\ colors blank_world = palette /\
  exists m0 k' c' p rest o,
    initializeGame (always lit_0_25) 1 0 blank_world = Ok (m0, k') /\
    run [KeyDown "ArrowRight"; Frame 16; KeyUp "ArrowRight"; Frame 33]
      (mkGameController m0 0 60000) = Ok c' /\
    player (model c') = Some p /\ gameObjects (model c') = p :: rest /\
    (p ∉ rest) /\ heap (model c') !! p = Some o /\ Triangle.color o = green.
Proof.
  assert (H1 : random_source (always lit_0_25))
    by (apply always_random_source; reflexivity).
  assert (H2 : (1 <= 1)%nat) by lia.
  assert (H3 : colors blank_world = palette) by reflexivity.
  split; [exact H1|]. split; [exact H2|]. split; [exact H3|].
  exact (C7_one_player_always_green (always lit_0_25) 1 0 blank_world 0 60000
           [KeyDown "ArrowRight"; Frame 16; KeyUp "ArrowRight"; Frame 33] H1 H2 H3).
Defined.

(** ** C8: the spawn policy *)

(** C8: every run of the spawn policy returns a collection of exactly 10
    entities, each of the fixed size 0.1 and with both coordinates finite
    and inside [-1 + s, 1 - s], the player included. *)
Theorem C8_spawn_ten_entities_in_bounds (rand : nat -> num) (fuel k : nat)
    (m : GameModel) :
  random_source rand -> (1 <= fuel)%nat -> colors m = palette ->
  exists m' k',
    createGameObjects rand fuel k m = Ok (m', k') /\
    length (gameObjects m') = 10%nat /\
    forall r, r ∈ gameObjects m' ->
      exists o, heap m' !! r = Some o /\ Triangle.size o = lit_0_1 /\
                in_bounds lit_0_1 (Triangle.x o) = true /\
                in_bounds lit_0_1 (Triangle.y o) = true.
Proof.
  intros Hrand Hfuel Hcol.
  destruct (createGameObjects_spec rand fuel k m Hrand Hfuel Hcol) as (m' & k' & Hc & Hsp).
  destruct (spawned_objects m m' Hsp) as (Hlen & Hobjs).
  exists m', k'. split; [exact Hc|]. split; [exact Hlen|].
  intros r Hr. destruct (Hobjs r Hr) as (o & Ho & Hs & _ & _ & Hx & Hy).
  exists o. repeat split; assumption.
Qed.

Lemma C8_spawn_ten_entities_in_bounds_witness :
  random_source (always lit_0_5) /\ (1 <= 1)%nat /\ colors blank_world = palette /\
  exists m' k',
    createGameObjects (always lit_0_5) 1 0 blank_world = Ok (m', k') /\
    length (gameObjects m') = 10%nat /\
    forall r, r ∈ gameObjects m' ->
      exists o, heap m' !! r = Some o /\ Triangle.size o = lit_0_1 /\
                in_bounds lit_0_1 (Triangle.x o) = true /\
                in_bounds lit_0_1 (Triangle.y o) = true.
Proof.
  assert (H1 : random_source (always lit_0_5))
    by (apply always_random_source; reflexivity).
  assert (H2 : (1 <= 1)%nat) by lia.
  assert (H3 : colors blank_world = palette) by reflexivity.
  split; [exact H1|]. split; [exact H2|]. split; [exact H3|].
  exact (C8_spawn_ten_entities_in_bounds (always lit_0_5) 1 0 blank_world H1 H2 H3).
Defined.

(** ** C9: the win check *)

(** C9: in every tick the win check runs on the world [m2] that the
    collision pass returns, and the loop driver reads the state it leaves:
    if exactly one entity of the collection is not red after the pass, the
    state is WON and the loop calls [endGame] with the message of a win. In
    a round that one entity is the player. *)
Theorem C9_win_check_after_collisions (now : Z) (c : GameController) :
  wf (model c) ->
  exists p o m2 m' next,
    let m0 := if Z.max 0 (gameDuration c - (now - startTime c)) <=? 0
              then set_gameState lost (model c) else model c in
    player (model c) = Some p /\ heap (model c) !! p = Some o /\
    checkCollisions (moved m0 p o) = Ok m2 /\
    checkGameOver m2 = Ok m' /\
    gameObjects m' = gameObjects m2 /\
    gameLoop now c = Ok (Controller.with_model m' c, next) /\
    (length (non_red m2) = 1%nat ->
     gameState m' = won /\ next = endGame Congratulations) /\
    (round_inv (model c) -> length (non_red m2) = 1%nat -> non_red m2 = [p]).
Proof.
  intros Hwf. cbn zeta.
  set (m0 := if Z.max 0 (gameDuration c - (now - startTime c)) <=? 0
             then set_gameState lost (model c) else model c).
  assert (Hwf0 : wf m0) by (subst m0; destruct (_ <=? 0); exact Hwf).
  assert (Hp0 : player m0 = player (model c)) by (subst m0; destruct (_ <=? 0); reflexivity).
  assert (Hh0 : heap m0 = heap (model c)) by (subst m0; destruct (_ <=? 0); reflexivity).
  destruct (update_stages m0 Hwf0) as (p & o & m2 & Hp & Ho & Hcc & Hfr & Hpf & Hu).
  pose proof Hfr as (Hr2 & Hh2 & Hp2 & _).
  exists p, o, m2, (judged m2),
    (if decide (gameState (judged m2) = playing) then requestAnimationFrame
     else endGame (end_game (judged m2))).
  split; [congruence|]. split; [congruence|]. split; [exact Hcc|].
  split; [apply checkGameOver_spec; exact Hr2|].
  split; [apply judged_frame|].
  split; [apply gameLoop_spec; exact Hu|]. split.
  - intros Hlen. pose proof (judged_won m2 Hlen) as Hw. split; [exact Hw|].
    rewrite decide_False by (rewrite Hw; discriminate).
    unfold end_game. rewrite decide_True by exact Hw. reflexivity.
  - intros Hinv Hlen.
    assert (Hinv0 : round_inv m0)
      by (subst m0; destruct (_ <=? 0); exact Hinv).
    destruct (update_round_inv m0 Hinv0) as (m'' & Hu' & Hinv'').
    rewrite Hu in Hu'. injection Hu' as <-.
    destruct (judged_frame m2) as (_ & _ & Jp & _).
    rewrite <- (non_red_judged m2) in Hlen |- *.
    apply round_inv_last_non_red; try assumption.
    rewrite Jp, Hp2. exact Hp.
Qed.

Lemma C9_win_check_after_collisions_witness :
  wf (model (mkGameController last_collectible_world 0 60000)) /\
  exists p o m2 m' next,
    let m0 := if Z.max 0 (gameDuration (mkGameController last_collectible_world 0 60000)
                          - (16 - startTime (mkGameController last_collectible_world 0 60000)))
                 <=? 0
              then set_gameState lost (model (mkGameController last_collectible_world 0 60000))
              else model (mkGameController last_collectible_world 0 60000) in
    player (model (mkGameController last_collectible_world 0 60000)) = Some p /\
    heap (model (mkGameController last_collectible_world 0 60000)) !! p = Some o /\
    checkCollisions (moved m0 p o) = Ok m2 /\
    checkGameOver m2 = Ok m' /\
    gameObjects m' = gameObjects m2 /\
    gameLoop 16 (mkGameController last_collectible_world 0 60000)
    = Ok (Controller.with_model m' (mkGameController last_collectible_world 0 60000), next) /\
    (length (non_red m2) = 1%nat ->
     gameState m' = won /\ next = endGame Congratulations) /\
    (round_inv (model (mkGameController last_collectible_world 0 60000)) ->
     length (non_red m2) = 1%nat -> non_red m2 = [p]).
Proof.
  assert (H1 : wf (model (mkGameController last_collectible_world 0 60000)))
    by apply world_wf.
  split; [exact H1|].
  exact (C9_win_check_after_collisions 16 _ H1).
Defined.

(** ** C10: the collision predicate *)

(** C10: for two entities of the same size, as all entities of the game
    are, [isColliding a b] and [isColliding b a] agree, and [isColliding]
    holds exactly when the computed distance of the centres is strictly
    below [Math.sqrt(3) / 2 * size]. *)
Theorem C10_isColliding_symmetric (a b : Triangle.t) :
  Triangle.size a = Triangle.size b ->
  isColliding a b = isColliding b a /\
  (isColliding a b = true <->
   ltb (sqrt (add (mul (sub (Triangle.x a) (Triangle.x b))
                       (sub (Triangle.x a) (Triangle.x b)))
                  (mul (sub (Triangle.y a) (Triangle.y b))
                       (sub (Triangle.y a) (Triangle.y b)))))
       (mul (div (sqrt (of_Z 3)) (of_Z 2)) (Triangle.size a)) = true).
Proof.
  intros Hs. split; [apply isColliding_swap; exact Hs|]. reflexivity.
Qed.

Lemma C10_isColliding_symmetric_witness :
  Triangle.size (entity (of_Z 0) (of_Z 0) green)
  = Triangle.size (entity (of_Z 0) lit_0_0625 red) /\
  isColliding (entity (of_Z 0) (of_Z 0) green) (entity (of_Z 0) lit_0_0625 red)
  = isColliding (entity (of_Z 0) lit_0_0625 red) (entity (of_Z 0) (of_Z 0) green) /\
  (isColliding (entity (of_Z 0) (of_Z 0) green) (entity (of_Z 0) lit_0_0625 red) = true <->
   ltb (sqrt (add (mul (sub (Triangle.x (entity (of_Z 0) (of_Z 0) green))
                            (Triangle.x (entity (of_Z 0) lit_0_0625 red)))
                       (sub (Triangle.x (entity (of_Z 0) (of_Z 0) green))
                            (Triangle.x (entity (of_Z 0) lit_0_0625 red))))
                  (mul (sub (Triangle.y (entity (of_Z 0) (of_Z 0) green))
                            (Triangle.y (entity (of_Z 0) lit_0_0625 red)))
                       (sub (Triangle.y (entity (of_Z 0) (of_Z 0) green))
                            (Triangle.y (entity (of_Z 0) lit_0_0625 red))))))
       (mul (div (sqrt (of_Z 3)) (of_Z 2))
            (Triangle.size (entity (of_Z 0) (of_Z 0) green))) = true).
Proof.
  assert (H : Triangle.size (entity (of_Z 0) (of_Z 0) green)
              = Triangle.size (entity (of_Z 0) lit_0_0625 red)) by reflexivity.
  split; [exact H|].
  exact (C10_isColliding_symmetric _ _ H).
Defined.

(** * Further properties of the model and of the loop driver *)

(** ** Invariants of a run *)

Lemma run_inv (I : GameModel -> Prop) :
  (forall m, I m -> wf m) ->
  (forall k m, I m -> I (set_keys k m)) ->
  (forall m, I m -> I (set_gameState lost m)) ->
  (forall m m', I m -> update m = Ok m' -> I m') ->
  forall events c, I (model c) ->
    exists c', run events c = Ok c' /\ I (model c').
Proof.
  intros Hwf Hkeys Hlost Hupd events.
  induction events as [|e events IH]; intros c HI.
  - exists c. split; [reflexivity|exact HI].
  - cbn [run].
    assert (Hd : exists c1, dispatch e c = Ok c1 /\ I (model c1)).
    { destruct e as [key|key|now]; cbn [dispatch].
      - eexists. split; [reflexivity|].
        apply (assign_key_inv I); [intros k; apply Hkeys, HI|exact HI].
      - eexists. split; [reflexivity|].
        apply (assign_key_inv I); [intros k; apply Hkeys, HI|exact HI].
      - set (m0 := if Z.max 0 (gameDuration c - (now - startTime c)) <=? 0
                   then set_gameState lost (model c) else model c).
        assert (H0 : I m0) by (subst m0; destruct (_ <=? 0); [apply Hlost|]; exact HI).
        destruct (update_wf m0 (Hwf _ H0)) as (m' & Hu & _).
        rewrite (gameLoop_spec now c m' Hu). cbn [mbind res_mbind res_bind].
        eexists. split; [reflexivity|]. cbn. eapply Hupd; eassumption. }
    destruct Hd as (c1 & Hd & H1). rewrite Hd. cbn [mbind res_mbind res_bind].
    apply IH, H1.
Qed.

Lemma same_entities_refl (m : GameModel) : same_entities m m.
Proof.
  split; [reflexivity|]. split; [reflexivity|].
  intros r o Ho. exists o. auto.
Qed.

Lemma same_entities_trans (m1 m2 m3 : GameModel) :
  same_entities m1 m2 -> same_entities m2 m3 -> same_entities m1 m3.
Proof.
  intros (Hp1 & Hl1 & H1) (Hp2 & Hl2 & H2).
  split; [congruence|]. split; [congruence|].
  intros r o Ho. destruct (H1 r o Ho) as (o' & Ho' & Hs & Hc & Hn).
  destruct (H2 r o' Ho') as (o'' & Ho'' & Hs' & Hc' & Hn').
  exists o''. split; [exact Ho''|]. split; [congruence|]. split; [congruence|].
  intros Hne. rewrite Hn' by congruence. apply Hn, Hne.
Qed.

Lemma same_entities_fields (m m' : GameModel) :
  heap m' = heap m -> player m' = player m -> same_entities m m'.
Proof.
  intros Hh Hp. split; [exact Hp|]. split; [congruence|].
  intros r o Ho. exists o. rewrite Hh. auto.
Qed.

Lemma color_of_same (m m' : GameModel) (r : loc) :
  same_entities m m' -> color_of (heap m') r = color_of (heap m) r.
Proof.
  intros (_ & Hl & H). unfold color_of.
  destruct (heap m !! r) as [o|] eqn:Ho.
  - destruct (H r o Ho) as (o' & -> & _ & Hc & _). exact Hc.
  - apply lookup_ge_None in Ho. rewrite <- Hl in Ho.
    apply lookup_ge_None in Ho. rewrite Ho. reflexivity.
Qed.

Lemma moved_same_entities (m : GameModel) (p : loc) (o : Triangle.t) :
  player m = Some p -> heap m !! p = Some o -> same_entities m (moved m p o).
Proof.
  intros Hp Ho. split; [reflexivity|]. split.
  - unfold moved. cbn. apply length_insert.
  - intros r o0 Hr. unfold moved. cbn.
    destruct (decide (r = p)) as [->|Hne].
    + rewrite Ho in Hr. injection Hr as <-.
      eexists. split; [apply list_lookup_insert_eq; eapply lookup_lt_Some; exact Ho|].
      destruct (move_frame (pressed m "ArrowUp") (pressed m "ArrowDown")
                  (pressed m "ArrowLeft") (pressed m "ArrowRight") o) as [Hs Hc].
      split; [exact Hs|]. split; [exact Hc|]. intros Hn. congruence.
    + exists o0. split; [rewrite list_lookup_insert_ne by congruence; exact Hr|]. auto.
Qed.

(** An update moves nothing but the player, and changes no size and no
    colour; the collection loses no red entity. *)
Lemma update_frame (m : GameModel) :
  wf m ->
  exists m', update m = Ok m' /\ wf m' /\ same_entities m m' /\ hazards_kept m m' /\
             keys m' = keys m.
Proof.
  intros Hwf.
  destruct (update_stages m Hwf) as (p & o & m2 & Hp & Ho & Hcc & Hfr & _ & Hu).
  destruct (update_wf m Hwf) as (m' & Hu' & Hwf' & _ & Hk & _).
  rewrite Hu in Hu'. injection Hu' as <-.
  destruct Hfr as (Hr2 & Hh2 & Hp2 & Hc2 & Hk2 & Hsub & Hst).
  destruct (judged_frame m2) as (Jh & Jo & Jp & Jc & Jk & _ & Js).
  pose proof (moved_same_entities m p o Hp Ho) as Hsame.
  exists (judged m2). split; [exact Hu|]. split; [exact Hwf'|].
  split; [|split; [|exact Hk]].
  - eapply same_entities_trans; [exact Hsame|].
    apply same_entities_fields; congruence.
  - split; [rewrite Jo; exact Hsub|].
    intros r Hr Hred. rewrite Jo.
    destruct (red_kept_pass (moved m p o)) as (m2' & Hcc' & _ & _ & _ & Hkept).
    { apply moved_refs_ok, Hwf. }
    rewrite Hcc in Hcc'. injection Hcc' as <-.
    apply Hkept; [exact Hr|].
    rewrite (color_of_same m (moved m p o) r Hsame). exact Hred.
Qed.

Lemma hazards_kept_refl (m : GameModel) : hazards_kept m m.
Proof. split; [reflexivity|auto]. Qed.

Lemma hazards_kept_trans (m1 m2 m3 : GameModel) :
  same_entities m1 m2 ->
  hazards_kept m1 m2 -> hazards_kept m2 m3 -> hazards_kept m1 m3.
Proof.
  intros Hs (Hsub1 & H1) (Hsub2 & H2). split; [etransitivity; eassumption|].
  intros r Hr Hred. apply H2; [apply H1; assumption|].
  rewrite (color_of_same m1 m2 r Hs). exact Hred.
Qed.

(** ** The score *)

Lemma pair_effect_score (m m' : GameModel) (i j : nat) :
  pair_effect m i j m' ->
  (nobjects m' = nobjects m /\ score m' = score m) \/
  (S (nobjects m') = nobjects m /\ score m' = add_ten (score m)).
Proof.
  intros [r1 r2 o1 o2 H1 H2 _ _ _ ->|r1 r2 o1 o2 H1 H2 _ _ _ He]; [left; auto|].
  destruct He as [Hnp|o Hpl Ho Hred|o index Hpl Ho Hred Hidx|o Hpl Ho Hred Hidx].
  - left; auto.
  - left; auto.
  - right. unfold nobjects. cbn. split; [|reflexivity].
    apply indexOf_Some in Hidx. apply lookup_lt_Some in Hidx.
    rewrite length_delete by (apply lookup_lt_is_Some_2; exact Hidx).
    lia.
  - exfalso.
    assert (Hin : other_of m r1 r2 ∈ gameObjects m).
    { unfold other_of. destruct (is_player m r1);
        eapply list_elem_of_lookup_2; eassumption. }
    destruct (indexOf_elem _ _ Hin) as (k & Hk). congruence.
Qed.

Lemma checkCollisions_score (m : GameModel) :
  refs_ok m -> exists m', checkCollisions m = Ok m' /\ score_tracks m m'.
Proof.
  intros Hr. apply (checkCollisions_inv (score_tracks m)).
  - intros s Hs. apply Hs.
  - intros s i j s' (Hrs & Hle & Hsc) Hij Hj He.
    pose proof (pair_effect_frame _ _ _ _ He) as (Hh' & _ & _ & _ & _ & Hsub').
    split; [eapply refs_ok_sublist; eassumption|].
    destruct (pair_effect_score _ _ _ _ He) as [[Hn Hs]|[Hn Hs]].
    + rewrite Hn, Hs. auto.
    + split; [lia|]. rewrite Hs, Hsc.
      replace (nobjects m - nobjects s')%nat with (S (nobjects m - nobjects s)) by lia.
      reflexivity.
  - split; [exact Hr|]. split; [lia|]. rewrite Nat.sub_diag. reflexivity.
Qed.

(** ** The state *)

Lemma pair_effect_state (m m' : GameModel) (i j : nat) :
  pair_effect m i j m' ->
  gameState m' = gameState m \/
  gameState m' = lost /\ player_hits_hazard m.
Proof.
  intros [r1 r2 o1 o2 H1 H2 _ _ _ ->|r1 r2 o1 o2 H1 H2 Ho1 Ho2 Hc He]; [left; auto|].
  destruct He as [Hnp|o Hpl Ho Hred|o index Hpl Ho Hred Hidx|o Hpl Ho Hred Hidx];
    try (left; reflexivity).
  right. split; [reflexivity|].
  exists r1, r2, o1, o2.
  split; [eapply list_elem_of_lookup_2; exact H1|].
  split; [eapply list_elem_of_lookup_2; exact H2|].
  split; [exact Ho1|]. split; [exact Ho2|]. split; [exact Hc|]. split; [exact Hpl|].
  unfold color_of. rewrite Ho. exact Hred.
Qed.

Lemma player_hits_hazard_sub (m0 m : GameModel) :
  heap m = heap m0 -> player m = player m0 ->
  gameObjects m `sublist_of` gameObjects m0 ->
  player_hits_hazard m -> player_hits_hazard m0.
Proof.
  intros Hh Hp Hsub (r1 & r2 & o1 & o2 & H1 & H2 & Ho1 & Ho2 & Hc & Hpl & Hred).
  exists r1, r2, o1, o2.
  assert (Hip : forall r, is_player m r = is_player m0 r)
    by (intros r; unfold is_player; rewrite Hp; reflexivity).
  split; [eapply elem_of_sublist; eassumption|].
  split; [eapply elem_of_sublist; eassumption|].
  rewrite <- Hh. split; [exact Ho1|]. split; [exact Ho2|]. split; [exact Hc|].
  rewrite <- !Hip. split; [exact Hpl|].
  unfold other_of in *. rewrite <- Hip. exact Hred.
Qed.

Lemma checkCollisions_state (m : GameModel) :
  refs_ok m -> exists m', checkCollisions m = Ok m' /\ state_kept_or_hit m m'.
Proof.
  intros Hr. apply (checkCollisions_inv (state_kept_or_hit m)).
  - intros s Hs. apply Hs.
  - intros s i j s' (Hrs & Hh & Hp & Hsub & Hst) Hij Hj He.
    pose proof (pair_effect_frame _ _ _ _ He) as (Hh' & Hp' & _ & _ & _ & Hsub').
    split; [eapply refs_ok_sublist; eassumption|].
    split; [congruence|]. split; [congruence|].
    split; [etransitivity; eassumption|].
    destruct (pair_effect_state _ _ _ _ He) as [E|[E Hhit]].
    + rewrite E. exact Hst.
    + right. split; [exact E|].
      eapply player_hits_hazard_sub; eassumption.
  - split; [exact Hr|]. repeat split; auto.
Qed.

(** ** Pairs without the player *)

Lemma checkCollisions_untouched (m : GameModel) :
  refs_ok m -> player_untouched m -> checkCollisions m = Ok m.
Proof.
  intros Hr Hun.
  destruct (checkCollisions_inv (fun s => s = m)) with (m := m) as (m' & Hcc & ->);
    [| |reflexivity|exact Hcc].
  - intros s ->. exact Hr.
  - intros s i j s' -> Hij Hj He.
    destruct He as [r1 r2 o1 o2 H1 H2 _ _ _ ->|r1 r2 o1 o2 H1 H2 Ho1 Ho2 Hc He];
      [reflexivity|].
    pose proof (Hun i j r1 r2 o1 o2 Hij H1 H2 Ho1 Ho2 Hc) as Hnp.
    destruct He as [_|o Hpl _ _|o index Hpl _ _ _|o Hpl _ _ _];
      [reflexivity|congruence..].
Qed.

Lemma set_keys_same_entities (k : gmap string bool) (m0 m : GameModel) :
  same_entities m0 m -> same_entities m0 (set_keys k m).
Proof. intros H. exact H. Qed.

Lemma set_gameState_same_entities (s : GameState) (m0 m : GameModel) :
  same_entities m0 m -> same_entities m0 (set_gameState s m).
Proof. intros H. exact H. Qed.

Lemma run_frame (events : list Event) (c : GameController) :
  wf (model c) ->
  exists c', run events c = Ok c' /\ wf (model c') /\
             same_entities (model c) (model c') /\
             hazards_kept (model c) (model c').
Proof.
  intros Hwf.
  apply (run_inv (fun m => wf m /\ same_entities (model c) m /\
                           hazards_kept (model c) m)).
  - intros m Hm. apply Hm.
  - intros k m (H1 & H2 & H3). split; [apply set_keys_wf, H1|]. split; assumption.
  - intros m (H1 & H2 & H3). split; [apply set_gameState_wf, H1|]. split; assumption.
  - intros m m' (H1 & H2 & H3) Hu.
    destruct (update_frame m H1) as (m1 & Hu1 & Hwf1 & Hs1 & Hk1 & _).
    rewrite Hu in Hu1. injection Hu1 as <-.
    split; [exact Hwf1|]. split.
    + eapply same_entities_trans; eassumption.
    + eapply hazards_kept_trans; eassumption.
  - split; [exact Hwf|]. split; [apply same_entities_refl|apply hazards_kept_refl].
Qed.

Lemma all_pairs_lookup {A : Type} (f : A -> A -> bool) (l : list A)
    (i j : nat) (a b : A) :
  all_pairs f l = true -> (i < j)%nat ->
  l !! i = Some a -> l !! j = Some b -> f a b = true.
Proof.
  revert i j. induction l as [|c l IH]; intros i j Hall Hij Hi Hj; [discriminate|].
  cbn [all_pairs] in Hall. apply andb_true_iff in Hall. destruct Hall as [Hc Hl].
  destruct j as [|j]; [lia|]. cbn in Hj. destruct i as [|i].
  - cbn in Hi. injection Hi as ->.
    rewrite forallb_forall in Hc. apply Hc.
    apply list_elem_of_In. eapply list_elem_of_lookup_2. exact Hj.
  - cbn in Hi. apply (IH i j); [exact Hl|lia|exact Hi|exact Hj].
Qed.

Lemma player_untouched_check (m : GameModel) :
  all_pairs (untouched_pair m) (gameObjects m) = true -> player_untouched m.
Proof.
  intros Hall i j r1 r2 o1 o2 Hij H1 H2 Ho1 Ho2 Hc.
  pose proof (all_pairs_lookup _ _ i j r1 r2 Hall Hij H1 H2) as Hp.
  unfold untouched_pair in Hp. rewrite Ho1, Ho2, Hc in Hp. cbn in Hp.
  apply negb_true_iff in Hp. exact Hp.
Qed.

Lemma player_untouched_example : player_untouched overlapping_hazards_world.
Proof. apply player_untouched_check. vm_compute. reflexivity. Qed.

(** ** The update *)

(** X2 (update, updatePlayer): while none of the four arrow keys is held,
    whatever other keys are, an update moves nothing: every object is
    where it was. *)
Theorem no_arrow_no_motion (m : GameModel) :
  wf m -> no_arrow m ->
  exists m', update m = Ok m' /\ heap m' = heap m.
Proof.
  intros Hwf (Hu & Hd & Hl & Hr).
  destruct (update_stages m Hwf) as (p & o & m2 & Hp & Ho & Hcc & Hfr & _ & Hupd).
  exists (judged m2). split; [exact Hupd|].
  destruct (judged_frame m2) as (Jh & _). rewrite Jh.
  destruct Hfr as (_ & Hh & _). rewrite Hh.
  unfold moved. rewrite Hu, Hd, Hl, Hr. cbn.
  apply list_insert_id. exact Ho.
Qed.

Lemma no_arrow_no_motion_witness :
  wf (handleKeyDown "w" two_collectibles_world) /\
  no_arrow (handleKeyDown "w" two_collectibles_world) /\
  exists m', update (handleKeyDown "w" two_collectibles_world) = Ok m' /\
             heap m' = heap (handleKeyDown "w" two_collectibles_world).
Proof.
  assert (H1 : wf (handleKeyDown "w" two_collectibles_world))
    by (apply assign_key_wf, world_wf).
  assert (H2 : no_arrow (handleKeyDown "w" two_collectibles_world))
    by (repeat split; reflexivity).
  split; [exact H1|]. split; [exact H2|].
  exact (no_arrow_no_motion _ H1 H2).
Defined.

(** X3 (update, updatePlayer, Triangle.update): through any sequence of
    key events and ticks the player stays the same object, no object is
    created or lost, every object keeps its size and its colour, and every
    object other than the player keeps its position. *)
Theorem only_the_player_moves (events : list Event) (c : GameController) :
  wf (model c) ->
  exists c', run events c = Ok c' /\
    player (model c') = player (model c) /\
    length (heap (model c')) = length (heap (model c)) /\
    forall r o, heap (model c) !! r = Some o ->
      exists o', heap (model c') !! r = Some o' /\
        Triangle.size o' = Triangle.size o /\
        Triangle.color o' = Triangle.color o /\
        (player (model c) <> Some r -> o' = o).
Proof.
  intros Hwf. destruct (run_frame events c Hwf) as (c' & Hrun & _ & Hs & _).
  exists c'. split; [exact Hrun|]. exact Hs.
Qed.

Lemma only_the_player_moves_witness :
  wf (model (mkGameController near_top_world 0 60000)) /\
  exists c', run [Frame 16; KeyDown "ArrowRight"; Frame 33]
               (mkGameController near_top_world 0 60000) = Ok c' /\
    player (model c') = player (model (mkGameController near_top_world 0 60000)) /\
    length (heap (model c'))
    = length (heap (model (mkGameController near_top_world 0 60000))) /\
    forall r o, heap (model (mkGameController near_top_world 0 60000)) !! r = Some o ->
      exists o', heap (model c') !! r = Some o' /\
        Triangle.size o' = Triangle.size o /\
        Triangle.color o' = Triangle.color o /\
        (player (model (mkGameController near_top_world 0 60000)) <> Some r -> o' = o).
Proof.
  assert (H : wf (model (mkGameController near_top_world 0 60000)))
    by (apply assign_key_wf, world_wf).
  split; [exact H|].
  exact (only_the_player_moves _ _ H).
Defined.

(** X4 (checkCollisions, handleCollision): through any sequence of key
    events and ticks the collection only loses entities, in the order they
    had, and never a red one: every hazard of the collection is still in
    it, and still red. *)
Theorem hazards_never_removed (events : list Event) (c : GameController) :
  wf (model c) ->
  exists c', run events c = Ok c' /\
    gameObjects (model c') `sublist_of` gameObjects (model c) /\
    forall r, r ∈ gameObjects (model c) ->
      is_red (color_of (heap (model c)) r) = true ->
      r ∈ gameObjects (model c') /\
      is_red (color_of (heap (model c')) r) = true.
Proof.
  intros Hwf. destruct (run_frame events c Hwf) as (c' & Hrun & _ & Hs & Hsub & Hk).
  exists c'. split; [exact Hrun|]. split; [exact Hsub|].
  intros r Hr Hred. split; [apply Hk; assumption|].
  rewrite (color_of_same _ _ r Hs). exact Hred.
Qed.

Lemma hazards_never_removed_witness :
  wf (model (mkGameController hazard_and_collectible_world 0 60000)) /\
  exists c', run [Frame 16; KeyDown "ArrowUp"; Frame 33]
               (mkGameController hazard_and_collectible_world 0 60000) = Ok c' /\
    gameObjects (model c')
      `sublist_of` gameObjects (model (mkGameController hazard_and_collectible_world 0 60000)) /\
    forall r, r ∈ gameObjects (model (mkGameController hazard_and_collectible_world 0 60000)) ->
      is_red (color_of (heap (model (mkGameController hazard_and_collectible_world 0 60000))) r)
      = true ->
      r ∈ gameObjects (model c') /\
      is_red (color_of (heap (model c')) r) = true.
Proof.
  assert (H : wf (model (mkGameController hazard_and_collectible_world 0 60000)))
    by apply world_wf.
  split; [exact H|].
  exact (hazards_never_removed _ _ H).
Defined.

(** ** The score *)

(** X5 (checkCollisions, handleCollision): a collision pass over a
    well-formed collection returns, never enlarges the collection, and adds
    10 to the score once for each entity it removes, and nothing else. *)
Theorem pass_scores_ten_per_removal (m : GameModel) :
  refs_ok m ->
  exists m', checkCollisions m = Ok m' /\
    (length (gameObjects m') <= length (gameObjects m))%nat /\
    score m' = Nat.iter (length (gameObjects m) - length (gameObjects m'))
                        (fun s => add s (of_Z 10)) (score m).
Proof.
  intros Hr. destruct (checkCollisions_score m Hr) as (m' & Hcc & _ & Hle & Hs).
  exists m'. split; [exact Hcc|]. split; [exact Hle|exact Hs].
Qed.

Lemma pass_scores_ten_per_removal_witness :
  refs_ok two_collectibles_world /\
  exists m', checkCollisions two_collectibles_world = Ok m' /\
    (length (gameObjects m') <= length (gameObjects two_collectibles_world))%nat /\
    score m' = Nat.iter (length (gameObjects two_collectibles_world)
                         - length (gameObjects m'))
                        (fun s => add s (of_Z 10)) (score two_collectibles_world).
Proof.
  assert (H : refs_ok two_collectibles_world) by apply world_wf.
  split; [exact H|].
  exact (pass_scores_ten_per_removal _ H).
Defined.

Lemma add_ten_of_Z (j : nat) :
  (j <= 9)%nat ->
  add_ten (of_Z (10 * Z.of_nat j)) = of_Z (10 * Z.of_nat (S j)).
Proof.
  intros Hj.
  do 10 (destruct j as [|j]; [vm_compute; reflexivity|]). lia.
Qed.

Lemma iter_add_ten (n k : nat) :
  (n + k <= 10)%nat ->
  Nat.iter k add_ten (of_Z (10 * Z.of_nat n)) = of_Z (10 * Z.of_nat (n + k)).
Proof.
  induction k as [|k IH]; intros H.
  - rewrite Nat.add_0_r. reflexivity.
  - rewrite Nat.iter_succ, IH by lia. rewrite add_ten_of_Z by lia.
    f_equal. f_equal. lia.
Qed.

Lemma update_score_inv (m m' : GameModel) :
  score_inv m -> update m = Ok m' -> score_inv m'.
Proof.
  intros (Hinv & n & Hn & Hs) Hu.
  destruct (update_round_inv m Hinv) as (m1 & Hu1 & Hinv1).
  rewrite Hu in Hu1. injection Hu1 as <-. split; [exact Hinv1|].
  destruct (update_stages m (round_inv_wf m Hinv))
    as (p & o & m2 & Hp & Ho & Hcc & Hfr & _ & Hupd).
  rewrite Hu in Hupd. injection Hupd as ->.
  destruct (checkCollisions_score (moved m p o)) as (m2' & Hcc' & _ & Hle & Hsc).
  { apply moved_refs_ok. apply (round_inv_wf m Hinv). }
  rewrite Hcc in Hcc'. injection Hcc' as <-.
  destruct (judged_frame m2) as (_ & Jo & _ & _ & _ & Js & _).
  change (nobjects (moved m p o)) with (nobjects m) in *.
  change (score (moved m p o)) with (score m) in *.
  exists (n + (nobjects m - nobjects m2))%nat.
  unfold nobjects in *. rewrite Jo, Js. split; [lia|].
  rewrite Hsc, Hs. apply iter_add_ten. lia.
Qed.

Lemma run_score_inv (events : list Event) (c : GameController) :
  score_inv (model c) ->
  exists c', run events c = Ok c' /\ score_inv (model c').
Proof.
  apply (run_inv score_inv).
  - intros m Hm. apply round_inv_wf, Hm.
  - intros k m (H1 & H2). split; [apply set_keys_round_inv, H1|exact H2].
  - intros m (H1 & H2). split; [apply set_gameState_round_inv, H1|exact H2].
  - intros m m'. apply update_score_inv.
Qed.

Lemma spawned_fields (m m' : GameModel) :
  spawned m m' ->
  gameObjects m' = seq (length (heap m)) 10 /\
  gameState m' = gameState m /\ score m' = score m /\
  colors m' = colors m /\ keys m' = keys m /\
  exists new, heap m' = heap m ++ new.
Proof.
  intros (t0 & r1 & r2 & cs & Hh & Hobj & _ & _ & _ & _ & _ & _ & Hs & Hsc & Hc & Hk).
  repeat (split; [assumption|]). eexists. exact Hh.
Qed.

(** X6 (initializeGame, update, handleCollision): in a round, from its
    initialization through any sequence of key events and ticks, the score
    is ten times the number of entities that have left the collection of
    ten. *)
Theorem round_score_counts_collected (rand : nat -> num) (fuel k : nat)
    (m : GameModel) (start duration : Z) (events : list Event) :
  random_source rand -> (1 <= fuel)%nat -> colors m = palette ->
  exists m0 k' c' n,
    initializeGame rand fuel k m = Ok (m0, k') /\
    run events (mkGameController m0 start duration) = Ok c' /\
    (length (gameObjects (model c')) + n = 10)%nat /\
    score (model c') = of_Z (10 * Z.of_nat n).
Proof.
  intros Hrand Hfuel Hcol. unfold initializeGame.
  destruct (createGameObjects_spec rand fuel k
              (set_score (of_Z 0) (set_gameState playing m)) Hrand Hfuel Hcol)
    as (m0 & k' & Hc & Hsp).
  destruct (spawned_fields _ _ Hsp) as (Hobj & _ & Hsc & _).
  assert (H0 : score_inv (model (mkGameController m0 start duration))).
  { split; [eapply spawned_round_inv; exact Hsp|].
    exists 0%nat. cbn [model]. unfold nobjects. rewrite Hobj, length_seq, Hsc.
    split; reflexivity. }
  destruct (run_score_inv events _ H0) as (c' & Hrun & _ & n & Hn & Hs).
  exists m0, k', c', n. auto.
Qed.

Lemma round_score_counts_collected_witness :
  random_source (always lit_0_5) /\ (1 <= 1)%nat /\ colors blank_world = palette /\
  exists m0 k' c' n,
    initializeGame (always lit_0_5) 1 0 blank_world = Ok (m0, k') /\
    run [Frame 16; KeyDown "ArrowUp"; Frame 33]
      (mkGameController m0 0 60000) = Ok c' /\
    (length (gameObjects (model c')) + n = 10)%nat /\
    score (model c') = of_Z (10 * Z.of_nat n).
Proof.
  assert (H1 : random_source (always lit_0_5))
    by (apply always_random_source; reflexivity).
  assert (H2 : (1 <= 1)%nat) by lia.
  assert (H3 : colors blank_world = palette) by reflexivity.
  split; [exact H1|]. split; [exact H2|]. split; [exact H3|].
  exact (round_score_counts_collected (always lit_0_5) 1 0 blank_world 0 60000
           [Frame 16; KeyDown "ArrowUp"; Frame 33] H1 H2 H3).
Defined.

(** ** The terminal state *)

(** X7 (update, checkGameOver): an update ends WON only if the state was
    WON before it or exactly one entity that is not red is left in the
    collection. *)
Theorem won_only_with_one_non_red (m : GameModel) :
  wf m ->
  exists m', update m = Ok m' /\
    (gameState m' = won ->
     gameState m = won \/ length (non_red m') = 1%nat).
Proof.
  intros Hwf.
  destruct (update_stages m Hwf) as (p & o & m2 & Hp & Ho & Hcc & Hfr & _ & Hupd).
  exists (judged m2). split; [exact Hupd|]. intros Hwon.
  rewrite non_red_judged. unfold judged in Hwon.
  destruct (decide (length (non_red m2) = 1%nat)) as [E|NE]; [right; exact E|left].
  destruct Hfr as (_ & _ & _ & _ & _ & _ & [Hst|Hst]).
  - rewrite <- Hwon, Hst. reflexivity.
  - congruence.
Qed.

Lemma won_only_with_one_non_red_witness :
  wf last_collectible_world /\
  exists m', update last_collectible_world = Ok m' /\
    (gameState m' = won ->
     gameState last_collectible_world = won \/ length (non_red m') = 1%nat).
Proof.
  assert (H : wf last_collectible_world) by apply world_wf.
  split; [exact H|]. exact (won_only_with_one_non_red _ H).
Defined.

(** X8 (checkCollisions, handleCollision): a collision pass changes the
    terminal state only to LOST, and only if a colliding pair of the
    collection holds the player and a red entity. *)
Theorem pass_sets_lost_only_on_hazard (m : GameModel) :
  refs_ok m ->
  exists m', checkCollisions m = Ok m' /\
    (gameState m' = gameState m \/
     gameState m' = lost /\
     exists r1 r2 o1 o2,
       r1 ∈ gameObjects m /\ r2 ∈ gameObjects m /\
       heap m !! r1 = Some o1 /\ heap m !! r2 = Some o2 /\
       isColliding o1 o2 = true /\
       is_player m r1 || is_player m r2 = true /\
       is_red (color_of (heap m) (other_of m r1 r2)) = true).
Proof.
  intros Hr. destruct (checkCollisions_state m Hr) as (m' & Hcc & _ & _ & _ & _ & Hst).
  exists m'. split; [exact Hcc|exact Hst].
Qed.

Lemma pass_sets_lost_only_on_hazard_witness :
  refs_ok hazard_and_collectible_world /\
  exists m', checkCollisions hazard_and_collectible_world = Ok m' /\
    (gameState m' = gameState hazard_and_collectible_world \/
     gameState m' = lost /\
     exists r1 r2 o1 o2,
       r1 ∈ gameObjects hazard_and_collectible_world /\
       r2 ∈ gameObjects hazard_and_collectible_world /\
       heap hazard_and_collectible_world !! r1 = Some o1 /\
       heap hazard_and_collectible_world !! r2 = Some o2 /\
       isColliding o1 o2 = true /\
       is_player hazard_and_collectible_world r1
       || is_player hazard_and_collectible_world r2 = true /\
       is_red (color_of (heap hazard_and_collectible_world)
                 (other_of hazard_and_collectible_world r1 r2)) = true).
Proof.
  assert (H : refs_ok hazard_and_collectible_world) by apply world_wf.
  split; [exact H|]. exact (pass_sets_lost_only_on_hazard _ H).
Defined.

(** X9 (checkCollisions, handleCollision): collisions between entities
    neither of which is the player have no effect: when no colliding pair
    of the collection holds the player, the pass leaves the world as it
    is. *)
Theorem pass_ignores_other_pairs (m : GameModel) :
  refs_ok m -> player_untouched m -> checkCollisions m = Ok m.
Proof. apply checkCollisions_untouched. Qed.

Lemma pass_ignores_other_pairs_witness :
  refs_ok overlapping_hazards_world /\ player_untouched overlapping_hazards_world /\
  checkCollisions overlapping_hazards_world = Ok overlapping_hazards_world.
Proof.
  assert (H1 : refs_ok overlapping_hazards_world) by apply world_wf.
  assert (H2 : player_untouched overlapping_hazards_world)
    by apply player_untouched_example.
  split; [exact H1|]. split; [exact H2|].
  exact (pass_ignores_other_pairs _ H1 H2).
Defined.

(** ** The loop driver *)

Lemma with_model_id (c : GameController) : Controller.with_model (model c) c = c.
Proof. destruct c. reflexivity. Qed.

Lemma update_idle (m : GameModel) :
  wf m -> no_arrow m -> player_untouched m -> length (non_red m) <> 1%nat ->
  update m = Ok m.
Proof.
  intros Hwf (Hu & Hd & Hl & Hr) Hun Hnr.
  destruct (update_stages m Hwf) as (p & o & m2 & Hp & Ho & Hcc & _ & _ & Hupd).
  assert (Hm : moved m p o = m).
  { unfold moved. rewrite Hu, Hd, Hl, Hr. cbn.
    rewrite list_insert_id by exact Ho. apply set_heap_id. }
  rewrite Hm in Hcc. rewrite (checkCollisions_untouched m (proj1 Hwf) Hun) in Hcc.
  injection Hcc as <-. rewrite Hupd. unfold judged.
  destruct (decide _); [contradiction|reflexivity].
Qed.

(** X10 (gameLoop, update): a tick before the deadline, in a world in
    play where no arrow key is held, no colliding pair holds the player
    and the number of entities that are not red is not one, changes
    nothing and asks for the next frame. *)
Theorem idle_tick_changes_nothing (now : Z) (c : GameController) :
  wf (model c) -> gameState (model c) = playing ->
  no_arrow (model c) -> player_untouched (model c) ->
  length (non_red (model c)) <> 1%nat ->
  now - startTime c < gameDuration c ->
  gameLoop now c = Ok (c, requestAnimationFrame).
Proof.
  intros Hwf Hst Hna Hun Hnr Ht.
  assert (Hrem : (Z.max 0 (gameDuration c - (now - startTime c)) <=? 0) = false)
    by (apply Z.leb_gt; lia).
  pose proof (update_idle _ Hwf Hna Hun Hnr) as Hu.
  rewrite (gameLoop_spec now c (model c)) by (rewrite Hrem; exact Hu).
  rewrite with_model_id. destruct (decide _); [reflexivity|contradiction].
Qed.

Lemma idle_tick_changes_nothing_witness :
  wf (model (mkGameController overlapping_hazards_world 1000 60000)) /\
  gameState (model (mkGameController overlapping_hazards_world 1000 60000)) = playing /\
  no_arrow (model (mkGameController overlapping_hazards_world 1000 60000)) /\
  player_untouched (model (mkGameController overlapping_hazards_world 1000 60000)) /\
  length (non_red (model (mkGameController overlapping_hazards_world 1000 60000)))
  <> 1%nat /\
  30000 - startTime (mkGameController overlapping_hazards_world 1000 60000)
  < gameDuration (mkGameController overlapping_hazards_world 1000 60000) /\
  gameLoop 30000 (mkGameController overlapping_hazards_world 1000 60000)
  = Ok (mkGameController overlapping_hazards_world 1000 60000, requestAnimationFrame).
Proof.
  assert (H1 : wf (model (mkGameController overlapping_hazards_world 1000 60000)))
    by apply world_wf.
  assert (H2 : gameState (model (mkGameController overlapping_hazards_world 1000 60000))
               = playing) by reflexivity.
  assert (H3 : no_arrow (model (mkGameController overlapping_hazards_world 1000 60000)))
    by (repeat split; reflexivity).
  assert (H4 : player_untouched
                 (model (mkGameController overlapping_hazards_world 1000 60000)))
    by apply player_untouched_example.
  assert (H5 : length (non_red (model (mkGameController overlapping_hazards_world
                                         1000 60000))) <> 1%nat)
    by (vm_compute; lia).
  assert (H6 : 30000 - startTime (mkGameController overlapping_hazards_world 1000 60000)
               < gameDuration (mkGameController overlapping_hazards_world 1000 60000))
    by (cbn; lia).
  split; [exact H1|]. split; [exact H2|]. split; [exact H3|]. split; [exact H4|].
  split; [exact H5|]. split; [exact H6|].
  exact (idle_tick_changes_nothing 30000 _ H1 H2 H3 H4 H5 H6).
Defined.

(** X11 (gameLoop, endGame): a tick of a well-formed world returns, and
    what it does last is fixed by the state it leaves: the next frame is
    requested if the state is still in play, the win message is shown if
    it is WON, and the loss message if it is LOST. *)
Theorem tick_outcome_follows_state (now : Z) (c : GameController) :
  wf (model c) ->
  exists c' next,
    gameLoop now c = Ok (c', next) /\
    startTime c' = startTime c /\ gameDuration c' = gameDuration c /\
    next = match gameState (model c') with
           | playing => requestAnimationFrame
           | won => endGame Congratulations
           | lost => endGame GameOver
           end.
Proof.
  intros Hwf.
  set (m0 := if Z.max 0 (gameDuration c - (now - startTime c)) <=? 0
             then set_gameState lost (model c) else model c).
  assert (H0 : wf m0) by (subst m0; destruct (_ <=? 0); [apply set_gameState_wf|]; exact Hwf).
  destruct (update_wf m0 H0) as (m' & Hu & _).
  rewrite (gameLoop_spec now c m' Hu).
  do 2 eexists. split; [reflexivity|]. cbn [model Controller.with_model startTime gameDuration].
  split; [reflexivity|]. split; [reflexivity|].
  unfold end_game. destruct (gameState m'); reflexivity.
Qed.

Lemma tick_outcome_follows_state_witness :
  wf (model (mkGameController last_collectible_world 0 60000)) /\
  exists c' next,
    gameLoop 16 (mkGameController last_collectible_world 0 60000) = Ok (c', next) /\
    startTime c' = startTime (mkGameController last_collectible_world 0 60000) /\
    gameDuration c' = gameDuration (mkGameController last_collectible_world 0 60000) /\
    next = match gameState (model c') with
           | playing => requestAnimationFrame
           | won => endGame Congratulations
           | lost => endGame GameOver
           end.
Proof.
  assert (H : wf (model (mkGameController last_collectible_world 0 60000)))
    by apply world_wf.
  split; [exact H|]. exact (tick_outcome_follows_state 16 _ H).
Defined.

(** ** The calls of [Math.random] *)

Lemma red_triangles_calls (rand : nat -> num) (size padding : num)
    (n k : nat) (m : GameModel) :
  (red_triangles rand size padding n k m).2 = (k + 2 * n)%nat.
Proof.
  revert k m. induction n as [|n IH]; intros k m; cbn [red_triangles].
  - cbn. lia.
  - rewrite IH. lia.
Qed.

Lemma redraw_calls (rand : nat -> num) (fuel k : nat) (c c' : Color) (k' : nat) :
  random_source rand ->
  redraw rand palette fuel k (Some c) = Ok (c', k') ->
  (k <= k' <= S k)%nat.
Proof.
  intros Hrand H. destruct fuel as [|fuel];
    cbn [redraw defined mbind res_mbind res_bind] in H;
    destruct (is_red c) eqn:Hc; try discriminate;
    try (injection H as _ <-; lia).
  change (of_Z (Z.of_nat (length palette))) with (of_Z 6) in H.
  destruct (second_color (rand k) (Hrand k)) as (c2 & Hget & Hred).
  rewrite Hget in H.
  destruct fuel; cbn [redraw defined mbind res_mbind res_bind] in H;
    rewrite Hred in H; injection H as _ <-; lia.
Qed.

Lemma other_triangles_calls (rand : nat -> num) (size padding : num)
    (fuel n k : nat) (m m' : GameModel) (k' : nat) :
  random_source rand -> colors m = palette ->
  other_triangles rand size padding fuel n k m = Ok (m', k') ->
  (k + 3 * n <= k' <= k + 4 * n)%nat.
Proof.
  intros Hrand. revert k m. induction n as [|n IH]; intros k m Hcol H.
  - cbn in H. injection H as _ <-. lia.
  - cbn [other_triangles] in H. rewrite Hcol in H.
    change (of_Z (Z.of_nat (length palette))) with (of_Z 6) in H.
    destruct (first_color (rand (S (S k))) (Hrand _)) as (c0 & Hget & _).
    rewrite Hget in H.
    apply bind_Ok in H. destruct H as ([c k1] & Hre & H).
    apply redraw_calls in Hre; [|exact Hrand].
    apply IH in H; [|exact Hcol]. lia.
Qed.

(** X12 (createGameObjects): whatever [Math.random] returns, the
    creation of the ten entities returns after at least 27 and at most 34
    calls of it: two for each position, one for each of the seven colours,
    and at most one redraw for each colour that came out red. *)
Theorem spawn_random_calls (rand : nat -> num) (fuel k : nat) (m : GameModel) :
  random_source rand -> (1 <= fuel)%nat -> colors m = palette ->
  exists m' k',
    createGameObjects rand fuel k m = Ok (m', k') /\
    (k + 27 <= k' <= k + 34)%nat.
Proof.
  intros Hrand Hfuel Hcol.
  destruct (createGameObjects_spec rand fuel k m Hrand Hfuel Hcol) as (m' & k' & Hc & _).
  exists m', k'. split; [exact Hc|].
  unfold createGameObjects in Hc.
  pose proof (red_triangles_calls rand lit_0_1 lit_0_1 3 k (set_gameObjects [] m)) as Hk1.
  destruct (red_triangles rand lit_0_1 lit_0_1 3 k (set_gameObjects [] m))
    as [m1 k1] eqn:E1. cbn [snd] in Hk1.
  assert (Hcol1 : colors m1 = palette).
  { destruct (red_triangles_spec rand 3 k (set_gameObjects [] m) Hrand)
      as (ts & He & _). rewrite E1 in He. cbn [fst] in He.
    destruct He as (_ & _ & _ & _ & Hc1 & _). rewrite Hc1. exact Hcol. }
  apply bind_Ok in Hc. destruct Hc as ([m2 k2] & Hot & Hc).
  apply other_triangles_calls in Hot; [|exact Hrand|exact Hcol1].
  cbn [mbind res_mbind res_bind] in Hc.
  apply bind_Ok in Hc. destruct Hc as (p & _ & Hc).
  apply bind_Ok in Hc. destruct Hc as (o & _ & Hc).
  injection Hc as _ <-. lia.
Qed.

Lemma spawn_random_calls_witness :
  random_source (always (of_Z 0)) /\ (1 <= 1)%nat /\ colors blank_world = palette /\
  exists m' k',
    createGameObjects (always (of_Z 0)) 1 0 blank_world = Ok (m', k') /\
    (0 + 27 <= k' <= 0 + 34)%nat.
Proof.
  assert (H1 : random_source (always (of_Z 0)))
    by (apply always_random_source; reflexivity).
  assert (H2 : (1 <= 1)%nat) by lia.
  assert (H3 : colors blank_world = palette) by reflexivity.
  split; [exact H1|]. split; [exact H2|]. split; [exact H3|].
  exact (spawn_random_calls (always (of_Z 0)) 1 0 blank_world H1 H2 H3).
Defined.

(** X13 (initializeGame, createGameObjects): from any world with the
    palette of the constructor, whatever its state, score and objects,
    [initializeGame] returns a world in play with score 0 whose collection
    is ten newly created objects, the first of them the player; the
    objects that existed are left as they were, and so are the keys held. *)
Theorem initializeGame_resets_round (rand : nat -> num) (fuel k : nat)
    (m : GameModel) :
  random_source rand -> (1 <= fuel)%nat -> colors m = palette ->
  exists m' k' new,
    initializeGame rand fuel k m = Ok (m', k') /\
    gameState m' = playing /\ score m' = of_Z 0 /\
    keys m' = keys m /\ colors m' = colors m /\
    heap m' = heap m ++ new /\ length new = 10%nat /\
    gameObjects m' = seq (length (heap m)) 10 /\
    player m' = Some (length (heap m)).
Proof.
  intros Hrand Hfuel Hcol. unfold initializeGame.
  destruct (createGameObjects_spec rand fuel k
              (set_score (of_Z 0) (set_gameState playing m)) Hrand Hfuel Hcol)
    as (m' & k' & Hc & Hsp).
  destruct Hsp as (t0 & r1 & r2 & cs & Hh & Hobj & Hp & Hl & _ & _ & _ & _ &
                   Hs & Hsc & Hco & Hk).
  exists m', k', (Triangle.set_color green t0 :: r1 :: r2 :: cs).
  split; [exact Hc|]. cbn in Hh, Hobj, Hp, Hs, Hsc, Hco, Hk.
  repeat (split; [assumption|]). split; [cbn; lia|]. split; assumption.
Qed.

Lemma initializeGame_resets_round_witness :
  random_source (always lit_0_5) /\ (1 <= 1)%nat /\
  colors (set_gameState lost near_top_world) = palette /\
  exists m' k' new,
    initializeGame (always lit_0_5) 1 0 (set_gameState lost near_top_world)
    = Ok (m', k') /\
    gameState m' = playing /\ score m' = of_Z 0 /\
    keys m' = keys (set_gameState lost near_top_world) /\
    colors m' = colors (set_gameState lost near_top_world) /\
    heap m' = heap (set_gameState lost near_top_world) ++ new /\
    length new = 10%nat /\
    gameObjects m' = seq (length (heap (set_gameState lost near_top_world))) 10 /\
    player m' = Some (length (heap (set_gameState lost near_top_world))).
Proof.
  assert (H1 : random_source (always lit_0_5))
    by (apply always_random_source; reflexivity).
  assert (H2 : (1 <= 1)%nat) by lia.
  assert (H3 : colors (set_gameState lost near_top_world) = palette) by reflexivity.
  split; [exact H1|]. split; [exact H2|]. split; [exact H3|].
  exact (initializeGame_resets_round (always lit_0_5) 1 0 _ H1 H2 H3).
Defined.
